(** * STREAMON-TORRIDON: the M3U playlist tools

    A shallow embedding of
    - [.github/scripts/check_m3u_links.js] (class [M3UChecker]: [parseM3U],
      [isValidUrl], [checkUrl], [makeRequest], [makeGetRequest], [sleep],
      [logDeadLink], [runCheck]), and
    - the sorter [sortM3uByGroupTitle] and the formatter [cleanM3u] of
      [.github/scripts/sort-m3u.js], with their command lines,
    followed by the properties of the playlist specification and further
    properties of the code.

    JavaScript strings are sequences of UTF-16 code units: a string is a
    [list N].  Promises become computations over an explicit world (the
    injected network, the requests issued so far, the console), a rejection
    is a thrown value.  What belongs to the platform is a parameter of the
    development: the WHATWG URL parser behind [new URL(...)], the check
    [lib.request] makes of its options, the network, [localeCompare], the
    files read and the errors of [fs.writeFileSync]. *)

From Stdlib Require Import List NArith ZArith Bool Lia String Ascii DecimalString.
From Stdlib Require Import Permutation Sorted.
Import ListNotations.
Local Open Scope N_scope.

(* ===================================================================== *)
(** ** JavaScript strings *)
(* ===================================================================== *)

Module Js.

(** A string value: its UTF-16 code units. *)
Definition jsstring := list N.

(** An ASCII literal of the source. *)
Definition lit (s : string) : jsstring :=
  map N_of_ascii (list_ascii_of_string s).

(** The double quote, [U+0022]. *)
Definition dquote : N := 34.
(** The comma, [U+002C]. *)
Definition comma : N := 44.
(** The line feed, [U+000A]. *)
Definition LF : N := 10.
(** The space, [U+0020]. *)
Definition SP : N := 32.

(** [String(n)] for a non-negative integer: its decimal digits. *)
Definition ofNumber (n : N) : jsstring :=
  lit (NilZero.string_of_uint (N.to_uint n)).

(** ECMAScript LineTerminator: LF, CR, LS, PS. *)
Definition isLineTerminator (c : N) : bool :=
  (c =? 10) || (c =? 13) || (c =? 8232) || (c =? 8233).

(** ECMAScript WhiteSpace or LineTerminator: what [String.prototype.trim]
    strips and what the regular expression class [\s] matches. *)
Definition isWs (c : N) : bool :=
  (c =? 9) || (c =? 10) || (c =? 11) || (c =? 12) || (c =? 13) || (c =? 32)
  || (c =? 160) || (c =? 5760) || ((8192 <=? c) && (c <=? 8202))
  || (c =? 8232) || (c =? 8233) || (c =? 8239) || (c =? 8287)
  || (c =? 12288) || (c =? 65279).

Fixpoint eqb (s t : jsstring) : bool :=
  match s, t with
  | [], [] => true
  | c :: s', d :: t' => (c =? d) && eqb s' t'
  | _, _ => false
  end.

Fixpoint dropWhile (p : N -> bool) (s : jsstring) : jsstring :=
  match s with
  | [] => []
  | c :: s' => if p c then dropWhile p s' else s
  end.

(** [s.trim()] *)
Definition trim (s : jsstring) : jsstring :=
  rev (dropWhile isWs (rev (dropWhile isWs s))).

(** [s.startsWith(p)] *)
Fixpoint startsWith (p s : jsstring) : bool :=
  match p, s with
  | [], _ => true
  | _ :: _, [] => false
  | a :: p', c :: s' => (a =? c) && startsWith p' s'
  end.

(** [s.split('\n')]: the empty string splits into one empty string. *)
Fixpoint splitLines (s : jsstring) : list jsstring :=
  match s with
  | [] => [[]]
  | c :: s' =>
      if c =? LF then [] :: splitLines s'
      else match splitLines s' with
           | l :: ls => (c :: l) :: ls
           | [] => [[c]]
           end
  end.

(** [ls.join('\n')] *)
Fixpoint joinLines (ls : list jsstring) : jsstring :=
  match ls with
  | [] => []
  | [l] => l
  | l :: ls' => l ++ LF :: joinLines ls'
  end.

(** [s.indexOf(String.fromCharCode(c))]; [None] stands for [-1]. *)
Fixpoint indexOf (c : N) (s : jsstring) : option nat :=
  match s with
  | [] => None
  | d :: s' =>
      if d =? c then Some O
      else match indexOf c s' with
           | Some i => Some (S i)
           | None => None
           end
  end.

(** [s.lastIndexOf(String.fromCharCode(c))]; [None] stands for [-1]. *)
Fixpoint lastIndexOf (c : N) (s : jsstring) : option nat :=
  match s with
  | [] => None
  | d :: s' =>
      match lastIndexOf c s' with
      | Some i => Some (S i)
      | None => if d =? c then Some O else None
      end
  end.

(** [s.substring(0, i)] and [s.substring(i)] for [i <= s.length]. *)
Definition substringTo (i : nat) (s : jsstring) : jsstring := firstn i s.
Definition substringFrom (i : nat) (s : jsstring) : jsstring := skipn i s.

(** [s.replace(/\s+/g, ' ')]: every maximal run of [\s] becomes one space.
    [inRun] tells that the previous code unit belonged to a run already
    replaced. *)
Fixpoint replaceWsRuns (inRun : bool) (s : jsstring) : jsstring :=
  match s with
  | [] => []
  | c :: s' =>
      if isWs c
      then (if inRun then replaceWsRuns true s' else SP :: replaceWsRuns true s')
      else c :: replaceWsRuns false s'
  end.

Definition collapseWs (s : jsstring) : jsstring := replaceWsRuns false s.

(** A truthy string is a non-empty one. *)
Definition truthy (s : jsstring) : bool :=
  match s with [] => false | _ => true end.

End Js.
Import Js.

(* ===================================================================== *)
(** ** The parser of [check_m3u_links.js] *)
(* ===================================================================== *)

Module Parser.

(** [currentExtinf]: the metadata of the last [#EXTINF] line. *)
Record Metadata : Type := mkMetadata {
  md_title : jsstring;
  md_groupTitle : jsstring
}.

(** An element of [entries]. *)
Record Entry : Type := mkEntry {
  url : jsstring;
  title : jsstring;
  groupTitle : jsstring
}.

(** [line.match(/^#EXTINF:(.+)$/)], capture group 1.  The dot matches any
    code unit but a line terminator and there is no [m] flag: the match
    exists when the prefix is there and the rest of the line is non-empty
    and free of line terminators; the capture is that rest. *)
Definition matchExtinf (line : jsstring) : option jsstring :=
  if startsWith (lit "#EXTINF:") line then
    let rest := skipn 8 line in
    if truthy rest && forallb (fun c => negb (isLineTerminator c)) rest
    then Some rest else None
  else None.

(** The run of code units other than the double quote at the head of [s],
    and what follows it: the greedy negated class of the pattern below. *)
Fixpoint spanNotQuote (s : jsstring) : jsstring * jsstring :=
  match s with
  | [] => ([], [])
  | c :: s' =>
      if c =? dquote then ([], s)
      else let (run, rest) := spanNotQuote s' in (c :: run, rest)
  end.

(** The pattern of [attributesPart.match(...)] tried at the head of [s]:
    the literal [group-title=] and an opening double quote, a non-empty run
    of code units other than the double quote (the capture), a closing
    double quote.  The greedy run is the only candidate: a shorter one is
    followed by a code unit that is no quote. *)
Definition groupTitleAt (s : jsstring) : option jsstring :=
  if startsWith (lit "group-title=" ++ [dquote]) s then
    match spanNotQuote (skipn 13 s) with
    | (c :: run, q :: _) => Some (c :: run)
    | _ => None
    end
  else None.

(** The match of that pattern anywhere in [s], capture group 1: the
    leftmost position where it matches. *)
Fixpoint matchGroupTitle (s : jsstring) : option jsstring :=
  match groupTitleAt s with
  | Some g => Some g
  | None =>
      match s with
      | [] => None
      | _ :: s' => matchGroupTitle s'
      end
  end.

(** The body of the branch [if (line.startsWith('#EXTINF:'))]: the new
    value of [currentExtinf]. *)
Definition parseExtinf (line : jsstring) : Metadata :=
  match matchExtinf line with
  | Some extinfContent =>
      match lastIndexOf comma extinfContent with
      | Some lastCommaIndex =>
          let attributesPart := trim (substringTo lastCommaIndex extinfContent) in
          let title := trim (substringFrom (S lastCommaIndex) extinfContent) in
          let groupTitle :=
            match matchGroupTitle attributesPart with
            | Some g => g
            | None => []
            end in
          mkMetadata title groupTitle
      | None => mkMetadata extinfContent []
      end
  | None => mkMetadata (lit "Unknown") []
  end.

(** [content.split('\n').map(line => line.trim()).filter(line => line)] *)
Definition linesOf (content : jsstring) : list jsstring :=
  filter truthy (map trim (splitLines content)).

Section WithUrl.

(** [isValidUrl]: whether [new URL(urlString)] succeeds. *)
Variable isValidUrl : jsstring -> bool.

(** The state of the loop: [entries] and [currentExtinf]. *)
Definition ParseState : Type := (list Entry * option Metadata)%type.

(** One iteration of [for (const line of lines)]. *)
Definition parseLine (st : ParseState) (line : jsstring) : ParseState :=
  let (entries, currentExtinf) := st in
  if startsWith (lit "#EXTINF:") line then
    (entries, Some (parseExtinf line))
  else if negb (startsWith (lit "#") line) && isValidUrl line then
    let entry :=
      mkEntry line
        (match currentExtinf with Some m => md_title m | None => lit "Unknown" end)
        (match currentExtinf with Some m => md_groupTitle m | None => [] end) in
    (entries ++ [entry], None)
  else st.

Definition parseLines (lines : list jsstring) : ParseState :=
  fold_left parseLine lines ([], None).

(** [parseM3U] once the file has been read. *)
Definition parseContent (content : jsstring) : list Entry :=
  fst (parseLines (linesOf content)).

End WithUrl.

End Parser.
Import Parser.

(* ===================================================================== *)
(** ** The world of the checker: network, timers, console, file system *)
(* ===================================================================== *)

Module World.

Inductive Method : Type := HEAD | GET.

(** The [options] handed to [lib.request].  [hostname], [port] and [path]
    are projections of [new URL(url)]; the request keeps the URL itself. *)
Record Request : Type := mkRequest {
  req_method : Method;
  req_url : jsstring;
  req_timeout : N;
  req_headers : list (jsstring * jsstring)
}.

(** A JavaScript [Error]: its [code] (absent on errors the script builds
    with [new Error]) and its [message]. *)
Record JsError : Type := mkError {
  err_code : option jsstring;
  err_message : jsstring
}.

(** [new Error(message)] *)
Definition newError (message : jsstring) : JsError := mkError None message.

(** What a request comes to: the event that settles the promise first.
    [Response] is the response callback (for the GET request, the ['end']
    of the drained body), [TimedOut] the ['timeout'] event, [Failed] the
    ['error'] event with its error object. *)
Inductive Outcome : Type :=
| Response (statusCode : N)
| TimedOut
| Failed (error : JsError).

(** The lines written with [console.log] and [console.error], one
    constructor per call site, carrying the interpolated values. *)
Inductive LogLine : Type :=
| LogBanner                                   (* M3U Live Stream Dead Link Checker *)
| LogBannerRule
| LogParsing (file : jsstring)                (* Parsing ${M3U_FILE}... *)
| LogFound (n : N)                            (* Found ${entries.length} streams to check *)
| LogNoStreams                                (* No stream URLs found in playlist *)
| LogChecking (i total : N) (displayTitle : jsstring)
| LogLive (statusCode : N)                    (* Live (${statusCode}) *)
| LogDead (error : jsstring)                  (* Dead (${error}) *)
| LogDeadFound                                (* DEAD STREAM FOUND: *)
| LogDeadTitle (title : jsstring)
| LogDeadGroup (groupTitle : jsstring)
| LogDeadUrl (url : jsstring)
| LogDeadError (error : jsstring)
| LogDeadStatus (statusCode : option N)       (* statusCode || 'N/A' *)
| LogCompleted                                (* CHECK COMPLETED *)
| LogCompletedRule
| LogLiveCount (aliveCount : N)
| LogDeadCount (deadCount : N)
| LogSuccessRate (aliveCount total : N)       (* (aliveCount / entries.length) * 100 *)
| LogSummaryHeader                            (* DEAD STREAMS SUMMARY: *)
| LogSummaryRule
| LogSummaryItem (position : N) (title : jsstring)
| LogSummaryGroup (groupTitle : jsstring)
| LogSummaryUrl (url : jsstring)
| LogSummaryError (error : jsstring)
| LogBlank
| LogAllLive                                  (* All streams are live! No issues found. *)
| LogCheckError (message : jsstring).         (* console.error: Error during check *)

Inductive Event : Type :=
| EvRequest (r : Request)
| EvSettled (o : Outcome)
| EvSleep (ms : N)
| EvLog (l : LogLine).

(** The observable history of a run and the number of requests issued. *)
Record World : Type := mkWorld {
  issued : nat;
  trace : list Event
}.

Definition emptyWorld : World := mkWorld 0 [].

(** A path of the file system: absent, present but unreadable (the error
    [readFileSync] throws), or readable with its decoded content. *)
Inductive FileState : Type :=
| Missing
| Unreadable (error : JsError)
| Content (content : jsstring).

(** How a computation completes: a value, or a thrown value (a rejected
    promise). *)
Inductive Completion (A : Type) : Type :=
| Normal (a : A)
| Throw (e : JsError).
Arguments Normal {A} a.
Arguments Throw {A} e.

Definition M (A : Type) : Type := World -> Completion A * World.

Definition ret {A : Type} (a : A) : M A := fun w => (Normal a, w).

Definition throw {A : Type} (e : JsError) : M A := fun w => (Throw e, w).

Definition bind {A B : Type} (c : M A) (k : A -> M B) : M B :=
  fun w =>
    match c w with
    | (Normal a, w') => k a w'
    | (Throw e, w') => (Throw e, w')
    end.

(** [try { c } catch (error) { h error }] *)
Definition tryCatch {A : Type} (c : M A) (h : JsError -> M A) : M A :=
  fun w =>
    match c w with
    | (Normal a, w') => (Normal a, w')
    | (Throw e, w') => h e w'
    end.

Definition emit (ev : Event) : M unit :=
  fun w => (Normal tt, mkWorld (issued w) (trace w ++ [ev])).

(** [console.log] / [console.error] *)
Definition log (l : LogLine) : M unit := emit (EvLog l).

(** [sleep(ms)] *)
Definition sleep (ms : N) : M unit := emit (EvSleep ms).

End World.
Import World.

Declare Scope js_scope.
Delimit Scope js_scope with js.
Notation "x <- c ;; k" := (bind c (fun x => k))
  (at level 61, c at next level, right associativity) : js_scope.
Notation "c ;; k" := (bind c (fun _ => k))
  (at level 61, right associativity) : js_scope.
Local Open Scope js_scope.

(* ===================================================================== *)
(** ** The prober and the checker of [check_m3u_links.js] *)
(* ===================================================================== *)

Module Checker.

(** The configuration set by the constructor. *)
Definition M3U_FILE : jsstring := lit "free.m3u".
Definition REQUEST_TIMEOUT : N := 10000.
Definition MAX_RETRIES : N := 2.
Definition DELAY_BETWEEN_REQUESTS : N := 1000.
Definition USER_AGENT : jsstring := lit "M3U-Checker/1.0".

(** The value [checkUrl] resolves with. *)
Record ProbeResult : Type := mkProbeResult {
  isAlive : bool;
  error : jsstring;
  statusCode : N
}.

(** An element of [deadStreams]. *)
Record DeadStream : Type := mkDeadStream {
  dead_entry : Entry;
  dead_error : jsstring;
  dead_statusCode : N
}.

Definition headOptions (url : jsstring) : Request :=
  mkRequest HEAD url REQUEST_TIMEOUT [(lit "User-Agent", USER_AGENT)].

Definition getOptions (url : jsstring) : Request :=
  mkRequest GET url REQUEST_TIMEOUT
    [(lit "User-Agent", USER_AGENT); (lit "Range", lit "bytes=0-1024")].

(** [error.code === name] *)
Definition codeIs (e : JsError) (name : jsstring) : bool :=
  match err_code e with
  | Some c => Js.eqb c name
  | None => false
  end.

(** The message of the ['timeout'] handlers. *)
Definition timeoutMessage : jsstring :=
  lit "Timeout after " ++ ofNumber REQUEST_TIMEOUT ++ lit "ms".

(** The [TypeError] of [new URL(url)] on a string [isValidUrl] rejects. *)
Definition invalidUrlError : JsError :=
  mkError (Some (lit "ERR_INVALID_URL")) (lit "Invalid URL").

(** The [TypeError] of reading a property of [undefined]. *)
Definition undefinedResultError : JsError :=
  newError (lit "Cannot read properties of undefined (reading 'isAlive')").

Section WithPlatform.

(** [isValidUrl]: whether [new URL(urlString)] succeeds. *)
Variable isValidUrl : jsstring -> bool.

(** The error [lib.request(options, ...)] throws on options it refuses,
    before anything is sent (a path with a space:
    [ERR_UNESCAPED_CHARACTERS]).  Of the options, [hostname], [port] and
    [path] come from the URL; the method, the timeout and the headers are
    constants of the script, which the library accepts: the error is a
    function of the URL. *)
Variable requestError : jsstring -> option JsError.

(** The injected network: what the [n]-th request of the run comes to. *)
Variable net : nat -> Request -> Outcome.

(** The file system the script reads. *)
Variable fs : jsstring -> FileState.

(** [lib.request(options, ...)] followed by [req.end()], up to the event
    that settles the promise.  When [lib.request] throws, no request is
    issued and the error leaves the promise executor, which rejects the
    promise with it. *)
Definition request (r : Request) : M Outcome :=
  fun w =>
    match requestError (req_url r) with
    | Some error => (Throw error, w)
    | None =>
        let o := net (issued w) r in
        (Normal o,
         mkWorld (S (issued w)) (trace w ++ [EvRequest r; EvSettled o]))
    end.

(** [makeGetRequest(url)]; resolves with [res.statusCode].  An error
    thrown inside the executor, by [new URL] or by [lib.request], rejects
    the promise as it is. *)
Definition makeGetRequest (url : jsstring) : M N :=
  if isValidUrl url then
    o <- request (getOptions url) ;;
    match o with
    | Response statusCode => ret statusCode
    | TimedOut => throw (newError timeoutMessage)
    | Failed error => throw error
    end
  else throw invalidUrlError.

(** [makeRequest(url)]; resolves with [res.statusCode].  An error thrown
    inside the executor, by [new URL] or by [lib.request], rejects the
    promise as it is; the errors of the ['error'] event are classified. *)
Definition makeRequest (url : jsstring) : M N :=
  if isValidUrl url then
    o <- request (headOptions url) ;;
    match o with
    | Response statusCode =>
        if statusCode =? 405 then makeGetRequest url else ret statusCode
    | TimedOut => throw (newError timeoutMessage)
    | Failed error =>
        if codeIs error (lit "ECONNREFUSED") then
          throw (newError (lit "Connection refused"))
        else if codeIs error (lit "ENOTFOUND") then
          throw (newError (lit "Host not found"))
        else if codeIs error (lit "ETIMEDOUT") then
          throw (newError (lit "Connection timeout"))
        else
          throw (newError (lit "Connection error: " ++ err_message error))
    end
  else throw invalidUrlError.

(** The loop of [checkUrl] from iteration [attempt] on; [fuel] is the
    number of iterations left, [MAX_RETRIES - attempt].  Leaving the loop
    returns [undefined], here [None]. *)
Fixpoint checkUrlFrom (fuel : nat) (attempt : N) (url : jsstring)
  : M (option ProbeResult) :=
  match fuel with
  | O => ret None
  | S fuel' =>
      tryCatch
        (result <- makeRequest url ;;
         if result <? 400 then
           ret (Some (mkProbeResult true [] result))
         else
           ret (Some (mkProbeResult false (lit "HTTP " ++ ofNumber result) result)))
        (fun error =>
           if attempt =? MAX_RETRIES - 1 then
             ret (Some (mkProbeResult false (err_message error) 0))
           else
             sleep (DELAY_BETWEEN_REQUESTS * (attempt + 1)) ;;
             checkUrlFrom fuel' (attempt + 1) url)
  end.

(** [checkUrl(url)] *)
Definition checkUrl (url : jsstring) : M (option ProbeResult) :=
  checkUrlFrom (N.to_nat MAX_RETRIES) 0 url.

(** [parseM3U(filepath)]: [existsSync], [readFileSync], then the parser. *)
Definition parseM3U (filepath : jsstring) : M (list Entry) :=
  match fs filepath with
  | Missing => throw (newError (filepath ++ lit " not found!"))
  | Unreadable e => throw e
  | Content content => ret (parseContent isValidUrl content)
  end.

(** [if (c) { k }] *)
Definition when (c : bool) (k : M unit) : M unit :=
  if c then k else ret tt.

(** [logDeadLink(entry, error, statusCode)] *)
Definition logDeadLink (entry : Entry) (error : jsstring) (statusCode : N)
  : M unit :=
  log LogDeadFound ;;
  log (LogDeadTitle (title entry)) ;;
  when (truthy (groupTitle entry)) (log (LogDeadGroup (groupTitle entry))) ;;
  log (LogDeadUrl (url entry)) ;;
  log (LogDeadError error) ;;
  log (LogDeadStatus (if statusCode =? 0 then None else Some statusCode)).

(** The loop [for (let i = 0; i < entries.length; i++)] of [runCheck] from
    index [i] on; [rest] holds the entries from [i] on and [total] is
    [entries.length].  It returns [deadStreams] and [aliveCount]. *)
Fixpoint checkEntries (total i : N) (rest : list Entry)
    (deadStreams : list DeadStream) (aliveCount : N)
  : M (list DeadStream * N) :=
  match rest with
  | [] => ret (deadStreams, aliveCount)
  | entry :: rest' =>
      let displayTitle :=
        if truthy (groupTitle entry)
        then title entry ++ lit " (" ++ groupTitle entry ++ lit ")"
        else title entry in
      log (LogChecking (i + 1) total displayTitle) ;;
      result <- checkUrl (url entry) ;;
      match result with
      | None => throw undefinedResultError
      | Some result =>
          st <- (if isAlive result then
                   log (LogLive (statusCode result)) ;;
                   ret (deadStreams, aliveCount + 1)
                 else
                   log (LogDead (error result)) ;;
                   logDeadLink entry (error result) (statusCode result) ;;
                   ret (deadStreams
                          ++ [mkDeadStream entry (error result) (statusCode result)],
                        aliveCount)) ;;
          when (i <? total - 1) (sleep DELAY_BETWEEN_REQUESTS) ;;
          checkEntries total (i + 1) rest' (fst st) (snd st)
      end
  end.

(** [deadStreams.forEach(({ entry, error }, index) => ...)] *)
Fixpoint logSummary (index : N) (deadStreams : list DeadStream) : M unit :=
  match deadStreams with
  | [] => ret tt
  | d :: rest =>
      log (LogSummaryItem (index + 1) (title (dead_entry d))) ;;
      when (truthy (groupTitle (dead_entry d)))
           (log (LogSummaryGroup (groupTitle (dead_entry d)))) ;;
      log (LogSummaryUrl (url (dead_entry d))) ;;
      log (LogSummaryError (dead_error d)) ;;
      log LogBlank ;;
      logSummary (index + 1) rest
  end.

(** The body of the [try] block of [runCheck]. *)
Definition runCheckBody : M unit :=
  log (LogParsing M3U_FILE) ;;
  entries <- parseM3U M3U_FILE ;;
  let total := N.of_nat (List.length entries) in
  log (LogFound total) ;;
  if total =? 0 then
    log LogNoStreams
  else
    st <- checkEntries total 0 entries [] 0 ;;
    let deadStreams := fst st in
    let aliveCount := snd st in
    log LogCompleted ;;
    log LogCompletedRule ;;
    log (LogLiveCount aliveCount) ;;
    log (LogDeadCount (N.of_nat (List.length deadStreams))) ;;
    log (LogSuccessRate aliveCount total) ;;
    if 0 <? N.of_nat (List.length deadStreams) then
      log LogSummaryHeader ;;
      log LogSummaryRule ;;
      logSummary 0 deadStreams
    else
      log LogAllLive.

(** [runCheck()] run as the script does, up to the end of the process: the
    exit status is 1 after [process.exit(1)] and 0 when the promise
    fulfils and the process ends by itself. *)
Definition runCheck (w : World) : N * World :=
  match (log LogBanner ;; log LogBannerRule ;; runCheckBody) w with
  | (Normal _, w') => (0, w')
  | (Throw e, w') =>
      (1, snd (log (LogCheckError (err_message e)) w'))
  end.

End WithPlatform.

End Checker.
Import Checker.

(* ===================================================================== *)
(** ** The formatter [cleanM3u] of [sort-m3u.js] *)
(* ===================================================================== *)

Module Formatter.

(** The function mapped over the lines of the file. *)
Definition cleanLine (line0 : jsstring) : jsstring :=
  let line := trim line0 in
  if startsWith (lit "#EXTINF") line then
    let line := collapseWs line in
    match indexOf comma line with
    | Some firstCommaPos =>
        let extinf := substringTo firstCommaPos line in
        let title := trim (substringFrom (S firstCommaPos) line) in
        extinf ++ comma :: title
    | None => line
    end
  else collapseWs line.

(** [cleanM3u] from the content read to the content written back. *)
Definition cleanM3u (content : jsstring) : jsstring :=
  trim (joinLines (filter truthy (map cleanLine (splitLines content)))) ++ [LF].

End Formatter.
Import Formatter.

(* ===================================================================== *)
(** ** The sorter [sortM3uByGroupTitle] of [sort-m3u.js] *)
(* ===================================================================== *)

Module Sorter.

(** The pattern of the comparator tried at the head of [s]: the literal
    [group-title=] and an opening double quote, a possibly empty run of
    code units other than the double quote (the capture), a closing double
    quote. *)
Definition groupKeyAt (s : jsstring) : option jsstring :=
  if startsWith (lit "group-title=" ++ [dquote]) s then
    match spanNotQuote (skipn 13 s) with
    | (run, q :: _) => Some run
    | _ => None
    end
  else None.

(** The match of that pattern anywhere in [s], capture group 1: the
    leftmost position where it matches. *)
Fixpoint matchGroupKey (s : jsstring) : option jsstring :=
  match groupKeyAt s with
  | Some g => Some g
  | None =>
      match s with
      | [] => None
      | _ :: s' => matchGroupKey s'
      end
  end.

(** [(a[0].match(...) || [])[1] || '']: the group title of an entry, read
    from its first line.  The entries the loop collects are never empty, so
    [a[0]] is always there. *)
Definition groupTitleOf (entry : list jsstring) : jsstring :=
  match entry with
  | [] => []
  | first :: _ =>
      match matchGroupKey first with
      | Some g => g
      | None => []
      end
  end.

(** [currentEntry.length > 0 &&
     !currentEntry[currentEntry.length - 1].startsWith('#')] *)
Definition complete (currentEntry : list jsstring) : bool :=
  match currentEntry with
  | [] => false
  | _ :: _ => negb (startsWith (lit "#") (last currentEntry []))
  end.

(** The state of the grouping loop: [entries] and [currentEntry]. *)
Definition GroupState : Type := (list (list jsstring) * list jsstring)%type.

(** One iteration of [for (let i = 1; i < lines.length; i++)]. *)
Definition groupLine (st : GroupState) (rawLine : jsstring) : GroupState :=
  let (entries, currentEntry) := st in
  let line := trim rawLine in
  if negb (truthy line) then st
  else if startsWith (lit "#EXTINF") line then
    ((if complete currentEntry then entries ++ [currentEntry] else entries),
     [line])
  else if startsWith (lit "#") line then
    (entries,
     match currentEntry with
     | [] => currentEntry
     | _ :: _ => currentEntry ++ [line]
     end)
  else
    match currentEntry with
    | [] => st
    | _ :: _ => (entries ++ [currentEntry ++ [line]], [])
    end.

(** The loop over [lines[1..]] and the push of the last entry. *)
Definition groupEntries (lines : list jsstring) : list (list jsstring) :=
  let (entries, currentEntry) := fold_left groupLine (tl lines) ([], []) in
  if complete currentEntry then entries ++ [currentEntry] else entries.

Section WithCompare.

Context {A : Type}.

(** The comparator handed to [Array.prototype.sort]: negative, zero or
    positive. *)
Variable compare : A -> A -> Z.

(** [x] put into a sorted list before the first element it does not come
    after. *)
Fixpoint insertSorted (x : A) (l : list A) : list A :=
  match l with
  | [] => [x]
  | y :: l' =>
      if (compare x y <=? 0)%Z then x :: l else y :: insertSorted x l'
  end.

(** [l.sort(compare)].  The platform's sort is stable; with a consistent
    comparator its result is the stable sorted arrangement, which this
    insertion sort computes. *)
Definition sortStable (l : list A) : list A :=
  fold_right insertSorted [] l.

End WithCompare.

Section WithLocale.

(** [a.localeCompare(b)] of the platform. *)
Variable localeCompare : jsstring -> jsstring -> Z.

(** The comparator of [entries.sort]. *)
Definition compareEntries (a b : list jsstring) : Z :=
  localeCompare (groupTitleOf a) (groupTitleOf b).

(** [sortM3uByGroupTitle] from the content read to the content written
    back, or the error thrown before anything is written. *)
Definition sortM3uByGroupTitle (content : jsstring) : Completion jsstring :=
  let lines := splitLines content in
  let header := hd [] lines in
  if negb (startsWith (lit "#EXTM3U") header) then
    Throw (newError (lit "Invalid M3U file: Missing #EXTM3U header"))
  else
    let entries := sortStable compareEntries (groupEntries lines) in
    Normal (joinLines (header :: List.concat entries)).

End WithLocale.

End Sorter.
Import Sorter.

(* ===================================================================== *)
(** ** The command lines of [sort-m3u.js] *)
(* ===================================================================== *)

Module Scripts.

(** What a script leaves behind: the exit status, the path and content of
    the call of [fs.writeFileSync] that returned, if one did, and the lines
    written to the console.  What a call of [fs.writeFileSync] that throws
    leaves of the file is the platform's affair and is not described. *)
Record Run : Type := mkRun {
  run_exit : N;
  run_written : option (jsstring * jsstring);
  run_console : list jsstring
}.

(** The error of [fs.readFileSync] on a path that does not exist. *)
Definition noEntryError (filePath : jsstring) : JsError :=
  mkError (Some (lit "ENOENT"))
    (lit "ENOENT: no such file or directory, open '" ++ filePath ++ lit "'").

(** [fs.readFileSync(filePath, 'utf8')] *)
Definition readFile (files : jsstring -> FileState) (filePath : jsstring)
  : Completion jsstring :=
  match files filePath with
  | Missing => Throw (noEntryError filePath)
  | Unreadable e => Throw e
  | Content content => Normal content
  end.

Section WithWrites.

(** The error [fs.writeFileSync(filePath, content)] throws, when it throws
    ([EACCES] on a file that may not be written). *)
Variable writeError : jsstring -> jsstring -> option JsError.

(** [fs.writeFileSync(filePath, content)] *)
Definition writeFile (filePath content : jsstring) : Completion unit :=
  match writeError filePath content with
  | Some e => Throw e
  | None => Normal tt
  end.

Section WithLocale.

Variable localeCompare : jsstring -> jsstring -> Z.

(** The script around [sortM3uByGroupTitle]: [arg] is [process.argv[2]].
    Reading, sorting and writing happen inside the [try]; the [catch]
    writes the message of the error and exits with status 1. *)
Definition sortMain (arg : option jsstring) (files : jsstring -> FileState)
  : Run :=
  match arg with
  | Some filePath =>
      if truthy filePath then
        match readFile files filePath with
        | Normal content =>
            match sortM3uByGroupTitle localeCompare content with
            | Normal sortedContent =>
                match writeFile filePath sortedContent with
                | Normal _ =>
                    mkRun 0 (Some (filePath, sortedContent))
                      [lit "M3U file has been sorted by group-title"]
                | Throw e =>
                    mkRun 1 None [lit "Error: " ++ err_message e]
                end
            | Throw e => mkRun 1 None [lit "Error: " ++ err_message e]
            end
        | Throw e => mkRun 1 None [lit "Error: " ++ err_message e]
        end
      else mkRun 1 None [lit "Please provide a file path"]
  | None => mkRun 1 None [lit "Please provide a file path"]
  end.

End WithLocale.

(** The script around [cleanM3u]. *)
Definition cleanMain (arg : option jsstring) (files : jsstring -> FileState)
  : Run :=
  match arg with
  | Some filePath =>
      if truthy filePath then
        match readFile files filePath with
        | Normal content =>
            match writeFile filePath (cleanM3u content) with
            | Normal _ =>
                mkRun 0 (Some (filePath, cleanM3u content))
                  [lit "Basic cleanup of StreamOn-T1.m3u completed"]
            | Throw e =>
                mkRun 1 None
                  [lit "Error cleaning StreamOn-T1.m3u: " ++ err_message e]
            end
        | Throw e =>
            mkRun 1 None
              [lit "Error cleaning StreamOn-T1.m3u: " ++ err_message e]
        end
      else mkRun 1 None [lit "Please provide the path to StreamOn-T1.m3u"]
  | None => mkRun 1 None [lit "Please provide the path to StreamOn-T1.m3u"]
  end.

End WithWrites.

End Scripts.
Import Scripts.

(* ===================================================================== *)
(** ** The vocabulary of the properties *)
(* ===================================================================== *)

Module Trace.

Definition methodEqb (a b : Method) : bool :=
  match a, b with
  | HEAD, HEAD => true
  | GET, GET => true
  | _, _ => false
  end.

(** The requests of a trace, in order. *)
Fixpoint requestsOf (evs : list Event) : list Request :=
  match evs with
  | [] => []
  | EvRequest r :: evs' => r :: requestsOf evs'
  | _ :: evs' => requestsOf evs'
  end.

(** The number of requests with method [m]. *)
Definition countMethod (m : Method) (evs : list Event) : nat :=
  List.length (filter (fun r => methodEqb (req_method r) m) (requestsOf evs)).

(** The status codes of the responses received, in order. *)
Fixpoint responsesOf (evs : list Event) : list N :=
  match evs with
  | [] => []
  | EvSettled (Response s) :: evs' => s :: responsesOf evs'
  | _ :: evs' => responsesOf evs'
  end.

(** What the last request of the trace came to. *)
Fixpoint lastSettled (evs : list Event) : option Outcome :=
  match evs with
  | [] => None
  | ev :: evs' =>
      match lastSettled evs' with
      | Some o => Some o
      | None => match ev with EvSettled o => Some o | _ => None end
      end
  end.

(** The status code a probe ends with: that of its last request, when that
    request got a response. *)
Definition finalStatus (evs : list Event) : option N :=
  match lastSettled evs with
  | Some (Response s) => Some s
  | _ => None
  end.

(** The lines written to the console. *)
Fixpoint logsOf (evs : list Event) : list LogLine :=
  match evs with
  | [] => []
  | EvLog l :: evs' => l :: logsOf evs'
  | _ :: evs' => logsOf evs'
  end.

End Trace.
Import Trace.

Module Spec.

(** The lines the spec calls URL-bearing: non-empty after trimming, not a
    comment, accepted by the URL check. *)
Definition isUrlLine (isValidUrl : jsstring -> bool) (line : jsstring) : bool :=
  truthy line && negb (startsWith (lit "#") line) && isValidUrl line.

Definition urlLines (isValidUrl : jsstring -> bool) (content : jsstring)
  : list jsstring :=
  filter (isUrlLine isValidUrl) (map trim (splitLines content)).

Definition noneIs (c : N) (s : jsstring) : bool :=
  forallb (fun d => negb (d =? c)) s.

Definition noLineTerminator (s : jsstring) : bool :=
  forallb (fun c => negb (isLineTerminator c)) s.

Definition urlish (v : jsstring -> bool) (line : jsstring) : bool :=
  negb (startsWith (lit "#") line) && v line.

(** The literal that opens the attribute: [group-title=] and a quote. *)
Definition groupTitleKey : jsstring := lit "group-title=" ++ [dquote].

(** The result [checkUrl] builds from a status code. *)
Definition resultOfStatus (s : N) : ProbeResult :=
  if s <? 400 then mkProbeResult true [] s
  else mkProbeResult false (lit "HTTP " ++ ofNumber s) s.

(** An attempt gets as far as its HEAD request: [new URL] accepts the
    string and [lib.request] accepts the options. *)
Definition sendable (isValidUrl : jsstring -> bool)
    (requestError : jsstring -> option JsError) (url : jsstring) : bool :=
  isValidUrl url
  && match requestError url with None => true | Some _ => false end.

(** What one attempt leaves in the trace: one HEAD request when the
    attempt gets that far ([valid]), at most one GET request, and the status
    it resolves with is that of its last request. *)
Record AttemptTrace (valid : bool) (c : Completion N) (evs : list Event)
  : Prop := {
  at_heads : countMethod HEAD evs = if valid then 1%nat else 0%nat;
  at_gets : (countMethod GET evs <= 1)%nat;
  at_status :
    match c with
    | Normal s => finalStatus evs = Some s
    | Throw _ => finalStatus evs = None
    end
}.

(** What a probe leaves in the trace and how its result reads from it. *)
Record ProbeTrace (valid : bool) (r : ProbeResult) (evs : list Event)
  : Prop := {
  pt_heads : (countMethod HEAD evs <= 2)%nat;
  pt_gets : (countMethod GET evs <= 2)%nat;
  pt_status : forall s, finalStatus evs = Some s -> r = resultOfStatus s;
  pt_failed :
    finalStatus evs = None ->
    isAlive r = false /\ statusCode r = 0
    /\ countMethod HEAD evs = (if valid then 2%nat else 0%nat)
}.

(** The messages [makeRequest] classifies transport failures into. *)
Definition classified (message : jsstring) : bool :=
  Js.eqb message timeoutMessage
  || Js.eqb message (lit "Connection refused")
  || Js.eqb message (lit "Host not found")
  || Js.eqb message (lit "Connection timeout")
  || startsWith (lit "Connection error: ") message.

Definition nonWs (c : N) : bool := negb (isWs c).

(** No white space at the head. *)
Definition headNonWs (s : jsstring) : bool :=
  match s with
  | [] => true
  | c :: _ => nonWs c
  end.

(** No white space at the end. *)
Definition lastNonWs (s : jsstring) : bool := headNonWs (rev s).

(** Every white space code unit is a space and is not followed by another
    white space code unit. *)
Fixpoint singleSpaced (s : jsstring) : bool :=
  match s with
  | [] => true
  | c :: s' => (nonWs c || ((c =? SP) && headNonWs s')) && singleSpaced s'
  end.

(** The words of a line: its maximal runs of code units that are no white
    space, in order. *)
Fixpoint words (s : jsstring) : list jsstring :=
  match s with
  | [] => []
  | c :: s' =>
      if isWs c then words s'
      else if truthy s' && headNonWs s'
           then match words s' with
                | w :: ws => (c :: w) :: ws
                | [] => [[c]]
                end
           else [c] :: words s'
  end.

(** Words joined by single spaces. *)
Fixpoint unwords (ws : list jsstring) : jsstring :=
  match ws with
  | [] => []
  | [w] => w
  | w :: ws' => w ++ SP :: unwords ws'
  end.

(** The last code unit is white space. *)
Fixpoint endsWithWs (s : jsstring) : bool :=
  match s with
  | [] => false
  | [c] => isWs c
  | _ :: s' => endsWithWs s'
  end.

(** The space that stands for the white space at the end of a string
    that holds a word. *)
Definition wsTail (s : jsstring) : jsstring :=
  if endsWithWs s && match words s with [] => false | _ :: _ => true end
  then [SP] else [].

(** A metadata line for the formatter: its first word starts with
    [#EXTINF]. *)
Definition extinfLine (l : jsstring) : bool :=
  startsWith (lit "#EXTINF") (hd [] (words l)).

(** The lines [cleanM3u] joins: not empty, no white space at the ends. *)
Definition tidy (l : jsstring) : bool :=
  truthy l && headNonWs l && lastNonWs l.

(** [c] completes normally from every world, with a value satisfying [P]. *)
Definition returns {A : Type} (P : A -> Prop) (c : M A) : Prop :=
  forall w, exists a w', c w = (Normal a, w') /\ P a.

(** The events a run without entries adds to the trace. *)
Definition noEntriesEvents : list Event :=
  map EvLog [LogBanner; LogBannerRule; LogParsing M3U_FILE; LogFound 0;
             LogNoStreams].

Definition isSuccessRate (l : LogLine) : bool :=
  match l with
  | LogSuccessRate _ _ => true
  | _ => false
  end.

End Spec.
Import Spec.

(* ===================================================================== *)
(** ** Sample inputs *)
(* ===================================================================== *)

Module Samples.

(** An instance of the URL check for the examples: it accepts the strings
    that start with [http://] or [https://] and hold no white space, which
    covers the URLs used below, and rejects everything else. *)
Definition sampleValidUrl (s : jsstring) : bool :=
  (startsWith (lit "http://") s || startsWith (lit "https://") s)
  && forallb (fun c => negb (isWs c)) s.

(** The metadata line of the spec: [#EXTINF:-1 group-title=], [News] in
    double quotes, [,Channel, The Show]. *)
Definition extinfNews : jsstring :=
  lit "#EXTINF:-1 group-title=" ++ [dquote] ++ lit "News" ++ [dquote]
  ++ lit ",Channel, The Show".

Definition newsUrl : jsstring := lit "http://example.com/news.m3u8".

(** The line [#EXTINF:-1 group-title=], [Sports] in double quotes,
    [,Match, Day 3]. *)
Definition sportsPre : jsstring :=
  lit "-1 group-title=" ++ [dquote] ++ lit "Sports" ++ [dquote] ++ lit ",Match".

(** The content [-1 group-title=], [News] in double quotes, [ Channel]. *)
Definition newsNoComma : jsstring :=
  lit "-1 group-title=" ++ [dquote] ++ lit "News" ++ [dquote] ++ lit " Channel".

(** A playlist with its header only. *)
Definition headerOnly : jsstring := lit "#EXTM3U" ++ [LF].

(** The end-to-end scenario of the spec: three entries answered with 200,
    404 and a timeout on both attempts. *)
Definition threeEntries : jsstring :=
  lit "#EXTM3U" ++ [LF]
  ++ lit "#EXTINF:-1,One" ++ [LF] ++ lit "http://a.example/1" ++ [LF]
  ++ lit "#EXTINF:-1,Two" ++ [LF] ++ lit "http://a.example/2" ++ [LF]
  ++ lit "#EXTINF:-1,Three" ++ [LF] ++ lit "http://a.example/3" ++ [LF].

(** The error of [lib.request] on a path with a code unit it wants
    escaped. *)
Definition unescapedError : JsError :=
  mkError (Some (lit "ERR_UNESCAPED_CHARACTERS"))
    (lit "Request path contains unescaped characters").

(** An instance of the check of [lib.request] for the examples: it refuses
    the URLs that hold a code unit outside [U+0021]..[U+00FF]. *)
Definition sampleRequestError (url : jsstring) : option JsError :=
  if forallb (fun c => (33 <=? c) && (c <=? 255)) url then None
  else Some unescapedError.

(** A file system holding [content] at every path. *)
Definition fsWith (content : jsstring) : jsstring -> FileState :=
  fun _ => Content content.

(** A network that refuses every connection. *)
Definition netRefused : nat -> Request -> Outcome :=
  fun _ _ =>
    Failed (mkError (Some (lit "ECONNREFUSED"))
              (lit "connect ECONNREFUSED 127.0.0.1:80")).

(** The network of the failing input of C6: every HEAD request is answered
    with 405 and every GET request is refused. *)
Definition netFallbackRefused : nat -> Request -> Outcome :=
  fun _ r =>
    match req_method r with
    | HEAD => Response 405
    | GET =>
        Failed (mkError (Some (lit "ECONNREFUSED"))
                  (lit "connect ECONNREFUSED 127.0.0.1:80"))
    end.

(** A network whose first request is answered with 405 and whose later
    requests are answered with 200. *)
Definition net405Then200 : nat -> Request -> Outcome :=
  fun n _ =>
    match n with
    | O => Response 405
    | S _ => Response 200
    end.

Definition netScenario : nat -> Request -> Outcome :=
  fun n _ =>
    match n with
    | 0%nat => Response 200
    | 1%nat => Response 404
    | _ => TimedOut
    end.

End Samples.
Import Samples.

(* ===================================================================== *)
(** ** The vocabulary of the further properties *)
(* ===================================================================== *)

Module Shapes.

(** [line.startsWith('#')] *)
Definition isHash (l : jsstring) : bool := startsWith (lit "#") l.

(** [line.startsWith('#EXTINF')] *)
Definition isExtinf (l : jsstring) : bool := startsWith (lit "#EXTINF") l.

(** A directive line of the sorter: a comment that opens no entry. *)
Definition directive (l : jsstring) : bool := isHash l && negb (isExtinf l).

(** Directive lines closed by one line that is no comment. *)
Fixpoint shapeRest (rest : list jsstring) : bool :=
  match rest with
  | [] => false
  | u :: [] => negb (isHash u)
  | d :: rest' => directive d && shapeRest rest'
  end.

(** A complete entry of the sorter: an [#EXTINF] line, directive lines, one
    URL line; every line trimmed and not empty. *)
Definition entryShape (e : list jsstring) : bool :=
  match e with
  | [] => false
  | first :: rest => isExtinf first && shapeRest rest
  end && forallb tidy e.

(** An entry under construction: nothing, or an [#EXTINF] line and
    directive lines. *)
Definition openShape (cur : list jsstring) : bool :=
  match cur with
  | [] => true
  | first :: rest => isExtinf first && forallb directive rest
  end && forallb tidy cur.

(** The lines [cleanM3u] joins. *)
Definition cleanedLines (content : jsstring) : list jsstring :=
  filter truthy (map cleanLine (splitLines content)).

(** What the grouping loop keeps true of its state. *)
Definition groupInv (st : GroupState) : Prop :=
  forallb entryShape (fst st) = true /\ openShape (snd st) = true.

(** A line the loop of [parseM3U] passes over: no [#EXTINF:] line and no
    URL line. *)
Definition ignored (v : jsstring -> bool) (line : jsstring) : bool :=
  negb (startsWith (lit "#EXTINF:") line) && negb (urlish v line).

(** The carriage return, [U+000D]. *)
Definition CR : N := 13.

(** Every line feed of [s] comes after a carriage return; [afterCR] tells
    that the code unit before [s] is one. *)
Fixpoint crlfFrom (afterCR : bool) (s : jsstring) : bool :=
  match s with
  | [] => true
  | c :: s' => (negb (c =? LF) || afterCR) && crlfFrom (c =? CR) s'
  end.

(** A text with CRLF line endings, with or without a line terminator at
    its end. *)
Definition crlfText (s : jsstring) : bool := crlfFrom false s.

(** The text without the carriage return before each line feed: the same
    lines with LF line endings. *)
Fixpoint fromCRLF (s : jsstring) : jsstring :=
  match s with
  | [] => []
  | c :: s' =>
      match s' with
      | d :: _ =>
          if (c =? CR) && (d =? LF) then fromCRLF s' else c :: fromCRLF s'
      | [] => [c]
      end
  end.

(** The text [s] with a carriage return put before every line feed. *)
Definition toCRLF (s : jsstring) : jsstring :=
  flat_map (fun c => if c =? LF then [CR; LF] else [c]) s.

(** A carriage return at the end of every line but the last. *)
Fixpoint endCR (ls : list jsstring) : list jsstring :=
  match ls with
  | [] => []
  | [l] => [l]
  | l :: ls' => (l ++ [CR]) :: endCR ls'
  end.

(** The order [entries.sort] establishes: [a] does not come after [b]. *)
Definition notAfter {A : Type} (compare : A -> A -> Z) (a b : A) : Prop :=
  (compare a b <= 0)%Z.

(** The elements that compare equal to [z]. *)
Definition sameClass {A : Type} (compare : A -> A -> Z) (z y : A) : bool :=
  (compare z y =? 0)%Z.

(** The comparison of strings by code units: a comparator for the
    examples. *)
Fixpoint codeUnitCompare (a b : jsstring) : Z :=
  match a, b with
  | [], [] => 0%Z
  | [], _ :: _ => (-1)%Z
  | _ :: _, [] => 1%Z
  | c :: a', d :: b' =>
      if c <? d then (-1)%Z
      else if d <? c then 1%Z
      else codeUnitCompare a' b'
  end.

End Shapes.
Import Shapes.

Module MoreSamples.

(** A playlist of two entries, [News] before [Arts], the second with a
    directive line, and lines the sorter drops. *)
Definition unsortedPlaylist : jsstring :=
  lit "#EXTM3U" ++ [LF]
  ++ lit "http://orphan.example/0" ++ [LF]
  ++ lit "#EXTINF:-1 group-title=" ++ [dquote] ++ lit "News" ++ [dquote]
  ++ lit ",B" ++ [LF]
  ++ lit "  http://b.example/1  " ++ [LF]
  ++ [LF]
  ++ lit "#EXTINF:-1 group-title=" ++ [dquote] ++ lit "Arts" ++ [dquote]
  ++ lit ",A" ++ [LF]
  ++ lit "#EXTVLCOPT:network-caching=1000" ++ [LF]
  ++ lit "http://a.example/2" ++ [LF]
  ++ lit "#EXTINF:-1,No url" ++ [LF].

(** The same playlist sorted. *)
Definition sortedPlaylist : jsstring :=
  lit "#EXTM3U" ++ [LF]
  ++ lit "#EXTINF:-1 group-title=" ++ [dquote] ++ lit "Arts" ++ [dquote]
  ++ lit ",A" ++ [LF]
  ++ lit "#EXTVLCOPT:network-caching=1000" ++ [LF]
  ++ lit "http://a.example/2" ++ [LF]
  ++ lit "#EXTINF:-1 group-title=" ++ [dquote] ++ lit "News" ++ [dquote]
  ++ lit ",B" ++ [LF]
  ++ lit "http://b.example/1".

(** The lines of an entry of group [g] named [name] served at [address]. *)
Definition entryOf (g name address : string) : list jsstring :=
  [lit "#EXTINF:-1 group-title=" ++ [dquote] ++ lit g ++ [dquote]
   ++ lit "," ++ lit name;
   lit address].

(** A playlist with a tie: two entries of the group [News] with an entry
    of the group [Arts] between them. *)
Definition tiedPlaylist : jsstring :=
  joinLines
    (lit "#EXTM3U"
     :: entryOf "News" "First" "http://n.example/1"
     ++ entryOf "Arts" "Between" "http://a.example/2"
     ++ entryOf "News" "Second" "http://n.example/3").

(** The same playlist sorted. *)
Definition tiedSorted : jsstring :=
  joinLines
    (lit "#EXTM3U"
     :: entryOf "Arts" "Between" "http://a.example/2"
     ++ entryOf "News" "First" "http://n.example/1"
     ++ entryOf "News" "Second" "http://n.example/3").

(** A playlist with CRLF line endings that ends with a line terminator. *)
Definition crlfPlaylist : jsstring :=
  lit "#EXTM3U" ++ [CR; LF] ++ extinfNews ++ [CR; LF] ++ newsUrl ++ [CR; LF].

(** A file system with one file. *)
Definition oneFile (filePath content : jsstring) : jsstring -> FileState :=
  fun p => if Js.eqb p filePath then Content content else Missing.

(** A file system in which every write succeeds. *)
Definition writable : jsstring -> jsstring -> option JsError :=
  fun _ _ => None.

(** A file system in which no file may be written. *)
Definition readOnly : jsstring -> jsstring -> option JsError :=
  fun filePath _ =>
    Some (mkError (Some (lit "EACCES"))
            (lit "EACCES: permission denied, open '" ++ filePath ++ lit "'")).

(** A network on which every request times out. *)
Definition netTimeout : nat -> Request -> Outcome := fun _ _ => TimedOut.

(** A network that answers every request with 200. *)
Definition net200 : nat -> Request -> Outcome := fun _ _ => Response 200.

(** A line that is no stream address and yet parses as a URL, with the
    scheme [note:]; its path holds spaces. *)
Definition noteUrl : jsstring := lit "Note: see below".

(** A playlist of two entries: a stream address, and a line of text that
    parses as a URL. *)
Definition notePlaylist : jsstring :=
  lit "#EXTM3U" ++ [LF]
  ++ lit "#EXTINF:-1,One" ++ [LF] ++ lit "http://a.example/1" ++ [LF]
  ++ noteUrl ++ [LF].

(** A code unit of a URL scheme after its first letter: an ASCII letter or
    digit, [+], [-] or [.]. *)
Definition isSchemeUnit (c : N) : bool :=
  ((65 <=? c) && (c <=? 90)) || ((97 <=? c) && (c <=? 122))
  || ((48 <=? c) && (c <=? 57)) || (c =? 43) || (c =? 45) || (c =? 46).

Definition isLetter (c : N) : bool :=
  ((65 <=? c) && (c <=? 90)) || ((97 <=? c) && (c <=? 122)).

(** An instance of the URL check that also accepts what [new URL] accepts
    of a line of text: a letter, scheme code units and a colon, then
    anything. *)
Definition schemeValidUrl (s : jsstring) : bool :=
  match s with
  | c :: s' =>
      isLetter c
      && match dropWhile isSchemeUnit s' with
         | d :: _ => d =? 58
         | [] => false
         end
  | [] => false
  end.

(** A network that answers every request with 404. *)
Definition net404 : nat -> Request -> Outcome := fun _ _ => Response 404.

End MoreSamples.
Import MoreSamples.

Module ProbeShapes.

(** The events of one attempt that starts as request number [n]: nothing
    when the URL does not parse or [lib.request] refuses the options; else
    the HEAD request and what it comes to, followed, after a 405, by the GET
    request and what it comes to. *)
Definition attemptEvents (isValidUrl : jsstring -> bool)
    (requestError : jsstring -> option JsError)
    (net : nat -> Request -> Outcome) (url : jsstring) (n : nat)
  : list Event :=
  if sendable isValidUrl requestError url then
    match net n (headOptions url) with
    | Response s =>
        if s =? 405 then
          [EvRequest (headOptions url); EvSettled (Response s);
           EvRequest (getOptions url); EvSettled (net (S n) (getOptions url))]
        else [EvRequest (headOptions url); EvSettled (Response s)]
    | o => [EvRequest (headOptions url); EvSettled o]
    end
  else [].

(** The world an attempt leaves. *)
Definition afterAttempt (isValidUrl : jsstring -> bool)
    (requestError : jsstring -> option JsError)
    (net : nat -> Request -> Outcome) (url : jsstring) (w : World) : World :=
  mkWorld
    (List.length
       (requestsOf (attemptEvents isValidUrl requestError net url (issued w)))
     + issued w)
    (trace w ++ attemptEvents isValidUrl requestError net url (issued w)).

(** The lines that count: streams found, live, dead, success rate. *)
Definition isCountLine (l : LogLine) : bool :=
  match l with
  | LogFound _ | LogLiveCount _ | LogDeadCount _ | LogSuccessRate _ _ => true
  | _ => false
  end.

(** The progress lines, one per entry checked. *)
Definition isCheckingLine (l : LogLine) : bool :=
  match l with
  | LogChecking _ _ _ => true
  | _ => false
  end.

(** The count lines of a trace, in order. *)
Definition countLines (evs : list Event) : list LogLine :=
  filter isCountLine (logsOf evs).

(** The number of progress lines of a trace. *)
Definition checkings (evs : list Event) : nat :=
  List.length (filter isCheckingLine (logsOf evs)).

(** The entries whose probe gets as far as a request. *)
Definition sendableEntries (isValidUrl : jsstring -> bool)
    (requestError : jsstring -> option JsError) (entries : list Entry)
  : list Entry :=
  filter (fun e => sendable isValidUrl requestError (url e)) entries.

(** Events without count line, progress line or HEAD request. *)
Definition quiet (evs : list Event) : Prop :=
  countLines evs = [] /\ checkings evs = 0%nat /\ countMethod HEAD evs = 0%nat.

(** The lines [logDeadLink] writes. *)
Definition deadLinkEvents (entry : Entry) (error : jsstring) (statusCode : N)
  : list Event :=
  [EvLog LogDeadFound; EvLog (LogDeadTitle (title entry))]
  ++ (if truthy (groupTitle entry)
      then [EvLog (LogDeadGroup (groupTitle entry))] else [])
  ++ [EvLog (LogDeadUrl (url entry)); EvLog (LogDeadError error);
      EvLog (LogDeadStatus (if statusCode =? 0 then None else Some statusCode))].

(** The lines the dead-streams summary writes, from position [index] on. *)
Fixpoint summaryEvents (index : N) (deadStreams : list DeadStream)
  : list Event :=
  match deadStreams with
  | [] => []
  | d :: rest =>
      [EvLog (LogSummaryItem (index + 1) (title (dead_entry d)))]
      ++ (if truthy (groupTitle (dead_entry d))
          then [EvLog (LogSummaryGroup (groupTitle (dead_entry d)))] else [])
      ++ [EvLog (LogSummaryUrl (url (dead_entry d)));
          EvLog (LogSummaryError (dead_error d)); EvLog LogBlank]
      ++ summaryEvents (index + 1) rest
  end.

(** The message of the error [parseM3U] throws, when it throws. *)
Definition sourceError (fs : jsstring -> FileState) : option jsstring :=
  match fs M3U_FILE with
  | Missing => Some (M3U_FILE ++ lit " not found!")
  | Unreadable e => Some (err_message e)
  | Content _ => None
  end.

End ProbeShapes.
Import ProbeShapes.

(* ===================================================================== *)
(** ** Facts about the string primitives *)
(* ===================================================================== *)

Module JsFacts.

Example ofNumber_10000 : ofNumber 10000 = lit "10000".
Proof. reflexivity. Qed.

Example ofNumber_0 : ofNumber 0 = lit "0".
Proof. reflexivity. Qed.

Example split_empty : splitLines [] = [[]].
Proof. reflexivity. Qed.

Lemma startsWith_app (p s : jsstring) : startsWith p (p ++ s) = true.
Proof.
  induction p as [|a p IH]; simpl; [reflexivity|].
  now rewrite N.eqb_refl, IH.
Qed.

Lemma startsWith_split (p s : jsstring) :
  startsWith p s = true -> s = p ++ skipn (List.length p) s.
Proof.
  revert s. induction p as [|a p IH]; intros s H; simpl; [reflexivity|].
  destruct s as [|c s]; simpl in H; [discriminate|].
  apply andb_true_iff in H. destruct H as [Hc Hs].
  apply N.eqb_eq in Hc. subst c. simpl. f_equal. now apply IH.
Qed.

Lemma startsWith_extinf_hash (line : jsstring) :
  startsWith (lit "#EXTINF:") line = true -> startsWith (lit "#") line = true.
Proof.
  destruct line as [|c line]; simpl; [discriminate|].
  intros H. apply andb_true_iff in H. destruct H as [H _].
  now rewrite H.
Qed.

Lemma lastIndexOf_none (c : N) (s : jsstring) :
  noneIs c s = true -> lastIndexOf c s = None.
Proof.
  induction s as [|d s IH]; simpl; [reflexivity|].
  intros H. apply andb_true_iff in H. destruct H as [Hd Hs].
  rewrite (IH Hs). apply negb_true_iff in Hd. now rewrite Hd.
Qed.

Lemma lastIndexOf_last (c : N) (pre post : jsstring) :
  noneIs c post = true ->
  lastIndexOf c (pre ++ c :: post) = Some (List.length pre).
Proof.
  intros Hpost. induction pre as [|d pre IH]; simpl.
  - now rewrite (lastIndexOf_none _ _ Hpost), N.eqb_refl.
  - now rewrite IH.
Qed.

Lemma indexOf_first (c : N) (pre post : jsstring) :
  noneIs c pre = true ->
  indexOf c (pre ++ c :: post) = Some (List.length pre).
Proof.
  induction pre as [|d pre IH]; simpl; intros H.
  - now rewrite N.eqb_refl.
  - apply andb_true_iff in H. destruct H as [Hd Hs].
    apply negb_true_iff in Hd. now rewrite Hd, (IH Hs).
Qed.

Lemma indexOf_split (c : N) (s : jsstring) (i : nat) :
  indexOf c s = Some i ->
  s = firstn i s ++ c :: skipn (S i) s /\ noneIs c (firstn i s) = true
  /\ List.length (firstn i s) = i.
Proof.
  revert i. induction s as [|d s IH]; simpl; intros i H; [discriminate|].
  destruct (N.eqb_spec d c) as [->|Hne].
  - injection H as <-. simpl. auto.
  - destruct (indexOf c s) as [j|] eqn:E; [|discriminate].
    injection H as <-. destruct (IH j eq_refl) as (H1 & H2 & H3).
    apply N.eqb_neq in Hne.
    change (firstn (S j) (d :: s)) with (d :: firstn j s).
    change (skipn (S (S j)) (d :: s)) with (skipn (S j) s).
    repeat split.
    + rewrite <- app_comm_cons. f_equal. exact H1.
    + simpl. now rewrite Hne, H2.
    + simpl. now rewrite H3.
Qed.

Lemma indexOf_none (c : N) (s : jsstring) :
  indexOf c s = None -> noneIs c s = true.
Proof.
  induction s as [|d s IH]; simpl; [reflexivity|].
  destruct (d =? c); [discriminate|].
  destruct (indexOf c s); [discriminate|]. intros _. now rewrite IH.
Qed.

Lemma firstn_length_app (pre post : jsstring) :
  firstn (List.length pre) (pre ++ post) = pre.
Proof.
  induction pre as [|d pre IH]; simpl; [now destruct post|now rewrite IH].
Qed.

Lemma skipn_length_app (pre post : jsstring) :
  skipn (List.length pre) (pre ++ post) = post.
Proof.
  induction pre as [|d pre IH]; simpl; [reflexivity|exact IH].
Qed.

Lemma filter_filter (A : Type) (p q : A -> bool) (l : list A) :
  filter q (filter p l) = filter (fun x => p x && q x) l.
Proof.
  induction l as [|x l IH]; simpl; [reflexivity|].
  destruct (p x); simpl; [destruct (q x)|]; now rewrite IH.
Qed.

Lemma dropWhile_split (p : N -> bool) (s : jsstring) :
  exists a, s = a ++ dropWhile p s /\ forallb p a = true.
Proof.
  induction s as [|c s (a & Ha & Hp)]; simpl.
  - now exists [].
  - destruct (p c) eqn:Hc.
    + exists (c :: a). simpl. rewrite Hc, Hp. split; [now f_equal|reflexivity].
    + now exists [].
Qed.

(** [trim] removes a white space prefix and a white space suffix. *)
Lemma trim_split (s : jsstring) :
  exists a b,
    s = a ++ trim s ++ b /\ forallb isWs a = true /\ forallb isWs b = true.
Proof.
  unfold trim.
  destruct (dropWhile_split isWs s) as (a & Ha & Hpa).
  destruct (dropWhile_split isWs (rev (dropWhile isWs s))) as (b & Hb & Hpb).
  exists a, (rev b). split; [|split; [exact Hpa|]].
  - rewrite <- rev_app_distr, <- Hb, rev_involutive. exact Ha.
  - rewrite forallb_forall in *. intros x Hx. apply Hpb.
    now apply in_rev.
Qed.

End JsFacts.
Import JsFacts.

(* ===================================================================== *)
(** ** Properties of the parser *)
(* ===================================================================== *)

Module ParserFacts.

Example extinf_news :
  parseExtinf (lit "#EXTINF:-1 group-title=" ++ [dquote] ++ lit "News" ++ [dquote]
               ++ lit ",Channel, The Show")
  = mkMetadata (lit "The Show") (lit "News").
Proof. vm_compute. reflexivity. Qed.

Lemma matchExtinf_content (content : jsstring) :
  truthy content = true -> noLineTerminator content = true ->
  matchExtinf (lit "#EXTINF:" ++ content) = Some content.
Proof.
  intros Ht Hl. unfold matchExtinf.
  rewrite startsWith_app.
  change (skipn 8 (lit "#EXTINF:" ++ content)) with content.
  unfold noLineTerminator in Hl. now rewrite Ht, Hl.
Qed.

(** What [parseExtinf] computes on a line with a comma. *)
Lemma parseExtinf_comma (pre post : jsstring) :
  noLineTerminator (pre ++ comma :: post) = true ->
  noneIs comma post = true ->
  parseExtinf (lit "#EXTINF:" ++ pre ++ comma :: post)
  = mkMetadata (trim post)
      (match matchGroupTitle (trim pre) with Some g => g | None => [] end).
Proof.
  intros Hl Hc. unfold parseExtinf.
  rewrite matchExtinf_content; [|now destruct pre|exact Hl].
  rewrite (lastIndexOf_last _ _ _ Hc).
  unfold substringTo, substringFrom.
  rewrite firstn_length_app.
  change (S (List.length pre)) with (1 + List.length pre)%nat.
  rewrite <- skipn_skipn, skipn_length_app. reflexivity.
Qed.

(** What [parseExtinf] computes on a line without a comma. *)
Lemma parseExtinf_no_comma (content : jsstring) :
  truthy content = true -> noLineTerminator content = true ->
  noneIs comma content = true ->
  parseExtinf (lit "#EXTINF:" ++ content) = mkMetadata content [].
Proof.
  intros Ht Hl Hc. unfold parseExtinf.
  rewrite (matchExtinf_content _ Ht Hl).
  now rewrite (lastIndexOf_none _ _ Hc).
Qed.

(** An [#EXTINF] line only replaces the pending metadata. *)
Lemma parseLine_extinf (v : jsstring -> bool) (st : ParseState) (line : jsstring) :
  startsWith (lit "#EXTINF:") line = true ->
  parseLine v st line = (fst st, Some (parseExtinf line)).
Proof.
  intros H. destruct st as [es cur]. unfold parseLine. now rewrite H.
Qed.

Lemma parseLine_urls (v : jsstring -> bool) (st : ParseState) (line : jsstring) :
  map url (fst (parseLine v st line))
  = map url (fst st) ++ (if urlish v line then [line] else []).
Proof.
  destruct st as [es cur]. unfold parseLine, urlish.
  destruct (startsWith (lit "#EXTINF:") line) eqn:E.
  - rewrite (startsWith_extinf_hash _ E). simpl. now rewrite app_nil_r.
  - destruct (negb (startsWith (lit "#") line) && v line); simpl.
    + now rewrite map_app.
    + now rewrite app_nil_r.
Qed.

Lemma fold_parseLine_urls (v : jsstring -> bool) (lines : list jsstring) :
  forall st,
    map url (fst (fold_left (parseLine v) lines st))
    = map url (fst st) ++ filter (urlish v) lines.
Proof.
  induction lines as [|l lines IH]; intros st; simpl.
  - now rewrite app_nil_r.
  - rewrite IH, parseLine_urls, <- app_assoc.
    now destruct (urlish v l).
Qed.

Lemma parseContent_urls (v : jsstring -> bool) (content : jsstring) :
  map url (parseContent v content) = urlLines v content.
Proof.
  unfold parseContent, parseLines, urlLines, linesOf.
  rewrite fold_parseLine_urls. simpl. rewrite filter_filter.
  apply filter_ext. intros l. unfold isUrlLine, urlish.
  now rewrite andb_assoc.
Qed.

Lemma spanNotQuote_split (s : jsstring) :
  s = fst (spanNotQuote s) ++ snd (spanNotQuote s)
  /\ noneIs dquote (fst (spanNotQuote s)) = true
  /\ startsWith (firstn 1 (snd (spanNotQuote s))) [dquote] = true.
Proof.
  induction s as [|c s (IH1 & IH2 & IH3)]; simpl; [auto|].
  destruct (c =? dquote) eqn:Hc; simpl.
  - rewrite Hc. auto.
  - destruct (spanNotQuote s) as [run rest]. simpl in *.
    rewrite Hc, IH2. simpl. split; [now f_equal|auto].
Qed.

Lemma spanNotQuote_run (g b : jsstring) :
  noneIs dquote g = true ->
  spanNotQuote (g ++ dquote :: b) = (g, dquote :: b).
Proof.
  induction g as [|c g IH]; simpl; intros H; [reflexivity|].
  apply andb_true_iff in H. destruct H as [Hc Hg].
  apply negb_true_iff in Hc. now rewrite Hc, (IH Hg).
Qed.

(** A match of the pattern at the head exhibits the attribute. *)
Lemma groupTitleAt_sound (s g : jsstring) :
  groupTitleAt s = Some g ->
  exists b, s = groupTitleKey ++ g ++ dquote :: b
            /\ g <> [] /\ noneIs dquote g = true.
Proof.
  unfold groupTitleAt. fold groupTitleKey.
  destruct (startsWith groupTitleKey s) eqn:Hk; [|discriminate].
  apply startsWith_split in Hk. change (List.length groupTitleKey) with 13%nat in Hk.
  destruct (spanNotQuote_split (skipn 13 s)) as (Hs & Hn & Hq).
  destruct (spanNotQuote (skipn 13 s)) as [[|c run] [|q rest]];
    try discriminate.
  intros H. injection H as <-. simpl in Hs, Hn, Hq.
  rewrite andb_true_r in Hq. apply N.eqb_eq in Hq. subst q.
  exists rest. split; [|split; [discriminate|exact Hn]].
  rewrite Hk at 1. f_equal. exact Hs.
Qed.

Lemma groupTitleAt_complete (g b : jsstring) :
  g <> [] -> noneIs dquote g = true ->
  groupTitleAt (groupTitleKey ++ g ++ dquote :: b) = Some g.
Proof.
  intros Hne Hn. unfold groupTitleAt. fold groupTitleKey.
  rewrite startsWith_app.
  change (skipn 13 (groupTitleKey ++ g ++ dquote :: b)) with (g ++ dquote :: b).
  rewrite (spanNotQuote_run _ _ Hn). now destruct g.
Qed.

(** The group title found is a well-formed attribute of the string. *)
Lemma matchGroupTitle_sound (s g : jsstring) :
  matchGroupTitle s = Some g ->
  exists a b, s = a ++ groupTitleKey ++ g ++ dquote :: b
              /\ g <> [] /\ noneIs dquote g = true.
Proof.
  induction s as [|c s IH].
  - discriminate.
  - cbn [matchGroupTitle]. destruct (groupTitleAt (c :: s)) eqn:E.
    + intros H. injection H as ->.
      destruct (groupTitleAt_sound _ _ E) as (b & Hs & Hg).
      exists [], b. auto.
    + intros H. destruct (IH H) as (a & b & Hs & Hg).
      exists (c :: a), b. simpl. split; [now f_equal|exact Hg].
Qed.

(** No group title is found only when the string has no well-formed
    attribute. *)
Lemma matchGroupTitle_complete (a g b : jsstring) :
  g <> [] -> noneIs dquote g = true ->
  matchGroupTitle (a ++ groupTitleKey ++ g ++ dquote :: b) <> None.
Proof.
  intros Hne Hn. induction a as [|c a IH].
  - change (matchGroupTitle (groupTitleKey ++ g ++ dquote :: b) <> None).
    pose proof (groupTitleAt_complete g b Hne Hn) as H.
    destruct (groupTitleKey ++ g ++ dquote :: b) as [|x t].
    + discriminate H.
    + cbn [matchGroupTitle]. rewrite H. discriminate.
  - cbn [app matchGroupTitle]. destruct (groupTitleAt (c :: a ++ groupTitleKey ++ g ++ dquote :: b));
      [discriminate|exact IH].
Qed.

(** C4, as the code has it: on an [#EXTINF] line whose content has a comma
    (and, as the pattern of the line requires, no line terminator), the
    parser splits at the last comma: the pending title is what follows it,
    trimmed, and the pending group title is the [group-title] attribute
    found in what precedes it, trimmed, or the empty string.  The line of
    the spec yields the title [The Show] and the group [News], on the line
    itself and on the entry of the URL line that follows. *)
Theorem parseLine_splits_at_last_comma
    (v : jsstring -> bool) (st : ParseState) (pre post : jsstring) :
  noLineTerminator (pre ++ comma :: post) = true ->
  noneIs comma post = true ->
  v newsUrl = true ->
  parseLine v st (lit "#EXTINF:" ++ pre ++ comma :: post)
  = (fst st,
     Some (mkMetadata (trim post)
             (match matchGroupTitle (trim pre) with
              | Some g => g
              | None => []
              end)))
  /\ parseLine v st extinfNews
     = (fst st, Some (mkMetadata (lit "The Show") (lit "News")))
  /\ parseContent v (extinfNews ++ [LF] ++ newsUrl)
     = [mkEntry newsUrl (lit "The Show") (lit "News")].
Proof.
  intros Hl Hc Hv. split; [|split].
  - rewrite parseLine_extinf by apply startsWith_app.
    now rewrite (parseExtinf_comma _ _ Hl Hc).
  - now rewrite parseLine_extinf.
  - unfold parseContent, parseLines.
    change (linesOf (extinfNews ++ [LF] ++ newsUrl)) with [extinfNews; newsUrl].
    cbn [fold_left]. rewrite (parseLine_extinf v ([], None) extinfNews eq_refl).
    unfold parseLine. change (startsWith (lit "#EXTINF:") newsUrl) with false.
    change (startsWith (lit "#") newsUrl) with false. rewrite Hv.
    reflexivity.
Qed.

Lemma parseLine_splits_at_last_comma_witness :
  noLineTerminator (sportsPre ++ comma :: lit " Day 3") = true
  /\ noneIs comma (lit " Day 3") = true
  /\ sampleValidUrl newsUrl = true
  /\ parseLine sampleValidUrl ([], None)
       (lit "#EXTINF:" ++ sportsPre ++ comma :: lit " Day 3")
     = ([], Some (mkMetadata (lit "Day 3") (lit "Sports"))).
Proof.
  split; [reflexivity|]. split; [reflexivity|]. split; [reflexivity|].
  exact (proj1 (parseLine_splits_at_last_comma sampleValidUrl ([], None)
                  sportsPre (lit " Day 3") eq_refl eq_refl eq_refl)).
Defined.

(** The example of C4 as the spec states it fails: the title of the entry
    is [The Show], not [Channel, The Show]. *)
Lemma extinfNews_title_is_not_channel_the_show :
  parseContent sampleValidUrl (extinfNews ++ [LF] ++ newsUrl)
  = [mkEntry newsUrl (lit "The Show") (lit "News")]
  /\ lastIndexOf comma (skipn 8 extinfNews) = Some 29%nat
  /\ md_title (parseExtinf extinfNews) <> lit "Channel, The Show".
Proof.
  split; [reflexivity|]. split; [reflexivity|]. discriminate.
Qed.

(** C8: the URLs of the entries are, in order, the URL-bearing lines of the
    text (the trimmed, non-empty lines that are no comment and pass the URL
    check): entry [i] carries the [i]-th such line, and there are no more
    entries than such lines; metadata lines add none. *)
Theorem parseContent_order_preserving (v : jsstring -> bool) (content : jsstring) :
  map url (parseContent v content) = urlLines v content
  /\ (forall i e,
        nth_error (parseContent v content) i = Some e ->
        nth_error (urlLines v content) i = Some (url e))
  /\ (List.length (parseContent v content) <= List.length (urlLines v content))%nat.
Proof.
  pose proof (parseContent_urls v content) as H. split; [exact H|]. split.
  - intros i e He. rewrite <- H. now apply map_nth_error.
  - rewrite <- H, length_map. apply le_n.
Qed.

(** C10, as the code has it: on an [#EXTINF] line whose content is not
    empty, has no comma and (as the pattern of the line requires) no line
    terminator, the pending title is the whole content and the pending
    group title is empty, whatever attributes the content holds. *)
Theorem parseLine_extinf_without_comma
    (v : jsstring -> bool) (st : ParseState) (content : jsstring) :
  truthy content = true ->
  noLineTerminator content = true ->
  noneIs comma content = true ->
  parseLine v st (lit "#EXTINF:" ++ content)
  = (fst st, Some (mkMetadata content [])).
Proof.
  intros Ht Hl Hc. rewrite parseLine_extinf by apply startsWith_app.
  now rewrite (parseExtinf_no_comma _ Ht Hl Hc).
Qed.

Lemma parseLine_extinf_without_comma_witness :
  truthy newsNoComma = true
  /\ noLineTerminator newsNoComma = true
  /\ noneIs comma newsNoComma = true
  /\ matchGroupTitle newsNoComma = Some (lit "News")
  /\ parseLine sampleValidUrl ([], None) (lit "#EXTINF:" ++ newsNoComma)
     = ([], Some (mkMetadata newsNoComma [])).
Proof.
  split; [reflexivity|]. split; [reflexivity|]. split; [reflexivity|].
  split; [reflexivity|].
  exact (parseLine_extinf_without_comma sampleValidUrl ([], None) newsNoComma
           eq_refl eq_refl eq_refl).
Defined.

(** C10 as stated fails on the line [#EXTINF:]: its content is empty and
    has no comma, and the pending title is [Unknown], not that content. *)
Lemma extinf_empty_content_title_is_unknown :
  noneIs comma [] = true
  /\ parseLine sampleValidUrl ([], None) (lit "#EXTINF:" ++ [])
     = ([], Some (mkMetadata (lit "Unknown") []))
  /\ parseLine sampleValidUrl ([], None) (lit "#EXTINF:" ++ [])
     <> ([], Some (mkMetadata [] [])).
Proof.
  split; [reflexivity|]. split; [reflexivity|]. discriminate.
Qed.

End ParserFacts.
Import ParserFacts.

(* ===================================================================== *)
(** ** Properties of the prober *)
(* ===================================================================== *)

Module TraceFacts.

Lemma requestsOf_app (a b : list Event) :
  requestsOf (a ++ b) = requestsOf a ++ requestsOf b.
Proof.
  induction a as [|ev a IH]; simpl; [reflexivity|].
  destruct ev; simpl; now rewrite IH.
Qed.

Lemma countMethod_app (m : Method) (a b : list Event) :
  countMethod m (a ++ b) = (countMethod m a + countMethod m b)%nat.
Proof.
  unfold countMethod. now rewrite requestsOf_app, filter_app, length_app.
Qed.

Lemma responsesOf_app (a b : list Event) :
  responsesOf (a ++ b) = responsesOf a ++ responsesOf b.
Proof.
  induction a as [|ev a IH]; simpl; [reflexivity|].
  destruct ev as [r|o|ms|l]; simpl; try exact IH.
  destruct o; simpl; now rewrite IH.
Qed.

Lemma logsOf_app (a b : list Event) :
  logsOf (a ++ b) = logsOf a ++ logsOf b.
Proof.
  induction a as [|ev a IH]; simpl; [reflexivity|].
  destruct ev; simpl; now rewrite IH.
Qed.

Lemma lastSettled_app (a b : list Event) :
  lastSettled (a ++ b)
  = match lastSettled b with Some o => Some o | None => lastSettled a end.
Proof.
  induction a as [|ev a IH]; simpl.
  - now destruct (lastSettled b).
  - rewrite IH. now destruct (lastSettled b).
Qed.



Lemma finalStatus_app_some (a b : list Event) (s : N) :
  finalStatus b = Some s -> finalStatus (a ++ b) = Some s.
Proof.
  unfold finalStatus. rewrite lastSettled_app.
  destruct (lastSettled b) as [o|]; [auto|discriminate].
Qed.

Lemma finalStatus_app_none (a b : list Event) :
  finalStatus a = None -> finalStatus b = None -> finalStatus (a ++ b) = None.
Proof.
  unfold finalStatus. rewrite lastSettled_app.
  destruct (lastSettled b) as [o|]; auto.
Qed.

Lemma finalStatus_sleep (a : list Event) (ms : N) :
  finalStatus (a ++ [EvSleep ms]) = finalStatus a.
Proof. unfold finalStatus. now rewrite lastSettled_app. Qed.

End TraceFacts.
Import TraceFacts.

Module ProberFacts.

Lemma resultOfStatus_isAlive (s : N) : isAlive (resultOfStatus s) = (s <? 400).
Proof. unfold resultOfStatus. now destruct (s <? 400). Qed.

Lemma resultOfStatus_statusCode (s : N) : statusCode (resultOfStatus s) = s.
Proof. unfold resultOfStatus. now destruct (s <? 400). Qed.

Section WithPlatform.

Variable isValidUrl : jsstring -> bool.
Variable requestError : jsstring -> option JsError.
Variable net : nat -> Request -> Outcome.

Local Abbreviation makeRequest :=
  (Checker.makeRequest isValidUrl requestError net).
Local Abbreviation makeGetRequest :=
  (Checker.makeGetRequest isValidUrl requestError net).
Local Abbreviation checkUrlFrom :=
  (Checker.checkUrlFrom isValidUrl requestError net).
Local Abbreviation checkUrl := (Checker.checkUrl isValidUrl requestError net).
Local Abbreviation sendable := (Spec.sendable isValidUrl requestError).

(** One iteration of the loop of [checkUrl], by the completion of its
    attempt. *)
Lemma checkUrlFrom_step (fuel : nat) (attempt : N) (url : jsstring) (w : World) :
  checkUrlFrom (S fuel) attempt url w
  = match makeRequest url w with
    | (Normal s, w') => (Normal (Some (resultOfStatus s)), w')
    | (Throw e, w') =>
        if attempt =? MAX_RETRIES - 1
        then (Normal (Some (mkProbeResult false (err_message e) 0)), w')
        else checkUrlFrom fuel (attempt + 1) url
               (mkWorld (issued w')
                  (trace w' ++ [EvSleep (DELAY_BETWEEN_REQUESTS * (attempt + 1))]))
    end.
Proof.
  cbn [Checker.checkUrlFrom]. unfold tryCatch, bind, resultOfStatus.
  destruct (makeRequest url w) as [[s|e] w'].
  - now destruct (s <? 400).
  - now destruct (attempt =? MAX_RETRIES - 1).
Qed.

Lemma makeGetRequest_run (url : jsstring) (w : World) :
  isValidUrl url = true ->
  requestError url = None ->
  makeGetRequest url w
  = (match net (issued w) (getOptions url) with
     | Response s => Normal s
     | TimedOut => Throw (newError timeoutMessage)
     | Failed e => Throw e
     end,
     mkWorld (S (issued w))
       (trace w ++ [EvRequest (getOptions url);
                    EvSettled (net (issued w) (getOptions url))])).
Proof.
  intros Hv Hq. unfold Checker.makeGetRequest, bind, request. rewrite Hv.
  change (req_url (getOptions url)) with url. rewrite Hq.
  now destruct (net (issued w) (getOptions url)).
Qed.

Lemma makeRequest_invalid (url : jsstring) (w : World) :
  isValidUrl url = false -> makeRequest url w = (Throw invalidUrlError, w).
Proof.
  intros Hv. unfold Checker.makeRequest. now rewrite Hv.
Qed.

(** When [lib.request] refuses the options the attempt rejects with the
    error thrown, and nothing is requested. *)
Lemma makeRequest_refused (url : jsstring) (w : World) (e : JsError) :
  isValidUrl url = true -> requestError url = Some e ->
  makeRequest url w = (Throw e, w).
Proof.
  intros Hv Hq. unfold Checker.makeRequest, bind, request. rewrite Hv.
  change (req_url (headOptions url)) with url. now rewrite Hq.
Qed.

(** The attempt whose options [lib.request] accepts, by what the HEAD
    request comes to. *)
Lemma makeRequest_accepted (url : jsstring) (w : World) :
  isValidUrl url = true -> requestError url = None ->
  makeRequest url w
  = (let w1 := mkWorld (S (issued w))
                 (trace w ++ [EvRequest (headOptions url);
                              EvSettled (net (issued w) (headOptions url))]) in
     match net (issued w) (headOptions url) with
     | Response statusCode =>
         if statusCode =? 405 then makeGetRequest url w1
         else (Normal statusCode, w1)
     | TimedOut => (Throw (newError timeoutMessage), w1)
     | Failed error =>
         if codeIs error (lit "ECONNREFUSED") then
           (Throw (newError (lit "Connection refused")), w1)
         else if codeIs error (lit "ENOTFOUND") then
           (Throw (newError (lit "Host not found")), w1)
         else if codeIs error (lit "ETIMEDOUT") then
           (Throw (newError (lit "Connection timeout")), w1)
         else
           (Throw (newError (lit "Connection error: " ++ err_message error)), w1)
     end).
Proof.
  intros Hv Hq. unfold Checker.makeRequest, bind, request. rewrite Hv.
  change (req_url (headOptions url)) with url. rewrite Hq. cbv zeta.
  destruct (net (issued w) (headOptions url)) as [s| |e];
    [destruct (s =? 405); reflexivity|reflexivity|].
  destruct (codeIs e (lit "ECONNREFUSED")); [reflexivity|].
  destruct (codeIs e (lit "ENOTFOUND")); [reflexivity|].
  destruct (codeIs e (lit "ETIMEDOUT")); reflexivity.
Qed.

Lemma makeRequest_trace (url : jsstring) (w : World) :
  exists c w' evs,
    makeRequest url w = (c, w') /\ trace w' = trace w ++ evs
    /\ AttemptTrace (sendable url) c evs.
Proof.
  unfold Spec.sendable. destruct (isValidUrl url) eqn:Hv.
  2:{ exists (Throw invalidUrlError), w, [].
      rewrite (makeRequest_invalid _ _ Hv), app_nil_r.
      repeat split; simpl; auto. }
  destruct (requestError url) as [e0|] eqn:Hq.
  { exists (Throw e0), w, [].
    rewrite (makeRequest_refused _ _ _ Hv Hq), app_nil_r.
    repeat split; simpl; auto. }
  rewrite (makeRequest_accepted _ _ Hv Hq). cbv zeta. cbn [andb].
  destruct (net (issued w) (headOptions url)) as [s| |e] eqn:Hh.
  - destruct (s =? 405) eqn:H405.
    + rewrite (makeGetRequest_run _ _ Hv Hq). cbn [issued trace].
      do 2 eexists. eexists. split; [reflexivity|]. cbn [trace].
      rewrite <- app_assoc. split; [reflexivity|].
      destruct (net (S (issued w)) (getOptions url)); split; simpl; auto.
    + do 2 eexists. eexists. split; [reflexivity|]. cbn [trace].
      split; [reflexivity|]. split; simpl; auto.
  - do 2 eexists. eexists. split; [reflexivity|]. cbn [trace].
    split; [reflexivity|]. split; simpl; auto.
  - destruct (codeIs e (lit "ECONNREFUSED"));
      [|destruct (codeIs e (lit "ENOTFOUND"));
        [|destruct (codeIs e (lit "ETIMEDOUT"))]];
      (do 2 eexists; eexists; split; [reflexivity|]; cbn [trace];
       split; [reflexivity|]; split; simpl; auto).
Qed.

Lemma checkUrl_run (url : jsstring) (w : World) :
  exists r w' evs,
    checkUrl url w = (Normal (Some r), w') /\ trace w' = trace w ++ evs
    /\ ProbeTrace (sendable url) r evs.
Proof.
  unfold Checker.checkUrl. change (N.to_nat MAX_RETRIES) with 2%nat.
  rewrite checkUrlFrom_step.
  destruct (makeRequest_trace url w) as (c1 & w1 & evs1 & -> & Ht1 & [Hh1 Hg1 Hs1]).
  destruct c1 as [s1|e1].
  - exists (resultOfStatus s1), w1, evs1. split; [reflexivity|].
    split; [exact Ht1|]. split.
    + rewrite Hh1. destruct (sendable url); lia.
    + lia.
    + intros s Hs. rewrite Hs1 in Hs. now injection Hs as ->.
    + rewrite Hs1. discriminate.
  - change (0 =? MAX_RETRIES - 1) with false. cbv iota.
    rewrite checkUrlFrom_step.
    set (w1s := mkWorld (issued w1) _).
    destruct (makeRequest_trace url w1s) as (c2 & w2 & evs2 & -> & Ht2 & [Hh2 Hg2 Hs2]).
    assert (Htr : trace w2
                  = trace w ++ (evs1 ++ [EvSleep (DELAY_BETWEEN_REQUESTS * (0 + 1))]) ++ evs2).
    { rewrite Ht2. unfold w1s. cbn [trace]. rewrite Ht1.
      now rewrite <- !app_assoc. }
    assert (Hhd : countMethod HEAD
                    ((evs1 ++ [EvSleep (DELAY_BETWEEN_REQUESTS * (0 + 1))]) ++ evs2)
                  = if sendable url then 2%nat else 0%nat).
    { rewrite !countMethod_app, Hh1, Hh2. now destruct (sendable url). }
    assert (Hgt : (countMethod GET
                    ((evs1 ++ [EvSleep (DELAY_BETWEEN_REQUESTS * (0 + 1))]) ++ evs2)
                   <= 2)%nat).
    { rewrite !countMethod_app.
      change (countMethod GET [EvSleep (DELAY_BETWEEN_REQUESTS * (0 + 1))]) with 0%nat.
      lia. }
    destruct c2 as [s2|e2].
    + exists (resultOfStatus s2), w2. eexists. split; [reflexivity|].
      split; [exact Htr|]. split.
      * rewrite Hhd. destruct (sendable url); lia.
      * exact Hgt.
      * intros s Hs. rewrite (finalStatus_app_some _ _ _ Hs2) in Hs.
        now injection Hs as ->.
      * rewrite (finalStatus_app_some _ _ _ Hs2). discriminate.
    + change (0 + 1 =? MAX_RETRIES - 1) with true. cbv iota.
      exists (mkProbeResult false (err_message e2) 0), w2. eexists.
      split; [reflexivity|]. split; [exact Htr|]. split.
      * rewrite Hhd. destruct (sendable url); lia.
      * exact Hgt.
      * intros s Hs. rewrite finalStatus_app_none in Hs; [discriminate| |exact Hs2].
        now rewrite finalStatus_sleep.
      * intros _. simpl. auto.
Qed.

(** A transport failure of the HEAD request is classified. *)
Lemma makeRequest_head_failure_classified (url : jsstring) (w : World) :
  isValidUrl url = true ->
  requestError url = None ->
  (forall s, net (issued w) (headOptions url) <> Response s) ->
  exists e w',
    makeRequest url w = (Throw e, w') /\ classified (err_message e) = true.
Proof.
  intros Hv Hq Hn. rewrite (makeRequest_accepted _ _ Hv Hq). cbv zeta.
  destruct (net (issued w) (headOptions url)) as [s| |e].
  - now elim (Hn s).
  - do 2 eexists. split; reflexivity.
  - destruct (codeIs e (lit "ECONNREFUSED"));
      [|destruct (codeIs e (lit "ENOTFOUND"));
        [|destruct (codeIs e (lit "ETIMEDOUT"))]];
      do 2 eexists; (split; reflexivity).
Qed.


(** C2: whatever the network answers, a probe makes at most
    [MAX_RETRIES] = 2 attempts.  An attempt is a call of [makeRequest], which
    issues at most one HEAD request; with the GET fallback of an attempt a
    probe issues at most four requests. *)
Theorem checkUrl_at_most_MAX_RETRIES_attempts (url : jsstring) (w : World) :
  exists c w' evs,
    checkUrl url w = (c, w') /\ trace w' = trace w ++ evs
    /\ (countMethod HEAD evs <= N.to_nat MAX_RETRIES)%nat
    /\ MAX_RETRIES = 2
    /\ (List.length (requestsOf evs) <= 4)%nat.
Proof.
  destruct (checkUrl_run url w) as (r & w' & evs & Hrun & Htr & [Hh Hg Hs Hf]).
  exists (Normal (Some r)), w', evs.
  split; [exact Hrun|]. split; [exact Htr|]. split; [exact Hh|].
  split; [reflexivity|].
  assert (Hsum : forall l : list Request,
             List.length l
             = (List.length (filter (fun r => methodEqb (req_method r) HEAD) l)
                + List.length (filter (fun r => methodEqb (req_method r) GET) l))%nat).
  { induction l as [|q l IH]; simpl; [reflexivity|].
    destruct (req_method q); simpl; lia. }
  rewrite (Hsum (requestsOf evs)). unfold countMethod in Hh, Hg.
  change (N.to_nat MAX_RETRIES) with 2%nat in Hh. lia.
Qed.

(** C3: when the HEAD request of an attempt (of a URL whose options
    [lib.request] accepts) is answered with 405, the attempt issues exactly one further request, a GET with the header
    [Range: bytes=0-1024] for the same URL, and completes as that request
    does: it resolves with the status code of the GET response, whatever it
    is, and rejects when the GET request fails. *)
Theorem makeRequest_405_falls_back_to_get (url : jsstring) (w : World) :
  isValidUrl url = true ->
  requestError url = None ->
  net (issued w) (headOptions url) = Response 405 ->
  exists c w',
    makeRequest url w = (c, w')
    /\ trace w'
       = trace w ++ [EvRequest (headOptions url); EvSettled (Response 405);
                     EvRequest (getOptions url);
                     EvSettled (net (S (issued w)) (getOptions url))]
    /\ req_method (getOptions url) = GET
    /\ req_url (getOptions url) = url
    /\ In (lit "Range", lit "bytes=0-1024") (req_headers (getOptions url))
    /\ (forall s, net (S (issued w)) (getOptions url) = Response s ->
        c = Normal s)
    /\ (forall s, c = Normal s ->
        net (S (issued w)) (getOptions url) = Response s).
Proof.
  intros Hv Hq H405. rewrite (makeRequest_accepted _ _ Hv Hq). cbv zeta.
  rewrite H405. change (405 =? 405) with true. cbv iota.
  rewrite (makeGetRequest_run _ _ Hv Hq). cbn [issued trace].
  do 2 eexists. split; [reflexivity|]. cbn [trace]. rewrite <- app_assoc.
  split; [reflexivity|]. split; [reflexivity|]. split; [reflexivity|].
  split; [simpl; auto|].
  destruct (net (S (issued w)) (getOptions url)) as [s'| |e]; split;
    intros s H; try discriminate; congruence.
Qed.

End WithPlatform.

Lemma makeRequest_405_falls_back_to_get_witness :
  sampleValidUrl newsUrl = true
  /\ sampleRequestError newsUrl = None
  /\ net405Then200 (issued emptyWorld) (headOptions newsUrl) = Response 405
  /\ exists c w',
       makeRequest sampleValidUrl sampleRequestError net405Then200 newsUrl
         emptyWorld = (c, w')
       /\ trace w'
          = trace emptyWorld
            ++ [EvRequest (headOptions newsUrl); EvSettled (Response 405);
                EvRequest (getOptions newsUrl);
                EvSettled (net405Then200 (S (issued emptyWorld))
                             (getOptions newsUrl))]
       /\ req_method (getOptions newsUrl) = GET
       /\ req_url (getOptions newsUrl) = newsUrl
       /\ In (lit "Range", lit "bytes=0-1024") (req_headers (getOptions newsUrl))
       /\ (forall s,
             net405Then200 (S (issued emptyWorld)) (getOptions newsUrl)
             = Response s ->
             c = Normal s)
       /\ (forall s,
             c = Normal s ->
             net405Then200 (S (issued emptyWorld)) (getOptions newsUrl)
             = Response s).
Proof.
  split; [reflexivity|]. split; [reflexivity|]. split; [reflexivity|].
  exact (makeRequest_405_falls_back_to_get sampleValidUrl sampleRequestError
           net405Then200 newsUrl emptyWorld eq_refl eq_refl eq_refl).
Defined.

Example makeRequest_405_then_200 :
  fst (makeRequest sampleValidUrl sampleRequestError net405Then200 newsUrl
         emptyWorld) = Normal 200.
Proof. reflexivity. Qed.

(** C6 on the fallback path: a connection refused to the GET request of
    the last attempt reaches the result with the raw message of the error,
    which is none of the classified messages, while the same error on the
    HEAD request gives [Connection refused]. *)
Theorem checkUrl_get_failure_is_not_classified :
  fst (checkUrl sampleValidUrl sampleRequestError netFallbackRefused newsUrl
         emptyWorld)
  = Normal (Some (mkProbeResult false
                    (lit "connect ECONNREFUSED 127.0.0.1:80") 0))
  /\ responsesOf
       (trace (snd (checkUrl sampleValidUrl sampleRequestError
                      netFallbackRefused newsUrl emptyWorld)))
     = [405; 405]
  /\ classified (lit "connect ECONNREFUSED 127.0.0.1:80") = false
  /\ fst (checkUrl sampleValidUrl sampleRequestError netRefused newsUrl
            emptyWorld)
     = Normal (Some (mkProbeResult false (lit "Connection refused") 0))
  /\ classified (lit "Connection refused") = true.
Proof.
  split; [|split; [|split; [|split]]].
  - vm_compute. reflexivity.
  - vm_compute. reflexivity.
  - reflexivity.
  - vm_compute. reflexivity.
  - reflexivity.
Qed.

End ProberFacts.
Import ProberFacts.

(* ===================================================================== *)
(** ** Properties of the checker *)
(* ===================================================================== *)

Module CheckerFacts.

Lemma returns_ret {A : Type} (P : A -> Prop) (a : A) : P a -> returns P (ret a).
Proof. intros H w. now exists a, w. Qed.

Lemma returns_bind {A B : Type} (P : A -> Prop) (Q : B -> Prop)
    (c : M A) (k : A -> M B) :
  returns P c -> (forall a, P a -> returns Q (k a)) -> returns Q (bind c k).
Proof.
  intros Hc Hk w. destruct (Hc w) as (a & w1 & E & Ha).
  destruct (Hk a Ha w1) as (b & w2 & E2 & Hb).
  exists b, w2. unfold bind. now rewrite E.
Qed.

Lemma returns_weaken {A : Type} (P Q : A -> Prop) (c : M A) :
  (forall a, P a -> Q a) -> returns P c -> returns Q c.
Proof.
  intros H Hc w. destruct (Hc w) as (a & w' & E & Ha). exists a, w'. auto.
Qed.

Lemma bind_ret {A B : Type} (a : A) (k : A -> M B) (w : World) :
  bind (ret a) k w = k a w.
Proof. reflexivity. Qed.

Lemma bind_log {B : Type} (l : LogLine) (k : unit -> M B) (w : World) :
  bind (log l) k w = k tt (mkWorld (issued w) (trace w ++ [EvLog l])).
Proof. reflexivity. Qed.

Lemma returns_log (l : LogLine) : returns (fun _ => True) (log l).
Proof. intros w. now do 2 eexists. Qed.

Lemma returns_sleep (ms : N) : returns (fun _ => True) (sleep ms).
Proof. intros w. now do 2 eexists. Qed.

Lemma returns_when (b : bool) (k : M unit) :
  returns (fun _ => True) k -> returns (fun _ => True) (when b k).
Proof. intros H. destruct b; [exact H|now apply returns_ret]. Qed.

Ltac returns_step :=
  first [ apply returns_log | apply returns_sleep | apply returns_when
        | apply returns_ret; exact I
        | eapply returns_bind; [|intros ? _] ].

Section WithPlatform.

Variable isValidUrl : jsstring -> bool.
Variable requestError : jsstring -> option JsError.
Variable net : nat -> Request -> Outcome.
Variable fs : jsstring -> FileState.

Local Abbreviation checkUrl := (Checker.checkUrl isValidUrl requestError net).
Local Abbreviation checkEntries :=
  (Checker.checkEntries isValidUrl requestError net).
Local Abbreviation runCheckBody :=
  (Checker.runCheckBody isValidUrl requestError net fs).
Local Abbreviation runCheck := (Checker.runCheck isValidUrl requestError net fs).
Local Abbreviation parseM3U := (Checker.parseM3U isValidUrl fs).

Lemma checkUrl_returns (url : jsstring) :
  returns (fun r => r <> None) (checkUrl url).
Proof.
  intros w.
  destruct (checkUrl_run isValidUrl requestError net url w)
    as (r & w' & _ & E & _).
  exists (Some r), w'. split; [exact E|discriminate].
Qed.

Lemma logDeadLink_returns (entry : Entry) (error : jsstring) (statusCode : N) :
  returns (fun _ => True) (logDeadLink entry error statusCode).
Proof. unfold logDeadLink. repeat returns_step. Qed.

Lemma logSummary_returns (deadStreams : list DeadStream) :
  forall index, returns (fun _ => True) (logSummary index deadStreams).
Proof.
  induction deadStreams as [|d rest IH]; intros index; cbn [logSummary].
  - now apply returns_ret.
  - repeat returns_step. apply IH.
Qed.

(** The loop over the entries never throws. *)
Lemma checkEntries_returns (rest : list Entry) :
  forall total i deadStreams aliveCount,
    returns (fun _ => True) (checkEntries total i rest deadStreams aliveCount).
Proof.
  induction rest as [|entry rest IH]; intros total i deadStreams aliveCount;
    cbn [Checker.checkEntries].
  - now apply returns_ret.
  - eapply returns_bind; [apply returns_log|intros _ _].
    eapply returns_bind; [apply checkUrl_returns|].
    intros [r|] Hr; [|now elim Hr].
    eapply returns_bind with (P := fun _ => True).
    + destruct (isAlive r); repeat returns_step.
    + intros st _. eapply returns_bind; [apply returns_when, returns_sleep|].
      intros _ _. apply IH.
Qed.

Lemma runCheckBody_content (content : jsstring) :
  fs M3U_FILE = Content content -> returns (fun _ => True) runCheckBody.
Proof.
  intros Hfs. unfold Checker.runCheckBody.
  eapply returns_bind; [apply returns_log|intros _ _].
  eapply returns_bind with (P := fun _ => True).
  { unfold Checker.parseM3U. rewrite Hfs. now apply returns_ret. }
  intros entries _. cbv zeta.
  eapply returns_bind; [apply returns_log|intros _ _].
  destruct (N.of_nat (List.length entries) =? 0); [apply returns_log|].
  eapply returns_bind; [apply checkEntries_returns|intros st _].
  do 5 (eapply returns_bind; [apply returns_log|intros _ _]).
  destruct (0 <? N.of_nat (List.length (fst st))).
  - repeat returns_step. apply logSummary_returns.
  - apply returns_log.
Qed.

Lemma runCheck_content (content : jsstring) (w : World) :
  fs M3U_FILE = Content content -> fst (runCheck w) = 0.
Proof.
  intros Hfs. unfold Checker.runCheck.
  assert (H : returns (fun _ => True)
                (log LogBanner ;; log LogBannerRule ;; runCheckBody)).
  { do 2 (eapply returns_bind; [apply returns_log|intros _ _]).
    apply (runCheckBody_content content Hfs). }
  destruct (H w) as (a & w' & -> & _). reflexivity.
Qed.

Lemma runCheck_no_content (w : World) :
  (forall content, fs M3U_FILE <> Content content) -> fst (runCheck w) = 1.
Proof.
  intros Hfs. unfold Checker.runCheck, Checker.runCheckBody, Checker.parseM3U.
  unfold bind, log, emit. cbn [issued trace].
  destruct (fs M3U_FILE) as [|e|content]; try reflexivity.
  now elim (Hfs content).
Qed.

End WithPlatform.

(** C5, as the code has it: the exit status is 1 exactly when the playlist
    file is missing or unreadable and 0 otherwise; with a readable file it
    is 0 whatever the file holds (nothing at all included) and whatever the
    network answers, dead streams included. *)
Theorem runCheck_exit_status
    (v : jsstring -> bool) (q : jsstring -> option JsError)
    (net : nat -> Request -> Outcome)
    (fs : jsstring -> FileState) (w : World) :
  (fst (runCheck v q net fs w) <> 0 <->
   fs M3U_FILE = Missing \/ exists e, fs M3U_FILE = Unreadable e)
  /\ (fst (runCheck v q net fs w) = 0 \/ fst (runCheck v q net fs w) = 1)
  /\ (forall content net',
        fs M3U_FILE = Content content -> fst (runCheck v q net' fs w) = 0).
Proof.
  destruct (fs M3U_FILE) as [|e|content] eqn:Hfs.
  - assert (H : fst (runCheck v q net fs w) = 1).
    { apply runCheck_no_content. intros c. congruence. }
    rewrite H. repeat split; auto; try discriminate.
  - assert (H : fst (runCheck v q net fs w) = 1).
    { apply runCheck_no_content. intros c. congruence. }
    rewrite H. repeat split; eauto; try discriminate.
  - rewrite (runCheck_content v q net fs content w Hfs). repeat split; auto.
    + intros H. now elim H.
    + intros [H|[e H]]; discriminate.
    + intros c net' _. apply (runCheck_content v q net' fs content w Hfs).
Qed.

(** C7: when the playlist has no URL-bearing line, the parser returns the
    empty list without throwing, and the run only writes its banner, the
    count of 0 streams and the line [No stream URLs found in playlist]: it
    issues no request, sleeps for no delay, writes no success rate, and ends
    with status 0. *)
Theorem runCheck_no_entries
    (v : jsstring -> bool) (q : jsstring -> option JsError)
    (net : nat -> Request -> Outcome)
    (fs : jsstring -> FileState) (content : jsstring) (w : World) :
  fs M3U_FILE = Content content ->
  urlLines v content = [] ->
  parseM3U v fs M3U_FILE w = (Normal [], w)
  /\ runCheck v q net fs w
     = (0, mkWorld (issued w) (trace w ++ noEntriesEvents))
  /\ requestsOf noEntriesEvents = []
  /\ existsb isSuccessRate (logsOf noEntriesEvents) = false.
Proof.
  intros Hfs Hurls.
  assert (Hp : parseContent v content = []).
  { pose proof (parseContent_urls v content) as H. rewrite Hurls in H.
    now apply map_eq_nil in H. }
  split; [|split; [|split; reflexivity]].
  - unfold parseM3U. now rewrite Hfs, Hp.
  - unfold runCheck, runCheckBody, parseM3U. rewrite !bind_log, Hfs, Hp.
    rewrite bind_ret. cbv zeta. rewrite bind_log.
    change (N.of_nat (List.length (@nil Entry)) =? 0) with true. cbv iota.
    unfold log, emit. cbn [issued trace]. now rewrite <- !app_assoc.
Qed.

Lemma runCheck_no_entries_witness :
  fsWith headerOnly M3U_FILE = Content headerOnly
  /\ urlLines sampleValidUrl headerOnly = []
  /\ runCheck sampleValidUrl sampleRequestError netRefused (fsWith headerOnly)
       emptyWorld
     = (0, mkWorld 0 noEntriesEvents).
Proof.
  split; [reflexivity|]. split; [reflexivity|].
  exact (proj1 (proj2 (runCheck_no_entries sampleValidUrl sampleRequestError
                         netRefused (fsWith headerOnly) headerOnly emptyWorld
                         eq_refl eq_refl))).
Defined.

(** C5 as stated fails on an empty playlist file: the run ends with
    status 0. *)
Lemma runCheck_empty_file_exits_zero :
  fsWith [] M3U_FILE = Content []
  /\ runCheck sampleValidUrl sampleRequestError netRefused (fsWith [])
       emptyWorld
     = (0, mkWorld 0 noEntriesEvents).
Proof.
  split; [reflexivity|]. unfold runCheck. vm_compute. reflexivity.
Qed.

Example runCheck_three_entries :
  fst (runCheck sampleValidUrl sampleRequestError netScenario
         (fsWith threeEntries) emptyWorld) = 0
  /\ filter (fun l => match l with
                      | LogLiveCount _ | LogDeadCount _ | LogSuccessRate _ _
                      | LogSummaryError _ => true
                      | _ => false
                      end)
       (logsOf (trace (snd (runCheck sampleValidUrl sampleRequestError
                              netScenario (fsWith threeEntries) emptyWorld))))
     = [LogLiveCount 1; LogDeadCount 2; LogSuccessRate 1 3;
        LogSummaryError (lit "HTTP 404");
        LogSummaryError (lit "Timeout after 10000ms")]
  /\ List.length (requestsOf (trace (snd (runCheck sampleValidUrl
                                           sampleRequestError netScenario
                                           (fsWith threeEntries) emptyWorld))))
     = 4%nat.
Proof. vm_compute. repeat split. Qed.

End CheckerFacts.
Import CheckerFacts.

(* ===================================================================== *)
(** ** Properties of the formatter *)
(* ===================================================================== *)

Module FormatterFacts.

Lemma replaceWsRuns_spaced (s : jsstring) :
  forall inRun,
    singleSpaced (replaceWsRuns inRun s) = true
    /\ (inRun = true -> headNonWs (replaceWsRuns inRun s) = true).
Proof.
  induction s as [|c s IH]; intros inRun; simpl; [auto|].
  destruct (isWs c) eqn:Hc.
  - destruct (IH true) as [H1 H2]. destruct inRun.
    + auto.
    + split; [|discriminate]. simpl.
      rewrite (H2 eq_refl), H1. reflexivity.
  - destruct (IH false) as [H1 _]. simpl. unfold nonWs. rewrite Hc. simpl.
    auto.
Qed.

Lemma collapseWs_spaced (s : jsstring) : singleSpaced (collapseWs s) = true.
Proof. apply replaceWsRuns_spaced. Qed.

Lemma replaceWsRuns_nonWs (s : jsstring) :
  forall inRun, filter nonWs (replaceWsRuns inRun s) = filter nonWs s.
Proof.
  induction s as [|c s IH]; intros inRun; simpl; [reflexivity|].
  unfold nonWs at 2. destruct (isWs c) eqn:Hc; simpl.
  - destruct inRun; simpl; now rewrite IH.
  - unfold nonWs at 1. rewrite Hc. simpl. now rewrite IH.
Qed.

Lemma filter_nonWs_ws (a : jsstring) :
  forallb isWs a = true -> filter nonWs a = [].
Proof.
  induction a as [|c a IH]; simpl; [reflexivity|].
  intros H. apply andb_true_iff in H. destruct H as [Hc Ha].
  unfold nonWs at 1. rewrite Hc. simpl. auto.
Qed.

Lemma trim_nonWs (s : jsstring) : filter nonWs (trim s) = filter nonWs s.
Proof.
  destruct (trim_split s) as (a & b & Hs & Ha & Hb).
  rewrite Hs at 2. rewrite !filter_app.
  now rewrite (filter_nonWs_ws _ Ha), (filter_nonWs_ws _ Hb), app_nil_r.
Qed.

Lemma singleSpaced_app_inv (a b : jsstring) :
  singleSpaced (a ++ b) = true -> singleSpaced a = true /\ singleSpaced b = true.
Proof.
  induction a as [|c a IH]; simpl; [auto|].
  intros H. apply andb_true_iff in H. destruct H as [Hc Hr].
  destruct (IH Hr) as [Ha Hb]. split; [|exact Hb].
  rewrite Ha, andb_true_r.
  destruct (nonWs c); [reflexivity|]. simpl in *.
  apply andb_true_iff in Hc. destruct Hc as [Hsp Hh]. rewrite Hsp. simpl.
  destruct a; [reflexivity|exact Hh].
Qed.

Lemma singleSpaced_app (a b : jsstring) :
  singleSpaced a = true -> singleSpaced b = true -> headNonWs b = true ->
  singleSpaced (a ++ b) = true.
Proof.
  intros Ha Hb Hh. induction a as [|c a IH]; simpl; [exact Hb|].
  simpl in Ha. apply andb_true_iff in Ha. destruct Ha as [Hc Hr].
  rewrite (IH Hr), andb_true_r.
  destruct (nonWs c); [reflexivity|]. simpl in *.
  apply andb_true_iff in Hc. destruct Hc as [Hsp Hha]. rewrite Hsp. simpl.
  destruct a; [exact Hh|exact Hha].
Qed.

Lemma dropWhile_headNonWs (s : jsstring) : headNonWs (dropWhile isWs s) = true.
Proof.
  induction s as [|c s IH]; simpl; [reflexivity|].
  destruct (isWs c) eqn:Hc; [exact IH|]. simpl. unfold nonWs. now rewrite Hc.
Qed.

Lemma headNonWs_rev_dropWhile (s : jsstring) :
  headNonWs s = true -> headNonWs (rev (dropWhile isWs (rev s))) = true.
Proof.
  intros Hh. destruct s as [|c s]; [reflexivity|].
  destruct (dropWhile_split isWs (rev (c :: s))) as (b & Hb & Hpb).
  assert (E : c :: s = rev (dropWhile isWs (rev (c :: s))) ++ rev b).
  { rewrite <- rev_app_distr, <- Hb. now rewrite rev_involutive. }
  destruct (rev (dropWhile isWs (rev (c :: s)))) as [|d t] eqn:Et.
  - reflexivity.
  - simpl in E. injection E as <- _. exact Hh.
Qed.

Lemma trim_headNonWs (s : jsstring) : headNonWs (trim s) = true.
Proof.
  unfold trim. apply headNonWs_rev_dropWhile, dropWhile_headNonWs.
Qed.

Lemma trim_spaced (s : jsstring) :
  singleSpaced s = true -> singleSpaced (trim s) = true.
Proof.
  intros H. destruct (trim_split s) as (a & b & Hs & _ & _).
  rewrite Hs in H. apply singleSpaced_app_inv in H. destruct H as [_ H].
  now apply singleSpaced_app_inv in H.
Qed.

Lemma dropWhile_id (s : jsstring) :
  headNonWs s = true -> dropWhile isWs s = s.
Proof.
  destruct s as [|c s]; simpl; [reflexivity|].
  unfold nonWs. intros H. apply negb_true_iff in H. now rewrite H.
Qed.

(** [trim] leaves a string without white space at its ends as it is. *)
Lemma trim_id (s : jsstring) :
  headNonWs s = true -> lastNonWs s = true -> trim s = s.
Proof.
  intros Hh Hl. unfold trim. rewrite (dropWhile_id _ Hh).
  rewrite (dropWhile_id _ Hl). apply rev_involutive.
Qed.

Lemma trim_lastNonWs (s : jsstring) : lastNonWs (trim s) = true.
Proof.
  unfold lastNonWs, trim. rewrite rev_involutive. apply dropWhile_headNonWs.
Qed.

Lemma headNonWs_app (a b : jsstring) :
  truthy a = true -> headNonWs (a ++ b) = headNonWs a.
Proof. now destruct a. Qed.

Lemma lastNonWs_app (a b : jsstring) :
  truthy b = true -> lastNonWs (a ++ b) = lastNonWs b.
Proof.
  intros H. unfold lastNonWs. rewrite rev_app_distr. apply headNonWs_app.
  destruct b as [|c b]; [discriminate|]. simpl. now destruct (rev b).
Qed.

Lemma replaceWsRuns_snoc (s : jsstring) (c : N) :
  nonWs c = true ->
  forall inRun, replaceWsRuns inRun (s ++ [c]) = replaceWsRuns inRun s ++ [c].
Proof.
  intros Hc. unfold nonWs in Hc. apply negb_true_iff in Hc.
  induction s as [|d s IH]; intros inRun; simpl.
  - now rewrite Hc.
  - destruct (isWs d); [destruct inRun|]; simpl; now rewrite IH.
Qed.

Lemma collapseWs_headNonWs (s : jsstring) :
  headNonWs s = true -> headNonWs (collapseWs s) = true.
Proof.
  unfold collapseWs. destruct s as [|c s]; simpl; [reflexivity|].
  intros H. unfold nonWs in H. apply negb_true_iff in H. rewrite H. simpl.
  unfold nonWs. now rewrite H.
Qed.

Lemma snoc_cases (s : jsstring) : s = [] \/ exists s' c, s = s' ++ [c].
Proof.
  destruct (rev s) as [|c t] eqn:E.
  - left. apply (f_equal (@rev N)) in E. now rewrite rev_involutive in E.
  - right. exists (rev t), c. apply (f_equal (@rev N)) in E.
    now rewrite rev_involutive in E.
Qed.

Lemma collapseWs_lastNonWs (s : jsstring) :
  lastNonWs s = true -> lastNonWs (collapseWs s) = true.
Proof.
  destruct (snoc_cases s) as [->|(s' & c & ->)]; [reflexivity|].
  unfold lastNonWs. rewrite rev_app_distr. simpl. intros Hc.
  unfold collapseWs. rewrite (replaceWsRuns_snoc _ _ Hc), rev_app_distr.
  exact Hc.
Qed.

Lemma collapseWs_truthy (s : jsstring) :
  headNonWs s = true -> truthy (collapseWs s) = truthy s.
Proof.
  unfold collapseWs. destruct s as [|c s]; simpl; [reflexivity|].
  intros H. unfold nonWs in H. apply negb_true_iff in H. now rewrite H.
Qed.

(** A line [cleanLine] returns has no white space at its ends. *)
Lemma cleanLine_ends (l : jsstring) :
  headNonWs (cleanLine l) = true /\ lastNonWs (cleanLine l) = true.
Proof.
  assert (Hc : headNonWs (collapseWs (trim l)) = true
               /\ lastNonWs (collapseWs (trim l)) = true).
  { split; [apply collapseWs_headNonWs, trim_headNonWs
           |apply collapseWs_lastNonWs, trim_lastNonWs]. }
  unfold cleanLine. destruct (startsWith (lit "#EXTINF") (trim l)); [|exact Hc].
  destruct (indexOf comma (collapseWs (trim l))) as [i|] eqn:E; [|exact Hc].
  destruct (indexOf_split _ _ _ E) as (Hs & _ & _).
  unfold substringTo, substringFrom.
  destruct Hc as [Hh _]. rewrite Hs in Hh. split.
  - destruct (firstn i (collapseWs (trim l))); [reflexivity|exact Hh].
  - rewrite lastNonWs_app by reflexivity.
    destruct (trim (skipn (S i) (collapseWs (trim l)))) as [|c t] eqn:Et;
      [reflexivity|].
    change (comma :: c :: t) with ([comma] ++ c :: t).
    rewrite lastNonWs_app by reflexivity. rewrite <- Et.
    apply trim_lastNonWs.
Qed.

Lemma joinLines_tidy (ls : list jsstring) :
  forallb tidy ls = true ->
  headNonWs (joinLines ls) = true /\ lastNonWs (joinLines ls) = true
  /\ (ls <> [] -> truthy (joinLines ls) = true).
Proof.
  induction ls as [|l ls IH]; [simpl; intuition congruence|].
  intros H. cbn [forallb] in H. apply andb_true_iff in H.
  destruct H as [Hl Hls]. unfold tidy in Hl.
  apply andb_true_iff in Hl. destruct Hl as [Hl Hlast].
  apply andb_true_iff in Hl. destruct Hl as [Ht Hhead].
  destruct ls as [|l2 ls]; [simpl; auto|].
  destruct (IH Hls) as (_ & IHl & IHt).
  change (joinLines (l :: l2 :: ls)) with (l ++ LF :: joinLines (l2 :: ls)).
  split; [|split].
  - now rewrite headNonWs_app.
  - change (l ++ LF :: joinLines (l2 :: ls))
      with (l ++ [LF] ++ joinLines (l2 :: ls)).
    rewrite !lastNonWs_app; auto. apply IHt. discriminate.
  - intros _. now destruct l.
Qed.

Lemma cleaned_lines_tidy (ls : list jsstring) :
  forallb tidy (filter truthy (map cleanLine ls)) = true.
Proof.
  induction ls as [|l ls IH]; simpl; [reflexivity|].
  destruct (truthy (cleanLine l)) eqn:Ht; [|exact IH].
  simpl. rewrite IH, andb_true_r. unfold tidy.
  destruct (cleanLine_ends l) as [Hh Hl]. now rewrite Ht, Hh, Hl.
Qed.

(** The final [content.trim()] of [cleanM3u] changes nothing. *)
Lemma cleanM3u_lines (content : jsstring) :
  cleanM3u content
  = joinLines (filter truthy (map cleanLine (splitLines content))) ++ [LF].
Proof.
  unfold cleanM3u. f_equal.
  destruct (joinLines_tidy _ (cleaned_lines_tidy (splitLines content)))
    as (Hh & Hl & _).
  now apply trim_id.
Qed.

Example words_ex : words (lit "  a  bc d ") = [lit "a"; lit "bc"; lit "d"].
Proof. reflexivity. Qed.

Lemma words_ws (s : jsstring) : forallb isWs s = true -> words s = [].
Proof.
  induction s as [|c s IH]; [reflexivity|]. cbn [forallb words].
  intros H. apply andb_true_iff in H. destruct H as [Hc Hs]. rewrite Hc. auto.
Qed.

Lemma words_nil_ws (s : jsstring) : words s = [] -> forallb isWs s = true.
Proof.
  induction s as [|c s IH]; [reflexivity|]. cbn [forallb words].
  destruct (isWs c); [exact IH|].
  destruct (truthy s && headNonWs s); [destruct (words s)|]; discriminate.
Qed.

Lemma words_app_ws (a s : jsstring) :
  forallb isWs a = true -> words (a ++ s) = words s.
Proof.
  induction a as [|c a IH]; [reflexivity|]. cbn [forallb app words].
  intros H. apply andb_true_iff in H. destruct H as [Hc Ha]. rewrite Hc. auto.
Qed.

Lemma words_ws_app (s b : jsstring) :
  forallb isWs b = true -> words (s ++ b) = words s.
Proof.
  intros Hb. induction s as [|c s IH].
  - now apply words_ws.
  - cbn [app words]. rewrite IH.
    assert (Hh : truthy (s ++ b) && headNonWs (s ++ b) = truthy s && headNonWs s).
    { destruct s as [|d s]; [|reflexivity]. cbn [app].
      destruct b as [|e b]; [reflexivity|]. cbn [forallb] in Hb.
      apply andb_true_iff in Hb. destruct Hb as [He _].
      cbn. unfold nonWs. now rewrite He. }
    now rewrite Hh.
Qed.

Lemma words_trim (s : jsstring) : words (trim s) = words s.
Proof.
  destruct (trim_split s) as (a & b & Hs & Ha & Hb).
  rewrite Hs at 2. now rewrite (words_app_ws _ _ Ha), (words_ws_app _ _ Hb).
Qed.

Lemma endsWithWs_cons (c : N) (s : jsstring) :
  truthy s = true -> endsWithWs (c :: s) = endsWithWs s.
Proof. now destruct s. Qed.

Lemma endsWithWs_all (s : jsstring) :
  truthy s = true -> forallb isWs s = true -> endsWithWs s = true.
Proof.
  induction s as [|c s IH]; [discriminate|]. intros _ H.
  cbn [forallb] in H. apply andb_true_iff in H. destruct H as [Hc Hs].
  destruct s as [|d s]; [exact Hc|]. rewrite endsWithWs_cons by reflexivity.
  now apply IH.
Qed.

Lemma endsWithWs_lastNonWs (s : jsstring) :
  lastNonWs s = true -> endsWithWs s = false.
Proof.
  induction s as [|c s IH]; [reflexivity|]. intros H.
  destruct s as [|d s].
  - unfold lastNonWs in H. cbn in H. unfold nonWs in H.
    now apply negb_true_iff in H.
  - rewrite endsWithWs_cons by reflexivity. apply IH.
    rewrite <- H. symmetry.
    change (c :: d :: s) with ([c] ++ d :: s). now apply lastNonWs_app.
Qed.

Lemma replaceWsRuns_head (s : jsstring) :
  headNonWs s = true -> replaceWsRuns false s = replaceWsRuns true s.
Proof.
  destruct s as [|c s]; [reflexivity|]. cbn [headNonWs replaceWsRuns].
  unfold nonWs. intros H. apply negb_true_iff in H. now rewrite H.
Qed.

Lemma unwords_cons (c : N) (w : jsstring) (ws : list jsstring) :
  unwords ((c :: w) :: ws) = c :: unwords (w :: ws).
Proof. now destruct ws. Qed.

Lemma words_nonWs_ws (c d : N) (s : jsstring) :
  isWs c = false -> isWs d = true -> words (c :: d :: s) = [c] :: words s.
Proof.
  intros Hc Hd. cbn [words truthy headNonWs andb]. unfold nonWs.
  now rewrite Hc, Hd.
Qed.

Lemma words_nonWs_nonWs (c d : N) (s : jsstring) :
  isWs c = false -> isWs d = false ->
  exists w ws, words (d :: s) = w :: ws /\ words (c :: d :: s) = (c :: w) :: ws.
Proof.
  intros Hc Hd.
  destruct (words (d :: s)) as [|w ws] eqn:Hw.
  - apply words_nil_ws in Hw. cbn [forallb] in Hw. rewrite Hd in Hw.
    discriminate Hw.
  - exists w, ws. split; [reflexivity|].
    change (words (c :: d :: s))
      with (if isWs c then words (d :: s)
            else if truthy (d :: s) && headNonWs (d :: s)
                 then match words (d :: s) with
                      | w :: ws => (c :: w) :: ws
                      | [] => [[c]]
                      end
                 else [c] :: words (d :: s)).
    rewrite Hc, Hw. cbn [truthy headNonWs andb]. unfold nonWs. now rewrite Hd.
Qed.

Lemma replaceWsRuns_words (s : jsstring) :
  replaceWsRuns true s = unwords (words s) ++ wsTail s.
Proof.
  unfold wsTail. induction s as [|c s IH]; [reflexivity|].
  destruct (isWs c) eqn:Hc.
  - cbn [replaceWsRuns words]. rewrite Hc, IH. destruct s as [|d s].
    + cbn [words]. now rewrite !andb_false_r.
    + now rewrite (endsWithWs_cons c (d :: s)) by reflexivity.
  - destruct s as [|d s]; [cbn; now rewrite Hc|].
    rewrite (endsWithWs_cons c (d :: s)) by reflexivity.
    change (replaceWsRuns true (c :: d :: s))
      with (if isWs c then replaceWsRuns true (d :: s)
            else c :: replaceWsRuns false (d :: s)).
    rewrite Hc. destruct (isWs d) eqn:Hd.
    + rewrite (words_nonWs_ws c d s Hc Hd).
      assert (E1 : replaceWsRuns false (d :: s) = SP :: replaceWsRuns true s).
      { cbn [replaceWsRuns]. now rewrite Hd. }
      assert (E2 : replaceWsRuns true (d :: s) = replaceWsRuns true s).
      { cbn [replaceWsRuns]. now rewrite Hd. }
      assert (E3 : words (d :: s) = words s).
      { cbn [words]. now rewrite Hd. }
      rewrite E1. rewrite E2, E3 in IH. rewrite IH.
      destruct (words s) as [|w ws] eqn:Hw.
      * rewrite andb_false_r, andb_true_r. cbn [unwords app].
        rewrite endsWithWs_all; [reflexivity|reflexivity|].
        cbn [forallb]. rewrite Hd. cbn [andb]. now apply words_nil_ws.
      * rewrite !andb_true_r. reflexivity.
    + destruct (words_nonWs_nonWs c d s Hc Hd) as (w & ws & Hw & Hcw).
      rewrite Hcw, unwords_cons, <- Hw.
      rewrite (replaceWsRuns_head (d :: s))
        by (cbn; unfold nonWs; now rewrite Hd).
      rewrite IH, Hw. reflexivity.
Qed.

(** The trimmed line with its white space collapsed is its words joined by
    single spaces. *)
Lemma collapse_trim_words (l : jsstring) :
  collapseWs (trim l) = unwords (words l).
Proof.
  unfold collapseWs. rewrite (replaceWsRuns_head _ (trim_headNonWs l)).
  rewrite replaceWsRuns_words, words_trim. unfold wsTail.
  rewrite (endsWithWs_lastNonWs _ (trim_lastNonWs l)). cbn [andb].
  apply app_nil_r.
Qed.

(** Collapsing keeps a prefix free of white space. *)
Lemma startsWith_collapseWs (p : jsstring) :
  forallb nonWs p = true ->
  forall s, startsWith p (collapseWs s) = startsWith p s.
Proof.
  unfold collapseWs.
  induction p as [|a p IH]; intros Hp s; [reflexivity|].
  cbn [forallb] in Hp. apply andb_true_iff in Hp. destruct Hp as [Ha Hp].
  destruct s as [|c s]; [reflexivity|]. cbn [replaceWsRuns].
  destruct (isWs c) eqn:Hc.
  - cbn [startsWith].
    assert (Hac : (a =? c) = false).
    { apply N.eqb_neq. intros ->. unfold nonWs in Ha. now rewrite Hc in Ha. }
    assert (Hsp : (a =? SP) = false).
    { apply N.eqb_neq. intros ->. discriminate Ha. }
    now rewrite Hac, Hsp.
  - cbn [startsWith]. now rewrite (IH Hp).
Qed.

Lemma startsWith_app_ws (p : jsstring) :
  forallb nonWs p = true ->
  forall w c rest,
    isWs c = true -> startsWith p (w ++ c :: rest) = startsWith p w.
Proof.
  induction p as [|a p IH]; intros Hp w c rest Hc; [reflexivity|].
  cbn [forallb] in Hp. apply andb_true_iff in Hp. destruct Hp as [Ha Hp].
  destruct w as [|x w]; cbn [app startsWith].
  - assert (Hac : (a =? c) = false).
    { apply N.eqb_neq. intros ->. unfold nonWs in Ha. now rewrite Hc in Ha. }
    now rewrite Hac.
  - now rewrite (IH Hp).
Qed.

Lemma startsWith_unwords (p : jsstring) (ws : list jsstring) :
  forallb nonWs p = true ->
  startsWith p (unwords ws) = startsWith p (hd [] ws).
Proof.
  intros Hp. destruct ws as [|w [|w2 ws]]; [reflexivity..|].
  change (unwords (w :: w2 :: ws)) with (w ++ SP :: unwords (w2 :: ws)).
  now apply startsWith_app_ws.
Qed.

(** The test of the code on the trimmed line is a test on the first
    word. *)
Lemma startsWith_trim_extinfLine (l : jsstring) :
  startsWith (lit "#EXTINF") (trim l) = extinfLine l.
Proof.
  unfold extinfLine.
  rewrite <- (startsWith_collapseWs (lit "#EXTINF") eq_refl (trim l)).
  rewrite collapse_trim_words. now apply startsWith_unwords.
Qed.

Lemma dropWhile_app_nonWs (a b : jsstring) (c : N) :
  isWs c = false ->
  dropWhile isWs (a ++ c :: b) = dropWhile isWs a ++ c :: b.
Proof.
  intros Hc. induction a as [|x a IH]; cbn [app dropWhile].
  - now rewrite Hc.
  - now destruct (isWs x).
Qed.

Lemma trim_app_nonWs (a b : jsstring) (c : N) :
  isWs c = false ->
  trim (a ++ c :: b)
  = dropWhile isWs a ++ c :: rev (dropWhile isWs (rev b)).
Proof.
  intros Hc. unfold trim. rewrite (dropWhile_app_nonWs _ _ _ Hc).
  rewrite rev_app_distr. cbn [rev]. rewrite <- app_assoc. cbn [app].
  rewrite (dropWhile_app_nonWs _ _ _ Hc), rev_app_distr. cbn [rev].
  rewrite rev_involutive, <- app_assoc. reflexivity.
Qed.

Lemma replaceWsRuns_app_nonWs (a b : jsstring) (c : N) :
  isWs c = false ->
  forall inRun,
    replaceWsRuns inRun (a ++ c :: b)
    = replaceWsRuns inRun a ++ c :: replaceWsRuns false b.
Proof.
  intros Hc. induction a as [|x a IH]; intros inRun; cbn [app replaceWsRuns].
  - now rewrite Hc.
  - destruct (isWs x); [destruct inRun|]; cbn [app]; now rewrite IH.
Qed.

Lemma replaceWsRuns_dropWhile (s : jsstring) :
  replaceWsRuns true (dropWhile isWs s) = replaceWsRuns true s.
Proof.
  induction s as [|c s IH]; [reflexivity|]. cbn [dropWhile].
  destruct (isWs c) eqn:Hc; [|reflexivity].
  cbn [replaceWsRuns]. now rewrite Hc.
Qed.

Lemma replaceWsRuns_noneIs_comma (s : jsstring) :
  noneIs comma s = true ->
  forall inRun, noneIs comma (replaceWsRuns inRun s) = true.
Proof.
  unfold noneIs. induction s as [|c s IH]; intros H inRun; [reflexivity|].
  cbn [forallb] in H. apply andb_true_iff in H. destruct H as [Hc Hs].
  cbn [replaceWsRuns].
  destruct (isWs c); [destruct inRun|]; cbn [forallb];
    rewrite ?Hc, ?IH; auto.
Qed.

Lemma trimEnd_split (b : jsstring) :
  exists z, b = rev (dropWhile isWs (rev b)) ++ z /\ forallb isWs z = true.
Proof.
  destruct (dropWhile_split isWs (rev b)) as (z & Hz & Hp).
  exists (rev z). split.
  - rewrite <- rev_app_distr, <- Hz. now rewrite rev_involutive.
  - rewrite forallb_forall in *. intros x Hx. apply Hp. now apply in_rev.
Qed.

Lemma unwords_words_trim (s : jsstring) :
  trim (unwords (words s)) = unwords (words s).
Proof.
  rewrite <- collapse_trim_words.
  apply trim_id;
    [apply collapseWs_headNonWs, trim_headNonWs
    |apply collapseWs_lastNonWs, trim_lastNonWs].
Qed.

(** The title part: collapsing what follows the comma and trimming it. *)
Lemma trim_collapse_trimEnd (b : jsstring) :
  trim (replaceWsRuns false (rev (dropWhile isWs (rev b))))
  = unwords (words b).
Proof.
  destruct (trimEnd_split b) as (z & Hb & Hz).
  assert (Hl : lastNonWs (rev (dropWhile isWs (rev b))) = true).
  { unfold lastNonWs. rewrite rev_involutive. apply dropWhile_headNonWs. }
  remember (rev (dropWhile isWs (rev b))) as y eqn:Ey0.
  assert (Hw : words y = words b).
  { rewrite Hb. now rewrite words_ws_app. }
  assert (Ht : replaceWsRuns true y = unwords (words b)).
  { rewrite replaceWsRuns_words, Hw. unfold wsTail.
    rewrite (endsWithWs_lastNonWs _ Hl). cbn [andb]. apply app_nil_r. }
  destruct y as [|d y'] eqn:Ey.
  - cbn [replaceWsRuns] in *. rewrite <- Ht. reflexivity.
  - cbn [replaceWsRuns] in *. destruct (isWs d) eqn:Hd.
    + rewrite Ht. unfold trim. cbn [dropWhile].
      change (isWs SP) with true. cbv iota.
      apply unwords_words_trim.
    + assert (E : d :: replaceWsRuns false y' = unwords (words b)).
      { rewrite <- Ht. reflexivity. }
      rewrite E. apply unwords_words_trim.
Qed.

Lemma words_comma_head (b : jsstring) :
  startsWith (lit "#EXTINF") (hd [] (words (comma :: b))) = false.
Proof.
  cbn [words]. change (isWs comma) with false. cbv iota.
  destruct (truthy b && headNonWs b); [destruct (words b)|]; reflexivity.
Qed.

(** A metadata line with a comma, split at its first comma. *)
Lemma cleanLine_first_comma (a b : jsstring) :
  noneIs comma a = true ->
  extinfLine (a ++ comma :: b) = true ->
  cleanLine (a ++ comma :: b)
  = unwords (words a) ++ (if endsWithWs a then [SP] else [])
    ++ comma :: unwords (words b).
Proof.
  intros Ha Hx.
  assert (Hwa : words a <> []).
  { intros Hw. apply words_nil_ws in Hw. unfold extinfLine in Hx.
    rewrite (words_app_ws _ _ Hw), words_comma_head in Hx. discriminate Hx. }
  assert (Hpre : replaceWsRuns false (dropWhile isWs a)
                 = unwords (words a) ++ (if endsWithWs a then [SP] else [])).
  { rewrite (replaceWsRuns_head _ (dropWhile_headNonWs a)).
    rewrite replaceWsRuns_dropWhile, replaceWsRuns_words. unfold wsTail.
    destruct (words a); [now elim Hwa|]. now rewrite andb_true_r. }
  assert (Hc : collapseWs (trim (a ++ comma :: b))
               = replaceWsRuns false (dropWhile isWs a)
                 ++ comma :: replaceWsRuns false (rev (dropWhile isWs (rev b)))).
  { rewrite (trim_app_nonWs a b comma eq_refl). unfold collapseWs.
    now apply replaceWsRuns_app_nonWs. }
  assert (Hn : noneIs comma (replaceWsRuns false (dropWhile isWs a)) = true).
  { apply replaceWsRuns_noneIs_comma.
    destruct (dropWhile_split isWs a) as (x & Hs & _).
    rewrite Hs in Ha. unfold noneIs in *. rewrite forallb_app in Ha.
    apply andb_true_iff in Ha. tauto. }
  unfold cleanLine. rewrite startsWith_trim_extinfLine, Hx, Hc.
  rewrite (indexOf_first _ _ _ Hn). unfold substringTo, substringFrom.
  rewrite firstn_length_app.
  change (S (List.length (replaceWsRuns false (dropWhile isWs a))))
    with (1 + List.length (replaceWsRuns false (dropWhile isWs a)))%nat.
  rewrite <- skipn_skipn, skipn_length_app. cbn [skipn].
  rewrite trim_collapse_trimEnd, Hpre, <- app_assoc. reflexivity.
Qed.

Lemma noneIs_collapse_trim (l : jsstring) :
  noneIs comma l = true -> noneIs comma (collapseWs (trim l)) = true.
Proof.
  intros H. apply replaceWsRuns_noneIs_comma.
  destruct (trim_split l) as (x & y & Hs & _ & _).
  rewrite Hs in H. unfold noneIs in *. rewrite !forallb_app in H.
  apply andb_true_iff in H. destruct H as [_ H].
  apply andb_true_iff in H. tauto.
Qed.

Lemma cleanLine_plain (l : jsstring) :
  extinfLine l = false \/ noneIs comma l = true ->
  cleanLine l = unwords (words l).
Proof.
  intros H. rewrite <- collapse_trim_words. unfold cleanLine.
  rewrite startsWith_trim_extinfLine.
  destruct (extinfLine l); [|reflexivity].
  destruct H as [H|H]; [discriminate|].
  destruct (indexOf comma (collapseWs (trim l))) as [i|] eqn:E; [|reflexivity].
  destruct (indexOf_split _ _ _ E) as (Hs & _ & _).
  pose proof (noneIs_collapse_trim l H) as Hn. rewrite Hs in Hn.
  unfold noneIs in Hn. rewrite forallb_app in Hn.
  apply andb_true_iff in Hn. destruct Hn as [_ Hn]. cbn in Hn. discriminate Hn.
Qed.

(** C9: [cleanLine] collapses the white space of a line to single spaces:
    a line that is no metadata line, or has no comma, becomes its words (its
    maximal runs of code units that are no white space) joined by single
    spaces, so that white space at its ends is removed and every run inside
    it becomes one space.  A metadata line (its first word starts with
    [#EXTINF]) with a comma is split at its first comma: what precedes the
    comma becomes its words joined by single spaces, followed by one space
    when white space stood before the comma; what follows the comma, later
    commas included, becomes its words joined by single spaces and is put
    back right after the comma.  In every case the white space of the result
    is single spaces, never two in a row, and the other code units of the
    line are kept in order.  What [cleanM3u] writes is the non-empty results
    of [cleanLine] on the lines of the file, joined by line feeds, and a
    final line feed. *)
Theorem cleanLine_collapses_and_splits_at_first_comma (l : jsstring) :
  singleSpaced (cleanLine l) = true
  /\ filter nonWs (cleanLine l) = filter nonWs l
  /\ (extinfLine l = false \/ noneIs comma l = true ->
      cleanLine l = unwords (words l))
  /\ (forall a b,
        l = a ++ comma :: b ->
        noneIs comma a = true ->
        extinfLine l = true ->
        cleanLine l
        = unwords (words a) ++ (if endsWithWs a then [SP] else [])
          ++ comma :: unwords (words b))
  /\ (forall content,
        cleanM3u content
        = joinLines (filter truthy (map cleanLine (splitLines content)))
          ++ [LF]).
Proof.
  assert (Hcases : cleanLine l = collapseWs (trim l)
                   \/ exists pre post,
                        collapseWs (trim l) = pre ++ comma :: post
                        /\ cleanLine l = pre ++ comma :: trim post).
  { unfold cleanLine.
    destruct (startsWith (lit "#EXTINF") (trim l)) eqn:Hx; [|auto].
    destruct (indexOf comma (collapseWs (trim l))) as [i|] eqn:E; [|auto].
    right. destruct (indexOf_split _ _ _ E) as (Hs & Hp & _).
    do 2 eexists. split; [exact Hs|reflexivity]. }
  split; [|split; [|split; [exact (cleanLine_plain l)|split]]].
  - destruct Hcases as [->|(pre & post & Hc & ->)].
    + apply collapseWs_spaced.
    + pose proof (collapseWs_spaced (trim l)) as H. rewrite Hc in H.
      change (pre ++ comma :: post) with (pre ++ [comma] ++ post) in H.
      rewrite app_assoc in H. apply singleSpaced_app_inv in H.
      destruct H as [H1 H2].
      change (pre ++ comma :: trim post) with (pre ++ [comma] ++ trim post).
      rewrite app_assoc.
      apply singleSpaced_app; [exact H1|now apply trim_spaced|].
      apply trim_headNonWs.
  - destruct Hcases as [->|(pre & post & Hc & ->)].
    + unfold collapseWs. now rewrite replaceWsRuns_nonWs, trim_nonWs.
    + rewrite <- (trim_nonWs l).
      rewrite <- (replaceWsRuns_nonWs (trim l) false).
      fold (collapseWs (trim l)). rewrite Hc.
      rewrite !filter_app. simpl. now rewrite trim_nonWs.
  - intros a b -> Ha Hx. now apply cleanLine_first_comma.
  - exact cleanM3u_lines.
Qed.

(** The lines of the formatter on sample lines: runs of white space
    inside a title, white space around the first comma, a later comma. *)
Example cleanLine_samples :
  cleanLine (lit "  http://a.example/1   ") = lit "http://a.example/1"
  /\ cleanLine (lit "#EXTINF:-1   tvg-id=x ,  My   Channel, HD ")
     = lit "#EXTINF:-1 tvg-id=x ,My Channel, HD"
  /\ cleanLine (lit "#EXTVLCOPT:a,   b") = lit "#EXTVLCOPT:a, b".
Proof. vm_compute. repeat split. Qed.

End FormatterFacts.
Import FormatterFacts.

(* ===================================================================== *)
(** ** Lines and joins *)
(* ===================================================================== *)

Module LineFacts.

Lemma noneIs_app (c : N) (a b : jsstring) :
  noneIs c (a ++ b) = noneIs c a && noneIs c b.
Proof. unfold noneIs. apply forallb_app. Qed.

Lemma trim_noneIs (c : N) (s : jsstring) :
  noneIs c s = true -> noneIs c (trim s) = true.
Proof.
  intros H. destruct (trim_split s) as (a & b & Hs & _ & _).
  rewrite Hs, !noneIs_app in H.
  apply andb_true_iff in H. destruct H as [_ H].
  apply andb_true_iff in H. tauto.
Qed.

Lemma splitLines_not_nil (s : jsstring) : splitLines s <> [].
Proof.
  induction s as [|c s IH]; simpl; [discriminate|].
  destruct (c =? LF); [discriminate|].
  destruct (splitLines s); [now elim IH|discriminate].
Qed.

(** No line of a split text holds a line feed. *)
Lemma splitLines_noLF (s : jsstring) :
  forallb (noneIs LF) (splitLines s) = true.
Proof.
  induction s as [|c s IH]; simpl; [reflexivity|].
  destruct (c =? LF) eqn:Hc; [exact IH|].
  destruct (splitLines s) as [|l ls]; simpl in *; [now rewrite Hc|].
  now rewrite Hc.
Qed.

Lemma splitLines_app_LF (l s : jsstring) :
  noneIs LF l = true -> splitLines (l ++ LF :: s) = l :: splitLines s.
Proof.
  induction l as [|c l IH]; simpl; intros H; [reflexivity|].
  apply andb_true_iff in H. destruct H as [Hc Hl].
  apply negb_true_iff in Hc. now rewrite Hc, (IH Hl).
Qed.

Lemma splitLines_single (l : jsstring) :
  noneIs LF l = true -> splitLines l = [l].
Proof.
  induction l as [|c l IH]; simpl; intros H; [reflexivity|].
  apply andb_true_iff in H. destruct H as [Hc Hl].
  apply negb_true_iff in Hc. now rewrite Hc, (IH Hl).
Qed.

(** Splitting a join of lines without line feeds gives the lines back. *)
Lemma splitLines_joinLines (ls : list jsstring) :
  ls <> [] -> forallb (noneIs LF) ls = true -> splitLines (joinLines ls) = ls.
Proof.
  induction ls as [|l ls IH]; [now intros H|]. intros _ H.
  cbn [forallb] in H. apply andb_true_iff in H. destruct H as [Hl Hls].
  destruct ls as [|l2 ls].
  - now apply splitLines_single.
  - change (joinLines (l :: l2 :: ls)) with (l ++ LF :: joinLines (l2 :: ls)).
    rewrite (splitLines_app_LF _ _ Hl). f_equal. apply IH; [discriminate|exact Hls].
Qed.

(** Joining the lines of a text gives the text back. *)
Lemma joinLines_splitLines (s : jsstring) : joinLines (splitLines s) = s.
Proof.
  induction s as [|c s IH]; simpl; [reflexivity|].
  destruct (c =? LF) eqn:Hc.
  - apply N.eqb_eq in Hc. subst c.
    destruct (splitLines s) as [|l ls] eqn:E; [now elim (splitLines_not_nil s)|].
    change (joinLines ([] :: l :: ls)) with ([] ++ LF :: joinLines (l :: ls)).
    cbn [app]. f_equal. exact IH.
  - destruct (splitLines s) as [|l ls] eqn:E; [now elim (splitLines_not_nil s)|].
    rewrite <- IH. now destruct ls.
Qed.

Lemma trim_tidy (s : jsstring) :
  truthy (trim s) = true -> tidy (trim s) = true.
Proof.
  intros H. unfold tidy.
  now rewrite H, trim_headNonWs, trim_lastNonWs.
Qed.

Lemma trim_trim (s : jsstring) : trim (trim s) = trim s.
Proof. apply trim_id; [apply trim_headNonWs|apply trim_lastNonWs]. Qed.

Lemma tidy_trim (s : jsstring) : tidy s = true -> trim s = s.
Proof.
  unfold tidy. intros H. apply andb_true_iff in H. destruct H as [H Hl].
  apply andb_true_iff in H. destruct H as [_ Hh]. now apply trim_id.
Qed.

End LineFacts.
Import LineFacts.

(* ===================================================================== *)
(** ** Properties of the sorter *)
(* ===================================================================== *)

Module SorterFacts.

Lemma isExtinf_isHash (l : jsstring) : isExtinf l = true -> isHash l = true.
Proof.
  unfold isExtinf, isHash. destruct l as [|c l]; simpl; [discriminate|].
  intros H. apply andb_true_iff in H. destruct H as [H _]. now rewrite H.
Qed.

Lemma directive_isHash (l : jsstring) : directive l = true -> isHash l = true.
Proof. unfold directive. intros H. apply andb_true_iff in H. tauto. Qed.

Lemma last_isHash (cur : list jsstring) :
  cur <> [] -> forallb isHash cur = true -> isHash (last cur []) = true.
Proof.
  induction cur as [|l cur IH]; [now intros H|]. intros _ H.
  cbn [forallb] in H. apply andb_true_iff in H. destruct H as [Hl Hc].
  destruct cur as [|l2 cur]; [exact Hl|].
  change (last (l :: l2 :: cur) []) with (last (l2 :: cur) []).
  apply IH; [discriminate|exact Hc].
Qed.

(** An entry under construction is never complete: both pushes guarded by
    [complete] are dead. *)
Lemma complete_open (cur : list jsstring) :
  openShape cur = true -> complete cur = false.
Proof.
  destruct cur as [|first rest]; [reflexivity|].
  unfold openShape, complete. intros H.
  apply andb_true_iff in H. destruct H as [H _].
  apply andb_true_iff in H. destruct H as [Hf Hr].
  apply negb_false_iff. fold (isHash (last (first :: rest) [])).
  apply last_isHash; [discriminate|].
  cbn [forallb]. rewrite (isExtinf_isHash _ Hf). simpl.
  rewrite forallb_forall in *. intros l Hl. apply directive_isHash. auto.
Qed.

Lemma shapeRest_snoc (rest : list jsstring) (u : jsstring) :
  forallb directive rest = true -> isHash u = false ->
  shapeRest (rest ++ [u]) = true.
Proof.
  intros Hr Hu. induction rest as [|d rest IH]; simpl.
  - now rewrite Hu.
  - cbn [forallb] in Hr. apply andb_true_iff in Hr. destruct Hr as [Hd Hr].
    specialize (IH Hr).
    destruct (rest ++ [u]) as [|l ls] eqn:E; [destruct rest; discriminate|].
    now rewrite Hd, IH.
Qed.

Lemma groupLine_inv (st : GroupState) (rawLine : jsstring) :
  groupInv st -> groupInv (groupLine st rawLine).
Proof.
  destruct st as [es cur]. intros [Hes Hcur]. cbn [fst snd] in Hes, Hcur.
  unfold groupLine. cbv zeta.
  destruct (truthy (trim rawLine)) eqn:Ht; cbn [negb]; [|now split].
  pose proof (trim_tidy _ Ht) as Htidy.
  destruct (startsWith (lit "#EXTINF") (trim rawLine)) eqn:Hx.
  - rewrite (complete_open _ Hcur). split; cbn [fst snd]; [exact Hes|].
    unfold openShape, isExtinf. cbn [forallb]. now rewrite Hx, Htidy.
  - destruct (startsWith (lit "#") (trim rawLine)) eqn:Hh.
    + split; cbn [fst snd]; [exact Hes|].
      destruct cur as [|first rest]; [reflexivity|].
      unfold openShape in *.
      apply andb_true_iff in Hcur. destruct Hcur as [H Hall].
      apply andb_true_iff in H. destruct H as [Hf Hr].
      rewrite forallb_app, Hall.
      change ((first :: rest) ++ [trim rawLine])
        with (first :: (rest ++ [trim rawLine])).
      cbv iota. rewrite Hf, forallb_app, Hr. cbn [forallb].
      unfold directive, isHash, isExtinf. now rewrite Hh, Hx, Htidy.
    + destruct cur as [|first rest]; [now split|].
      split; cbn [fst snd]; [|reflexivity].
      rewrite forallb_app, Hes. cbn [forallb andb].
      rewrite andb_true_r.
      unfold openShape in Hcur.
      apply andb_true_iff in Hcur. destruct Hcur as [H Hall].
      apply andb_true_iff in H. destruct H as [Hf Hr].
      unfold entryShape. rewrite forallb_app, Hall.
      change ((first :: rest) ++ [trim rawLine])
        with (first :: (rest ++ [trim rawLine])).
      cbv iota. unfold isHash in *.
      rewrite Hf, (shapeRest_snoc _ _ Hr Hh). cbn [forallb].
      now rewrite Htidy.
Qed.

Lemma fold_groupLine_inv (lines : list jsstring) :
  forall st, groupInv st -> groupInv (fold_left groupLine lines st).
Proof.
  induction lines as [|l lines IH]; intros st H; simpl; [exact H|].
  apply IH, groupLine_inv, H.
Qed.

(** The entries of the grouping loop are those pushed on a URL line. *)
Lemma groupEntries_fold (lines : list jsstring) :
  groupEntries lines = fst (fold_left groupLine (tl lines) ([], [])).
Proof.
  unfold groupEntries.
  destruct (fold_groupLine_inv (tl lines) ([], [])) as [_ H]; [now split|].
  destruct (fold_left groupLine (tl lines) ([], [])) as [es cur].
  simpl in *. now rewrite (complete_open _ H).
Qed.

(** X1: every entry the sorter collects is complete: an [#EXTINF] line,
    then directive lines (comments that are no [#EXTINF] line), then one
    line that is no comment, all trimmed and not empty.  So no entry is an
    [#EXTINF] line left without its URL line. *)
Theorem groupEntries_complete_entries (lines : list jsstring) :
  forallb entryShape (groupEntries lines) = true.
Proof.
  rewrite groupEntries_fold.
  destruct (fold_groupLine_inv (tl lines) ([], [])) as [H _]; [now split|].
  exact H.
Qed.

(** Every line of the entries is a trimmed input line: what holds of all
    of those holds of every line kept. *)
Lemma groupEntries_lines (Q : jsstring -> bool) (lines : list jsstring) :
  forallb (fun raw => Q (trim raw)) (tl lines) = true ->
  forallb (forallb Q) (groupEntries lines) = true.
Proof.
  rewrite groupEntries_fold.
  assert (H : forall ls st,
             forallb (fun raw => Q (trim raw)) ls = true ->
             forallb (forallb Q) (fst st) = true /\ forallb Q (snd st) = true ->
             forallb (forallb Q) (fst (fold_left groupLine ls st)) = true
             /\ forallb Q (snd (fold_left groupLine ls st)) = true).
  { induction ls as [|raw ls IH]; intros [es cur] Hls [Hes Hcur];
      [now split|].
    cbn [forallb] in Hls. apply andb_true_iff in Hls. destruct Hls as [Hq Hls].
    cbn [fold_left]. apply IH; [exact Hls|]. cbn [fst snd] in Hes, Hcur.
    unfold groupLine. cbv zeta.
    destruct (truthy (trim raw)); cbn [negb]; [|now split].
    destruct (startsWith (lit "#EXTINF") (trim raw)).
    - destruct (complete cur); cbn [fst snd forallb]; rewrite ?forallb_app;
        cbn [forallb]; now rewrite ?Hes, ?Hcur, ?Hq.
    - destruct (startsWith (lit "#") (trim raw)).
      + destruct cur as [|c0 cur0]; cbn [fst snd]; [now split|].
        rewrite forallb_app, Hcur. cbn [forallb]. now rewrite Hq.
      + destruct cur as [|c0 cur0]; cbn [fst snd]; [now split|].
        rewrite forallb_app, Hes. cbn [forallb].
        rewrite forallb_app, Hcur. cbn [forallb]. now rewrite Hq. }
  intros Hls. now apply (H (tl lines) ([], []) Hls).
Qed.

Lemma groupEntries_noLF (content : jsstring) :
  forallb (forallb (noneIs LF)) (groupEntries (splitLines content)) = true.
Proof.
  apply groupEntries_lines. pose proof (splitLines_noLF content) as H.
  destruct (splitLines content) as [|l ls]; [reflexivity|].
  cbn [forallb tl] in *. apply andb_true_iff in H. destruct H as [_ H].
  rewrite forallb_forall in *. intros raw Hraw. apply trim_noneIs. auto.
Qed.

(** The lines after the first [#EXTINF] line of a complete entry close it. *)
Lemma fold_groupLine_rest (rest : list jsstring) :
  forall acc cur,
    cur <> [] -> shapeRest rest = true -> forallb tidy rest = true ->
    fold_left groupLine rest (acc, cur) = (acc ++ [cur ++ rest], []).
Proof.
  induction rest as [|d rest IH]; intros acc cur Hcur Hs Ht; [discriminate|].
  cbn [forallb] in Ht. apply andb_true_iff in Ht. destruct Ht as [Hd Ht].
  assert (Htr : truthy d = true).
  { unfold tidy in Hd. apply andb_true_iff in Hd. destruct Hd as [Hd _].
    apply andb_true_iff in Hd. tauto. }
  cbn [fold_left]. unfold groupLine at 2. cbv zeta.
  rewrite (tidy_trim _ Hd), Htr. cbn [negb].
  destruct rest as [|d2 rest].
  - cbn [shapeRest] in Hs. apply negb_true_iff in Hs. unfold isHash in Hs.
    destruct (startsWith (lit "#EXTINF") d) eqn:Hx.
    { apply isExtinf_isHash in Hx. unfold isHash in Hx. congruence. }
    rewrite Hs. destruct cur; [now elim Hcur|reflexivity].
  - change (shapeRest (d :: d2 :: rest))
      with (directive d && shapeRest (d2 :: rest)) in Hs.
    apply andb_true_iff in Hs. destruct Hs as [Hdir Hs].
    unfold directive, isHash, isExtinf in Hdir.
    apply andb_true_iff in Hdir. destruct Hdir as [Hh Hx].
    apply negb_true_iff in Hx. rewrite Hx, Hh.
    destruct cur as [|c0 cur0]; [now elim Hcur|].
    rewrite IH; [|now destruct cur0|exact Hs|exact Ht].
    now rewrite <- app_assoc.
Qed.

(** Grouping the lines of complete entries gives the entries back. *)
Lemma fold_groupLine_entries (es : list (list jsstring)) :
  forall acc,
    forallb entryShape es = true ->
    fold_left groupLine (List.concat es) (acc, []) = (acc ++ es, []).
Proof.
  induction es as [|e es IH]; intros acc H; cbn [List.concat fold_left].
  - now rewrite app_nil_r.
  - cbn [forallb] in H. apply andb_true_iff in H. destruct H as [He Hes].
    rewrite fold_left_app.
    destruct e as [|first rest]; [discriminate|].
    unfold entryShape in He. apply andb_true_iff in He. destruct He as [He Ht].
    apply andb_true_iff in He. destruct He as [Hf Hr].
    cbn [forallb] in Ht. apply andb_true_iff in Ht. destruct Ht as [Htf Htr].
    assert (Htruthy : truthy first = true).
    { unfold tidy in Htf. apply andb_true_iff in Htf. destruct Htf as [Htf _].
      apply andb_true_iff in Htf. tauto. }
    assert (Hstart : groupLine (acc, []) first = (acc, [first])).
    { unfold groupLine. cbv zeta.
      rewrite (tidy_trim _ Htf), Htruthy. cbn [negb].
      unfold isExtinf in Hf. now rewrite Hf. }
    change (fold_left groupLine (first :: rest) (acc, []))
      with (fold_left groupLine rest (groupLine (acc, []) first)).
    rewrite Hstart.
    rewrite (fold_groupLine_rest rest acc [first]); try assumption;
      [|discriminate].
    rewrite (IH _ Hes). now rewrite <- app_assoc.
Qed.

Lemma groupEntries_concat (header : jsstring) (es : list (list jsstring)) :
  forallb entryShape es = true ->
  groupEntries (header :: List.concat es) = es.
Proof.
  intros H. rewrite groupEntries_fold. cbn [tl].
  now rewrite (fold_groupLine_entries es [] H).
Qed.

Section Sorting.

Context {A : Type}.
Variable compare : A -> A -> Z.

Lemma insertSorted_perm (x : A) (l : list A) :
  Permutation (insertSorted compare x l) (x :: l).
Proof.
  induction l as [|y l IH]; simpl; [reflexivity|].
  destruct (compare x y <=? 0)%Z; [reflexivity|].
  rewrite IH. apply perm_swap.
Qed.

Lemma sortStable_perm (l : list A) : Permutation (sortStable compare l) l.
Proof.
  induction l as [|x l IH]; simpl; [reflexivity|].
  rewrite insertSorted_perm. now apply perm_skip.
Qed.

(** Sorting a sorted list changes nothing. *)
Lemma sortStable_fixed (l : list A) :
  Sorted (notAfter compare) l -> sortStable compare l = l.
Proof.
  induction 1 as [|x l Hs IH Hd]; simpl; [reflexivity|].
  rewrite IH. destruct Hd as [|y l Hxy]; simpl; [reflexivity|].
  unfold notAfter in Hxy. apply Z.leb_le in Hxy. now rewrite Hxy.
Qed.

Section Total.

Hypothesis compare_total :
  forall a b, (0 < compare a b)%Z -> (compare b a <= 0)%Z.

Lemma insertSorted_sorted (x : A) (l : list A) :
  Sorted (notAfter compare) l -> Sorted (notAfter compare) (insertSorted compare x l).
Proof.
  induction 1 as [|y l Hs IH Hd]; simpl; [repeat constructor|].
  destruct (compare x y <=? 0)%Z eqn:E.
  - constructor; [now constructor|]. constructor. now apply Z.leb_le.
  - constructor; [exact IH|].
    apply Z.leb_gt in E. apply compare_total in E.
    destruct Hd as [|z l Hyz]; simpl; [now constructor|].
    destruct (compare x z <=? 0)%Z; now constructor.
Qed.

Lemma sortStable_sorted (l : list A) :
  Sorted (notAfter compare) (sortStable compare l).
Proof.
  induction l as [|x l IH]; simpl; [constructor|].
  now apply insertSorted_sorted.
Qed.

End Total.

Section Stable.

Hypothesis compare_class :
  forall z x y,
    compare z x = 0%Z -> (0 < compare x y)%Z -> compare z y <> 0%Z.

Lemma insertSorted_class (z x : A) (l : list A) :
  filter (sameClass compare z) (insertSorted compare x l)
  = filter (sameClass compare z) (x :: l).
Proof.
  induction l as [|y l IH]; [reflexivity|]. cbn [insertSorted].
  destruct (compare x y <=? 0)%Z eqn:E; [reflexivity|].
  apply Z.leb_gt in E. cbn [filter]. rewrite IH. cbn [filter].
  destruct (sameClass compare z x) eqn:Hzx; [|reflexivity].
  assert (Hy : sameClass compare z y = false).
  { unfold sameClass in *. apply Z.eqb_eq in Hzx. apply Z.eqb_neq.
    exact (compare_class z x y Hzx E). }
  now rewrite Hy.
Qed.

Lemma sortStable_stable (z : A) (l : list A) :
  filter (sameClass compare z) (sortStable compare l)
  = filter (sameClass compare z) l.
Proof.
  induction l as [|x l IH]; [reflexivity|]. cbn [sortStable fold_right].
  fold (sortStable compare l). rewrite insertSorted_class.
  cbn [filter]. now rewrite IH.
Qed.

End Stable.

End Sorting.

Lemma codeUnitCompare_antisym (a : jsstring) :
  forall b, codeUnitCompare b a = (- codeUnitCompare a b)%Z.
Proof.
  induction a as [|c a IH]; intros [|d b]; simpl; try reflexivity.
  destruct (N.ltb_spec c d), (N.ltb_spec d c); try reflexivity; try lia.
  apply IH.
Qed.

Lemma codeUnitCompare_eq (a : jsstring) :
  forall b, codeUnitCompare a b = 0%Z -> a = b.
Proof.
  induction a as [|c a IH]; intros [|d b]; simpl; try discriminate;
    [reflexivity|].
  destruct (N.ltb_spec c d) as [|Hcd]; [discriminate|].
  destruct (N.ltb_spec d c) as [|Hdc]; [discriminate|].
  intros Heq. f_equal; [lia|now apply IH].
Qed.

Lemma codeUnitCompare_total (a b : jsstring) :
  (0 < codeUnitCompare a b)%Z -> (codeUnitCompare b a <= 0)%Z.
Proof. rewrite (codeUnitCompare_antisym a b). lia. Qed.

Lemma codeUnitCompare_class (z x y : jsstring) :
  codeUnitCompare z x = 0%Z -> (0 < codeUnitCompare x y)%Z ->
  codeUnitCompare z y <> 0%Z.
Proof. intros H. apply codeUnitCompare_eq in H. subst z. lia. Qed.

Lemma forallb_perm {A : Type} (f : A -> bool) (l l' : list A) :
  Permutation l l' -> forallb f l = true -> forallb f l' = true.
Proof.
  intros Hp H. rewrite forallb_forall in *. intros x Hx. apply H.
  apply (Permutation_in x (Permutation_sym Hp) Hx).
Qed.

Lemma forallb_concat {A : Type} (f : A -> bool) (ls : list (list A)) :
  forallb (forallb f) ls = true -> forallb f (List.concat ls) = true.
Proof.
  induction ls as [|l ls IH]; simpl; [reflexivity|].
  intros H. apply andb_true_iff in H. destruct H as [Hl Hls].
  now rewrite forallb_app, Hl, IH.
Qed.

Lemma concat_perm {A : Type} (l l' : list (list A)) :
  Permutation l l' -> Permutation (List.concat l) (List.concat l').
Proof.
  induction 1 as [|x l l' Hp IH|x y l|l l' l'' H1 IH1 H2 IH2]; simpl.
  - reflexivity.
  - now apply Permutation_app_head.
  - rewrite !app_assoc. apply Permutation_app_tail, Permutation_app_comm.
  - now transitivity (List.concat l').
Qed.

Section WithLocale.

Variable localeCompare : jsstring -> jsstring -> Z.

Local Abbreviation sortM3u := (sortM3uByGroupTitle localeCompare).
Local Abbreviation sortedEntries :=
  (fun content =>
     sortStable (compareEntries localeCompare) (groupEntries (splitLines content))).

(** A successful run, read back line by line: the header of the input and
    the lines of the sorted entries, from which the grouping loop
    recovers those entries. *)
Lemma sortM3u_lines (content out : jsstring) :
  sortM3u content = Normal out ->
  startsWith (lit "#EXTM3U") (hd [] (splitLines content)) = true
  /\ out = joinLines (hd [] (splitLines content) :: List.concat (sortedEntries content))
  /\ splitLines out
     = hd [] (splitLines content) :: List.concat (sortedEntries content)
  /\ groupEntries (splitLines out) = sortedEntries content.
Proof.
  unfold sortM3uByGroupTitle. cbv zeta.
  destruct (startsWith (lit "#EXTM3U") (hd [] (splitLines content))) eqn:Hh;
    cbn [negb]; [|discriminate].
  intros H.
  assert (Ho : out = joinLines (hd [] (splitLines content)
                                  :: List.concat (sortedEntries content))).
  { injection H as H. symmetry. exact H. }
  clear H. split; [reflexivity|]. split; [exact Ho|]. rewrite Ho.
  assert (Hshape : forallb entryShape (sortedEntries content) = true).
  { apply (forallb_perm _ _ _ (Permutation_sym (sortStable_perm _ _))).
    apply groupEntries_complete_entries. }
  assert (Hlf : forallb (noneIs LF)
                  (hd [] (splitLines content) :: List.concat (sortedEntries content))
                = true).
  { cbn [forallb]. apply andb_true_iff. split.
    - pose proof (splitLines_noLF content) as Hn.
      destruct (splitLines content) as [|l ls]; [reflexivity|].
      cbn [forallb hd] in *. apply andb_true_iff in Hn. tauto.
    - apply forallb_concat.
      apply (forallb_perm _ _ _ (Permutation_sym (sortStable_perm _ _))).
      apply groupEntries_noLF. }
  rewrite splitLines_joinLines; [|discriminate|exact Hlf].
  split; [reflexivity|]. now apply groupEntries_concat.
Qed.

(** X2: a successful sort keeps the header line as it is, and the entries
    of the file written are the complete entries of the file read,
    rearranged: none is lost, added or changed. *)
Theorem sortM3u_permutes_entries (content out : jsstring) :
  sortM3u content = Normal out ->
  hd [] (splitLines out) = hd [] (splitLines content)
  /\ Permutation (groupEntries (splitLines out))
       (groupEntries (splitLines content))
  /\ Permutation (tl (splitLines out))
       (List.concat (groupEntries (splitLines content))).
Proof.
  intros H. destruct (sortM3u_lines _ _ H) as (_ & _ & Hs & Hg).
  rewrite Hg, Hs. cbn [hd tl]. split; [reflexivity|]. split.
  - apply sortStable_perm.
  - apply concat_perm. apply sortStable_perm.
Qed.

(** X3: when [localeCompare] is total (of two strings, one does not come
    after the other), the entries of the file written are in order: the
    group title of each does not come after that of the next. *)
Theorem sortM3u_sorted (content out : jsstring) :
  (forall a b, (0 < localeCompare a b)%Z -> (localeCompare b a <= 0)%Z) ->
  sortM3u content = Normal out ->
  Sorted (notAfter (compareEntries localeCompare))
    (groupEntries (splitLines out)).
Proof.
  intros Htotal H. destruct (sortM3u_lines _ _ H) as (_ & _ & _ & ->).
  apply sortStable_sorted. intros a b. apply Htotal.
Qed.

(** X4: when strings that compare equal with [localeCompare] compare
    alike with the others, the sort is stable: the entries whose group
    titles compare equal to a given one come in the file written in the
    order they have in the file read. *)
Theorem sortM3u_stable (content out : jsstring) (z : list jsstring) :
  (forall z x y,
      localeCompare z x = 0%Z -> (0 < localeCompare x y)%Z ->
      localeCompare z y <> 0%Z) ->
  sortM3u content = Normal out ->
  filter (sameClass (compareEntries localeCompare) z)
    (groupEntries (splitLines out))
  = filter (sameClass (compareEntries localeCompare) z)
      (groupEntries (splitLines content)).
Proof.
  intros Hclass H. destruct (sortM3u_lines _ _ H) as (_ & _ & _ & ->).
  apply sortStable_stable. intros a b c. apply Hclass.
Qed.

(** X5: with a total [localeCompare], sorting is idempotent: sorting the
    file a successful sort wrote writes the same file again. *)
Theorem sortM3u_idempotent (content out : jsstring) :
  (forall a b, (0 < localeCompare a b)%Z -> (localeCompare b a <= 0)%Z) ->
  sortM3u content = Normal out ->
  sortM3u out = Normal out.
Proof.
  intros Htotal H. destruct (sortM3u_lines _ _ H) as (Hh & Ho & Hs & Hg).
  unfold sortM3uByGroupTitle. cbv zeta. rewrite Hg, Hs. cbn [hd].
  rewrite Hh. cbn [negb]. rewrite sortStable_fixed; [now rewrite <- Ho|].
  apply sortStable_sorted. intros a b. apply Htotal.
Qed.

End WithLocale.

Lemma sortM3u_permutes_entries_witness :
  sortM3uByGroupTitle codeUnitCompare unsortedPlaylist = Normal sortedPlaylist
  /\ hd [] (splitLines sortedPlaylist) = hd [] (splitLines unsortedPlaylist)
  /\ Permutation (groupEntries (splitLines sortedPlaylist))
       (groupEntries (splitLines unsortedPlaylist))
  /\ Permutation (tl (splitLines sortedPlaylist))
       (List.concat (groupEntries (splitLines unsortedPlaylist))).
Proof.
  split; [vm_compute; reflexivity|].
  apply (sortM3u_permutes_entries codeUnitCompare unsortedPlaylist sortedPlaylist).
  vm_compute. reflexivity.
Defined.

Lemma sortM3u_sorted_witness :
  (forall a b, (0 < codeUnitCompare a b)%Z -> (codeUnitCompare b a <= 0)%Z)
  /\ sortM3uByGroupTitle codeUnitCompare unsortedPlaylist = Normal sortedPlaylist
  /\ Sorted (notAfter (compareEntries codeUnitCompare))
       (groupEntries (splitLines sortedPlaylist)).
Proof.
  split; [exact codeUnitCompare_total|]. split; [vm_compute; reflexivity|].
  apply (sortM3u_sorted codeUnitCompare unsortedPlaylist sortedPlaylist
           codeUnitCompare_total).
  vm_compute. reflexivity.
Defined.

Lemma sortM3u_stable_witness :
  (forall z x y,
      codeUnitCompare z x = 0%Z -> (0 < codeUnitCompare x y)%Z ->
      codeUnitCompare z y <> 0%Z)
  /\ sortM3uByGroupTitle codeUnitCompare tiedPlaylist = Normal tiedSorted
  /\ groupEntries (splitLines tiedPlaylist)
     = [entryOf "News" "First" "http://n.example/1";
        entryOf "Arts" "Between" "http://a.example/2";
        entryOf "News" "Second" "http://n.example/3"]
  /\ filter (sameClass (compareEntries codeUnitCompare)
               (entryOf "News" "Second" "http://n.example/3"))
       (groupEntries (splitLines tiedPlaylist))
     = [entryOf "News" "First" "http://n.example/1";
        entryOf "News" "Second" "http://n.example/3"]
  /\ filter (sameClass (compareEntries codeUnitCompare)
               (entryOf "News" "Second" "http://n.example/3"))
       (groupEntries (splitLines tiedSorted))
     = filter (sameClass (compareEntries codeUnitCompare)
                 (entryOf "News" "Second" "http://n.example/3"))
         (groupEntries (splitLines tiedPlaylist)).
Proof.
  split; [exact codeUnitCompare_class|]. split; [vm_compute; reflexivity|].
  split; [vm_compute; reflexivity|]. split; [vm_compute; reflexivity|].
  apply (sortM3u_stable codeUnitCompare tiedPlaylist tiedSorted
           (entryOf "News" "Second" "http://n.example/3") codeUnitCompare_class).
  vm_compute. reflexivity.
Defined.

Lemma sortM3u_idempotent_witness :
  (forall a b, (0 < codeUnitCompare a b)%Z -> (codeUnitCompare b a <= 0)%Z)
  /\ sortM3uByGroupTitle codeUnitCompare unsortedPlaylist = Normal sortedPlaylist
  /\ sortM3uByGroupTitle codeUnitCompare sortedPlaylist = Normal sortedPlaylist.
Proof.
  split; [exact codeUnitCompare_total|]. split; [vm_compute; reflexivity|].
  apply (sortM3u_idempotent codeUnitCompare unsortedPlaylist sortedPlaylist
           codeUnitCompare_total).
  vm_compute. reflexivity.
Defined.

End SorterFacts.
Import SorterFacts.

(* ===================================================================== *)
(** ** Further properties of the formatter *)
(* ===================================================================== *)

Module FormatterMore.

(** The three ways [cleanLine] computes its result. *)
Lemma cleanLine_cases (l : jsstring) :
  (startsWith (lit "#EXTINF") (trim l) = false
   /\ cleanLine l = collapseWs (trim l))
  \/ (startsWith (lit "#EXTINF") (trim l) = true
      /\ indexOf comma (collapseWs (trim l)) = None
      /\ cleanLine l = collapseWs (trim l))
  \/ (startsWith (lit "#EXTINF") (trim l) = true
      /\ exists pre post,
           collapseWs (trim l) = pre ++ comma :: post
           /\ noneIs comma pre = true
           /\ cleanLine l = pre ++ comma :: trim post).
Proof.
  unfold cleanLine.
  destruct (startsWith (lit "#EXTINF") (trim l)) eqn:Hx; [|now left].
  right. destruct (indexOf comma (collapseWs (trim l))) as [i|] eqn:E.
  - right. split; [reflexivity|].
    destruct (indexOf_split _ _ _ E) as (Hs & Hp & _).
    exists (firstn i (collapseWs (trim l))),
           (skipn (S i) (collapseWs (trim l))).
    split; [exact Hs|]. split; [exact Hp|reflexivity].
  - left. now split.
Qed.

Lemma cleanLine_spaced (l : jsstring) : singleSpaced (cleanLine l) = true.
Proof.
  destruct (cleanLine_cases l)
    as [[_ ->]|[(_ & _ & ->)|(_ & pre & post & Hc & _ & ->)]];
    try apply collapseWs_spaced.
  pose proof (collapseWs_spaced (trim l)) as H. rewrite Hc in H.
  change (pre ++ comma :: post) with (pre ++ [comma] ++ post) in H.
  rewrite app_assoc in H. apply singleSpaced_app_inv in H.
  destruct H as [H1 H2].
  change (pre ++ comma :: trim post) with (pre ++ [comma] ++ trim post).
  rewrite app_assoc.
  apply singleSpaced_app; [exact H1|now apply trim_spaced|].
  apply trim_headNonWs.
Qed.

Lemma cleanLine_nonWs (l : jsstring) :
  filter nonWs (cleanLine l) = filter nonWs l.
Proof.
  assert (Hc : filter nonWs (collapseWs (trim l)) = filter nonWs l).
  { unfold collapseWs. now rewrite replaceWsRuns_nonWs, trim_nonWs. }
  destruct (cleanLine_cases l)
    as [[_ ->]|[(_ & _ & ->)|(_ & pre & post & Hs & _ & ->)]];
    try exact Hc.
  rewrite <- Hc, Hs, !filter_app. simpl. now rewrite trim_nonWs.
Qed.

(** Collapsing changes nothing in a string whose white space is collapsed. *)
Lemma replaceWsRuns_fixed (s : jsstring) :
  singleSpaced s = true ->
  replaceWsRuns false s = s
  /\ (headNonWs s = true -> replaceWsRuns true s = s).
Proof.
  induction s as [|c s IH]; [now split|].
  cbn [singleSpaced]. intros H. apply andb_true_iff in H.
  destruct H as [Hc Hs]. destruct (IH Hs) as [IHf IHt].
  cbn [replaceWsRuns]. unfold nonWs in Hc.
  destruct (isWs c) eqn:Hw; cbn [negb orb] in Hc.
  - apply andb_true_iff in Hc. destruct Hc as [Hsp Hh].
    apply N.eqb_eq in Hsp. subst c. split.
    + now rewrite (IHt Hh).
    + cbn [headNonWs]. unfold nonWs. rewrite Hw. discriminate.
  - rewrite IHf. now split.
Qed.

Lemma collapseWs_fixed (s : jsstring) :
  singleSpaced s = true -> collapseWs s = s.
Proof. intros H. now apply replaceWsRuns_fixed. Qed.

(** A prefix without a comma of a string is one of every string that
    agrees with it up to its first comma. *)
Lemma startsWith_before_comma (p : jsstring) :
  noneIs comma p = true ->
  forall pre a b,
    startsWith p (pre ++ comma :: a) = true ->
    startsWith p (pre ++ comma :: b) = true.
Proof.
  induction p as [|x p IH]; intros Hp pre a b H; [reflexivity|].
  cbn [noneIs forallb] in Hp. apply andb_true_iff in Hp.
  destruct Hp as [Hx Hp]. apply negb_true_iff in Hx.
  destruct pre as [|c pre]; cbn [app startsWith] in *.
  - rewrite Hx in H. discriminate.
  - apply andb_true_iff in H. destruct H as [Hc H].
    rewrite Hc. exact (IH Hp pre a b H).
Qed.

(** X6: [cleanLine] is idempotent: a cleaned line is left as it is. *)
Theorem cleanLine_idempotent (l : jsstring) :
  cleanLine (cleanLine l) = cleanLine l.
Proof.
  destruct (cleanLine_ends l) as [Hh Hl].
  pose proof (trim_id _ Hh Hl) as Htrim.
  pose proof (collapseWs_fixed _ (cleanLine_spaced l)) as Hfix.
  assert (Hx : startsWith (lit "#EXTINF") (cleanLine l)
               = startsWith (lit "#EXTINF") (trim l)).
  { destruct (cleanLine_cases l)
      as [[_ ->]|[(_ & _ & ->)|(Hx & pre & post & Hs & Hp & ->)]];
      try (now apply startsWith_collapseWs).
    rewrite Hx.
    apply (startsWith_before_comma (lit "#EXTINF") eq_refl pre post).
    rewrite <- Hs. now rewrite startsWith_collapseWs. }
  unfold cleanLine at 1. rewrite Htrim, Hx, Hfix.
  destruct (cleanLine_cases l)
    as [[Hn _]|[(Hy & Hi & Hc)|(Hy & pre & post & Hs & Hp & Hc)]].
  - now rewrite Hn.
  - rewrite Hy, Hc, Hi. reflexivity.
  - rewrite Hy, Hc, (indexOf_first _ _ _ Hp).
    unfold substringTo, substringFrom. rewrite firstn_length_app.
    change (S (List.length pre)) with (1 + List.length pre)%nat.
    rewrite <- skipn_skipn, skipn_length_app. cbn [skipn].
    now rewrite trim_trim.
Qed.

Lemma singleSpaced_noLF (s : jsstring) :
  singleSpaced s = true -> noneIs LF s = true.
Proof.
  induction s as [|c s IH]; [reflexivity|]. cbn [singleSpaced noneIs forallb].
  intros H. apply andb_true_iff in H. destruct H as [Hc Hs].
  fold (noneIs LF s). rewrite (IH Hs), andb_true_r.
  apply negb_true_iff, N.eqb_neq. intros ->. discriminate Hc.
Qed.

Lemma cleanedLines_noLF (content : jsstring) :
  forallb (noneIs LF) (cleanedLines content) = true.
Proof.
  unfold cleanedLines. rewrite forallb_forall. intros l Hl.
  apply filter_In in Hl. destruct Hl as [Hl _].
  apply in_map_iff in Hl. destruct Hl as (l0 & <- & _).
  apply singleSpaced_noLF, cleanLine_spaced.
Qed.

Lemma cleanedLines_fixed (ls : list jsstring) :
  filter truthy (map cleanLine (filter truthy (map cleanLine ls)))
  = filter truthy (map cleanLine ls).
Proof.
  induction ls as [|l ls IH]; [reflexivity|]. cbn [map filter].
  destruct (truthy (cleanLine l)) eqn:Ht; [|exact IH].
  cbn [map filter]. rewrite cleanLine_idempotent, Ht. now f_equal.
Qed.

Lemma joinLines_snoc_empty (ls : list jsstring) :
  ls <> [] -> joinLines ls ++ [LF] = joinLines (ls ++ [[]]).
Proof.
  induction ls as [|a l IH]; intros Hl; [now elim Hl|].
  destruct l as [|b l]; [reflexivity|].
  change (joinLines ((a :: b :: l) ++ [[]]))
    with (a ++ LF :: joinLines ((b :: l) ++ [[]])).
  rewrite <- IH by discriminate.
  change (joinLines (a :: b :: l)) with (a ++ LF :: joinLines (b :: l)).
  now rewrite <- app_assoc.
Qed.

(** The file written, read back line by line. *)
Lemma cleanM3u_split (content : jsstring) :
  cleanedLines content <> [] ->
  splitLines (cleanM3u content) = cleanedLines content ++ [[]].
Proof.
  intros Hne. rewrite cleanM3u_lines. fold (cleanedLines content).
  rewrite (joinLines_snoc_empty _ Hne). apply splitLines_joinLines.
  - now destruct (cleanedLines content).
  - rewrite forallb_app, cleanedLines_noLF. reflexivity.
Qed.

(** X7: the lines of the file [cleanM3u] writes are the cleaned, non-empty
    lines of the file read and one empty line after the final line feed;
    each has its white space collapsed and none at its ends.  A file with
    blank lines only becomes a single line feed. *)
Theorem cleanM3u_output_lines (content : jsstring) :
  (cleanedLines content <> [] ->
   splitLines (cleanM3u content) = cleanedLines content ++ [[]])
  /\ (cleanedLines content = [] -> cleanM3u content = [LF])
  /\ forallb tidy (cleanedLines content) = true
  /\ forallb singleSpaced (cleanedLines content) = true.
Proof.
  split; [|split; [|split]].
  - apply cleanM3u_split.
  - intros He. rewrite cleanM3u_lines. fold (cleanedLines content).
    now rewrite He.
  - apply cleaned_lines_tidy.
  - unfold cleanedLines. rewrite forallb_forall. intros l Hl.
    apply filter_In in Hl. destruct Hl as [Hl _].
    apply in_map_iff in Hl. destruct Hl as (l0 & <- & _).
    apply cleanLine_spaced.
Qed.

(** Cleaning the lines of the file written gives the same lines. *)
Lemma cleanedLines_again (content : jsstring) :
  filter truthy (map cleanLine (splitLines (cleanM3u content)))
  = cleanedLines content.
Proof.
  destruct (cleanedLines content) as [|a l] eqn:E.
  - rewrite (cleanM3u_lines content). fold (cleanedLines content).
    now rewrite E.
  - rewrite cleanM3u_split by (rewrite E; discriminate).
    rewrite map_app, filter_app. cbn [map filter].
    change (truthy (cleanLine [])) with false. cbv iota.
    rewrite app_nil_r. unfold cleanedLines. rewrite cleanedLines_fixed.
    exact E.
Qed.

(** X8: [cleanM3u] is idempotent: cleaning a cleaned file writes the same
    file. *)
Theorem cleanM3u_idempotent (content : jsstring) :
  cleanM3u (cleanM3u content) = cleanM3u content.
Proof.
  rewrite (cleanM3u_lines (cleanM3u content)), cleanedLines_again.
  symmetry. apply cleanM3u_lines.
Qed.

Lemma filter_nonWs_joinLines (ls : list jsstring) :
  filter nonWs (joinLines ls) = List.concat (map (filter nonWs) ls).
Proof.
  induction ls as [|l ls IH]; [reflexivity|].
  destruct ls as [|l2 ls]; [simpl; now rewrite app_nil_r|].
  change (joinLines (l :: l2 :: ls)) with (l ++ LF :: joinLines (l2 :: ls)).
  rewrite filter_app. cbn [filter map List.concat] in *.
  change (nonWs LF) with false. cbv iota. now rewrite IH.
Qed.

(** X9: [cleanM3u] only touches white space: the code units of the file
    written that are no white space are those of the file read, in the
    same order. *)
Theorem cleanM3u_keeps_non_whitespace (content : jsstring) :
  filter nonWs (cleanM3u content) = filter nonWs content.
Proof.
  rewrite cleanM3u_lines, filter_app. cbn [filter].
  change (nonWs LF) with false. cbv iota. rewrite app_nil_r.
  rewrite <- (joinLines_splitLines content) at 2.
  rewrite !filter_nonWs_joinLines.
  induction (splitLines content) as [|l ls IH]; [reflexivity|].
  cbn [map filter].
  destruct (truthy (cleanLine l)) eqn:Ht; cbn [map List.concat].
  - now rewrite cleanLine_nonWs, IH.
  - rewrite IH, <- (cleanLine_nonWs l).
    destruct (cleanLine l); [reflexivity|discriminate].
Qed.

End FormatterMore.
Import FormatterMore.

(* ===================================================================== *)
(** ** Properties of the command lines *)
(* ===================================================================== *)

Module ScriptFacts.

Lemma eqb_refl (s : jsstring) : Js.eqb s s = true.
Proof.
  induction s as [|c s IH]; [reflexivity|]. simpl.
  now rewrite N.eqb_refl, IH.
Qed.




(** The scripts on a file that can be read and not written: status 1 and
    the message of the error of the write. *)
Example sortMain_read_only :
  sortMain readOnly codeUnitCompare (Some (lit "list.m3u"))
    (oneFile (lit "list.m3u") unsortedPlaylist)
  = mkRun 1 None
      [lit "Error: EACCES: permission denied, open 'list.m3u'"].
Proof. vm_compute. reflexivity. Qed.

Example cleanMain_read_only :
  cleanMain readOnly (Some (lit "list.m3u"))
    (oneFile (lit "list.m3u") unsortedPlaylist)
  = mkRun 1 None
      [lit "Error cleaning StreamOn-T1.m3u: EACCES: permission denied, open 'list.m3u'"].
Proof. vm_compute. reflexivity. Qed.

Example sortMain_writable :
  sortMain writable codeUnitCompare (Some (lit "list.m3u"))
    (oneFile (lit "list.m3u") unsortedPlaylist)
  = mkRun 0 (Some (lit "list.m3u", sortedPlaylist))
      [lit "M3U file has been sorted by group-title"].
Proof. vm_compute. reflexivity. Qed.

End ScriptFacts.
Import ScriptFacts.

(* ===================================================================== *)
(** ** Further properties of the parser *)
(* ===================================================================== *)

Module ParserMore.

Lemma parseContent_url_checked (v : jsstring -> bool) (content : jsstring) :
  forallb (fun e => v (url e)) (parseContent v content) = true.
Proof.
  rewrite forallb_forall. intros e He.
  assert (Hu : In (url e) (urlLines v content)).
  { rewrite <- parseContent_urls. now apply in_map. }
  unfold urlLines in Hu. apply filter_In in Hu. destruct Hu as [_ Hu].
  unfold isUrlLine in Hu. apply andb_true_iff in Hu. tauto.
Qed.

(** X12: every entry of the parser carries a URL that passed the URL check,
    is no comment, is not empty and has no white space at its ends. *)
Theorem parseContent_urls_valid (v : jsstring -> bool) (content : jsstring) :
  forallb (fun e => v (url e) && negb (isHash (url e)) && tidy (url e))
    (parseContent v content) = true.
Proof.
  rewrite forallb_forall. intros e He.
  assert (Hu : In (url e) (urlLines v content)).
  { rewrite <- parseContent_urls. now apply in_map. }
  unfold urlLines in Hu. apply filter_In in Hu. destruct Hu as [Hin Hu].
  apply in_map_iff in Hin. destruct Hin as (raw & Hraw & _).
  unfold isUrlLine in Hu. apply andb_true_iff in Hu. destruct Hu as [Hu Hv].
  apply andb_true_iff in Hu. destruct Hu as [Ht Hh].
  unfold isHash. rewrite Hv, Hh. cbn [andb].
  rewrite <- Hraw in *. now apply trim_tidy.
Qed.

Lemma parseLine_ignored (v : jsstring -> bool) (st : ParseState) (line : jsstring) :
  ignored v line = true -> parseLine v st line = st.
Proof.
  unfold ignored, urlish. intros H. apply andb_true_iff in H.
  destruct H as [Hx Hu]. apply negb_true_iff in Hx, Hu.
  destruct st as [es cur]. unfold parseLine. now rewrite Hx, Hu.
Qed.

Lemma fold_parseLine_ignored (v : jsstring -> bool) (mid : list jsstring) :
  forall st, forallb (ignored v) mid = true ->
             fold_left (parseLine v) mid st = st.
Proof.
  induction mid as [|l mid IH]; intros st H; [reflexivity|].
  cbn [forallb] in H. apply andb_true_iff in H. destruct H as [Hl Hm].
  cbn [fold_left]. rewrite (parseLine_ignored _ _ _ Hl). now apply IH.
Qed.

Lemma parseLine_url (v : jsstring -> bool) (es : list Entry)
    (cur : option Metadata) (u : jsstring) :
  urlish v u = true ->
  parseLine v (es, cur) u
  = (es ++ [mkEntry u
              (match cur with Some m => md_title m | None => lit "Unknown" end)
              (match cur with Some m => md_groupTitle m | None => [] end)],
     None).
Proof.
  intros Hu. unfold parseLine.
  destruct (startsWith (lit "#EXTINF:") u) eqn:Hx.
  - apply startsWith_extinf_hash in Hx. unfold urlish in Hu.
    rewrite Hx in Hu. discriminate.
  - unfold urlish in Hu. now rewrite Hu.
Qed.

(** X13: a URL line takes the metadata of the nearest [#EXTINF:] line
    before it, whatever lines the loop passes over lie between the two
    (other comments, invalid URLs) and whatever came earlier: the entry
    added has the title and group of that line, and nothing stays
    pending. *)
Theorem parseLines_pairs_metadata_with_url
    (v : jsstring -> bool) (pre mid : list jsstring) (ext u : jsstring) :
  startsWith (lit "#EXTINF:") ext = true ->
  forallb (ignored v) mid = true ->
  urlish v u = true ->
  parseLines v (pre ++ ext :: mid ++ [u])
  = (fst (parseLines v pre)
     ++ [mkEntry u (md_title (parseExtinf ext))
           (md_groupTitle (parseExtinf ext))],
     None).
Proof.
  intros Hx Hm Hu. unfold parseLines. rewrite fold_left_app.
  cbn [fold_left]. rewrite (parseLine_extinf v _ ext Hx).
  rewrite fold_left_app, (fold_parseLine_ignored v mid _ Hm).
  cbn [fold_left]. now rewrite (parseLine_url v _ _ u Hu).
Qed.

(** X14: metadata serves one URL line only: a URL line that follows
    another URL line with no [#EXTINF:] line between them gets the title
    [Unknown] and an empty group. *)
Theorem parseLines_metadata_used_once
    (v : jsstring -> bool) (pre mid : list jsstring) (u1 u2 : jsstring) :
  urlish v u1 = true ->
  forallb (ignored v) mid = true ->
  urlish v u2 = true ->
  parseLines v (pre ++ u1 :: mid ++ [u2])
  = (fst (parseLines v (pre ++ [u1])) ++ [mkEntry u2 (lit "Unknown") []],
     None).
Proof.
  intros H1 Hm H2. unfold parseLines. rewrite !fold_left_app.
  cbn [fold_left].
  destruct (fold_left (parseLine v) pre ([], None)) as [es cur].
  rewrite (parseLine_url v es cur u1 H1).
  rewrite fold_left_app, (fold_parseLine_ignored v mid _ Hm).
  cbn [fold_left fst]. now rewrite (parseLine_url v _ None u2 H2).
Qed.

(** X15: the group title the parser stores for a metadata line, when it is
    not empty, is the value of a [group-title] attribute written in that
    line between double quotes, and holds no double quote itself. *)
Theorem parseExtinf_groupTitle_in_line (line : jsstring) :
  md_groupTitle (parseExtinf line) <> [] ->
  exists a b,
    line = a ++ groupTitleKey ++ md_groupTitle (parseExtinf line) ++ dquote :: b
    /\ noneIs dquote (md_groupTitle (parseExtinf line)) = true.
Proof.
  unfold parseExtinf.
  destruct (matchExtinf line) as [content|] eqn:Hm; [|now intros H].
  destruct (lastIndexOf comma content) as [i|]; [|now intros H].
  cbn [md_groupTitle]. unfold substringTo.
  destruct (matchGroupTitle (trim (firstn i content))) as [g|] eqn:Hg;
    [|now intros H].
  intros _. destruct (matchGroupTitle_sound _ _ Hg) as (a & b & Ha & _ & Hq).
  destruct (trim_split (firstn i content)) as (wa & wb & Hw & _ & _).
  assert (Hline : line = lit "#EXTINF:" ++ content).
  { unfold matchExtinf in Hm.
    destruct (startsWith (lit "#EXTINF:") line) eqn:Hs; [|discriminate].
    apply startsWith_split in Hs.
    destruct (truthy (skipn 8 line)
              && forallb (fun c => negb (isLineTerminator c)) (skipn 8 line));
      [|discriminate].
    injection Hm as <-. exact Hs. }
  exists (lit "#EXTINF:" ++ wa ++ a), (b ++ wb ++ skipn i content).
  split; [|exact Hq].
  rewrite Hline at 1. rewrite <- (firstn_skipn i content) at 1.
  rewrite Hw, Ha.
  repeat (rewrite <- app_assoc || rewrite <- app_comm_cons). reflexivity.
Qed.

Lemma parseLines_pairs_metadata_with_url_witness :
  startsWith (lit "#EXTINF:") extinfNews = true
  /\ forallb (ignored sampleValidUrl)
       [lit "#EXTVLCOPT:network-caching=1000"; lit "not a url"] = true
  /\ urlish sampleValidUrl newsUrl = true
  /\ parseLines sampleValidUrl
       ([lit "#EXTM3U"; lit "#EXTINF:-1,Old"]
        ++ extinfNews
           :: [lit "#EXTVLCOPT:network-caching=1000"; lit "not a url"]
           ++ [newsUrl])
     = (fst (parseLines sampleValidUrl [lit "#EXTM3U"; lit "#EXTINF:-1,Old"])
        ++ [mkEntry newsUrl (md_title (parseExtinf extinfNews))
              (md_groupTitle (parseExtinf extinfNews))],
        None).
Proof.
  split; [reflexivity|]. split; [reflexivity|]. split; [reflexivity|].
  apply (parseLines_pairs_metadata_with_url sampleValidUrl
           [lit "#EXTM3U"; lit "#EXTINF:-1,Old"]
           [lit "#EXTVLCOPT:network-caching=1000"; lit "not a url"]
           extinfNews newsUrl); reflexivity.
Defined.

Lemma parseLines_metadata_used_once_witness :
  urlish sampleValidUrl newsUrl = true
  /\ forallb (ignored sampleValidUrl) [lit "#EXTVLCOPT:x"] = true
  /\ urlish sampleValidUrl (lit "http://example.com/second") = true
  /\ parseLines sampleValidUrl
       ([extinfNews] ++ newsUrl :: [lit "#EXTVLCOPT:x"]
        ++ [lit "http://example.com/second"])
     = (fst (parseLines sampleValidUrl ([extinfNews] ++ [newsUrl]))
        ++ [mkEntry (lit "http://example.com/second") (lit "Unknown") []],
        None).
Proof.
  split; [reflexivity|]. split; [reflexivity|]. split; [reflexivity|].
  apply (parseLines_metadata_used_once sampleValidUrl [extinfNews]
           [lit "#EXTVLCOPT:x"] newsUrl (lit "http://example.com/second"));
    reflexivity.
Defined.

Lemma parseExtinf_groupTitle_in_line_witness :
  md_groupTitle (parseExtinf extinfNews) <> []
  /\ exists a b,
       extinfNews
       = a ++ groupTitleKey ++ md_groupTitle (parseExtinf extinfNews)
         ++ dquote :: b
       /\ noneIs dquote (md_groupTitle (parseExtinf extinfNews)) = true.
Proof.
  split; [discriminate|].
  apply (parseExtinf_groupTitle_in_line extinfNews). discriminate.
Defined.

End ParserMore.
Import ParserMore.

(* ===================================================================== *)
(** ** Further properties of the prober *)
(* ===================================================================== *)

Module ProberMore.

Section WithPlatform.

Variable isValidUrl : jsstring -> bool.
Variable requestError : jsstring -> option JsError.
Variable net : nat -> Request -> Outcome.

Local Abbreviation makeRequest :=
  (Checker.makeRequest isValidUrl requestError net).
Local Abbreviation checkUrlFrom :=
  (Checker.checkUrlFrom isValidUrl requestError net).
Local Abbreviation checkUrl := (Checker.checkUrl isValidUrl requestError net).
Local Abbreviation attemptEvents :=
  (ProbeShapes.attemptEvents isValidUrl requestError net).
Local Abbreviation afterAttempt :=
  (ProbeShapes.afterAttempt isValidUrl requestError net).

Lemma afterAttempt_nothing (url : jsstring) (w : World) :
  sendable isValidUrl requestError url = false -> afterAttempt url w = w.
Proof.
  intros H. unfold ProbeShapes.afterAttempt, ProbeShapes.attemptEvents.
  rewrite H. cbn [requestsOf List.length Nat.add]. destruct w.
  cbn [issued trace]. now rewrite app_nil_r.
Qed.

Lemma makeRequest_events (url : jsstring) (w : World) :
  snd (makeRequest url w) = afterAttempt url w.
Proof.
  destruct (isValidUrl url) eqn:Hv.
  2:{ rewrite (makeRequest_invalid _ _ _ _ _ Hv), afterAttempt_nothing;
        [reflexivity|]. unfold sendable. now rewrite Hv. }
  destruct (requestError url) as [e0|] eqn:Hq.
  { rewrite (makeRequest_refused _ _ _ _ _ _ Hv Hq), afterAttempt_nothing;
      [reflexivity|]. unfold sendable. now rewrite Hv, Hq. }
  rewrite (makeRequest_accepted _ _ _ _ _ Hv Hq). cbv zeta.
  unfold ProbeShapes.afterAttempt, ProbeShapes.attemptEvents, sendable.
  rewrite Hv, Hq. cbn [andb].
  destruct (net (issued w) (headOptions url)) as [s| |e]; cbn [issued trace].
  - destruct (s =? 405); cbn [issued trace snd].
    + rewrite (makeGetRequest_run _ _ _ _ _ Hv Hq). cbn [snd issued trace].
      now rewrite <- app_assoc.
    + reflexivity.
  - reflexivity.
  - destruct (codeIs e (lit "ECONNREFUSED")); [reflexivity|].
    destruct (codeIs e (lit "ENOTFOUND")); [reflexivity|].
    destruct (codeIs e (lit "ETIMEDOUT")); reflexivity.
Qed.

(** The result of a probe, by the completions of its attempts. *)
Lemma checkUrl_by_attempts (url : jsstring) (w : World) :
  checkUrl url w
  = match fst (makeRequest url w) with
    | Normal s => (Normal (Some (resultOfStatus s)), afterAttempt url w)
    | Throw _ =>
        let w1 := mkWorld (issued (afterAttempt url w))
                    (trace (afterAttempt url w) ++ [EvSleep 1000]) in
        (Normal (Some match fst (makeRequest url w1) with
                      | Normal s => resultOfStatus s
                      | Throw e => mkProbeResult false (err_message e) 0
                      end),
         afterAttempt url w1)
    end.
Proof.
  unfold Checker.checkUrl. change (N.to_nat MAX_RETRIES) with 2%nat.
  rewrite checkUrlFrom_step. rewrite <- (makeRequest_events url w).
  destruct (makeRequest url w) as [[s|e] w1]; cbn [fst snd]; [reflexivity|].
  change (0 =? MAX_RETRIES - 1) with false. cbv iota.
  rewrite checkUrlFrom_step.
  change (DELAY_BETWEEN_REQUESTS * (0 + 1)) with 1000.
  cbv zeta. rewrite <- (makeRequest_events url (mkWorld (issued w1) _)).
  destruct (makeRequest url (mkWorld (issued w1) (trace w1 ++ [EvSleep 1000])))
    as [[s|e2] w2]; cbn [fst snd]; reflexivity.
Qed.

(** X16: the schedule of a probe.  When the first attempt resolves, the
    probe adds the events of that attempt and nothing else.  When it
    rejects, the probe sleeps once, for 1000 ms, and makes the second
    attempt: it never sleeps after the last attempt, and never makes a third
    one.  The events of an attempt are its HEAD request and what it comes
    to, with the GET request after a 405; an attempt that stops before the
    request ([new URL] rejects the string or [lib.request] refuses the
    options) adds nothing. *)
Theorem checkUrl_retry_schedule (url : jsstring) (w : World) :
  exists r w',
    checkUrl url w = (Normal (Some r), w')
    /\ match fst (makeRequest url w) with
       | Normal s =>
           r = resultOfStatus s
           /\ trace w' = trace w ++ attemptEvents url (issued w)
       | Throw _ =>
           trace w'
           = trace w ++ attemptEvents url (issued w)
             ++ EvSleep 1000
                :: attemptEvents url
                     (List.length (requestsOf (attemptEvents url (issued w)))
                      + issued w)
       end.
Proof.
  rewrite checkUrl_by_attempts.
  destruct (fst (makeRequest url w)) as [s|e].
  - do 2 eexists. split; [reflexivity|]. now split.
  - cbv zeta. do 2 eexists. split; [reflexivity|].
    unfold ProbeShapes.afterAttempt. cbn [issued trace].
    now rewrite <- !app_assoc.
Qed.

(** X17: an HTTP status is final: when the first HEAD request of a probe
    (of a URL whose options [lib.request] accepts) is answered with a
    status other than 405, the probe issues that one
    request, does not sleep, does not retry, and returns the result of
    that status. *)
Theorem checkUrl_status_is_not_retried (url : jsstring) (w : World) (s : N) :
  isValidUrl url = true ->
  requestError url = None ->
  net (issued w) (headOptions url) = Response s ->
  s <> 405 ->
  checkUrl url w
  = (Normal (Some (resultOfStatus s)),
     mkWorld (S (issued w))
       (trace w ++ [EvRequest (headOptions url); EvSettled (Response s)])).
Proof.
  intros Hv Hq Hn Hs. apply N.eqb_neq in Hs. rewrite checkUrl_by_attempts.
  unfold ProbeShapes.afterAttempt, ProbeShapes.attemptEvents, sendable.
  rewrite (makeRequest_accepted _ _ _ _ _ Hv Hq). cbv zeta.
  rewrite Hv, Hq, Hn, Hs. reflexivity.
Qed.

(** X18: the result of a probe is well formed: an alive result has an
    empty error and a status below 400; a dead result has status 0, or a
    status of 400 or more with the error [HTTP] followed by that status. *)
Theorem checkUrl_result_well_formed (url : jsstring) (w : World) :
  exists r w',
    checkUrl url w = (Normal (Some r), w')
    /\ (isAlive r = true -> error r = [] /\ statusCode r < 400)
    /\ (isAlive r = false ->
        statusCode r = 0
        \/ (400 <= statusCode r
            /\ error r = lit "HTTP " ++ ofNumber (statusCode r))).
Proof.
  assert (Hres : forall s,
             (isAlive (resultOfStatus s) = true ->
              error (resultOfStatus s) = []
              /\ statusCode (resultOfStatus s) < 400)
             /\ (isAlive (resultOfStatus s) = false ->
                 statusCode (resultOfStatus s) = 0
                 \/ (400 <= statusCode (resultOfStatus s)
                     /\ error (resultOfStatus s)
                        = lit "HTTP " ++ ofNumber (statusCode (resultOfStatus s))))).
  { intros s. unfold resultOfStatus.
    destruct (N.ltb_spec s 400); cbn [isAlive error statusCode].
    - split; [auto|discriminate].
    - split; [discriminate|auto]. }
  rewrite checkUrl_by_attempts.
  destruct (fst (makeRequest url w)) as [s|e].
  - do 2 eexists. split; [reflexivity|]. apply Hres.
  - cbv zeta. do 2 eexists. split; [reflexivity|].
    match goal with |- context [fst ?c] => destruct (fst c) as [s|e2] end.
    + apply Hres.
    + cbn [isAlive error statusCode]. split; [discriminate|auto].
Qed.

(** An attempt that rejects without an ['error'] event on a GET request
    rejects with a classified message. *)
Lemma makeRequest_throw_classified (url : jsstring) (w : World) (e : JsError) :
  isValidUrl url = true ->
  requestError url = None ->
  (forall n e', net n (getOptions url) <> Failed e') ->
  fst (makeRequest url w) = Throw e ->
  classified (err_message e) = true.
Proof.
  intros Hv Hq Hg. rewrite (makeRequest_accepted _ _ _ _ _ Hv Hq). cbv zeta.
  destruct (net (issued w) (headOptions url)) as [s| |e1]; cbn [issued trace].
  - destruct (s =? 405); [|discriminate].
    rewrite (makeGetRequest_run _ _ _ _ _ Hv Hq). cbn [issued fst].
    destruct (net (S (issued w)) (getOptions url)) as [s2| |e2] eqn:Hn;
      intros H; [discriminate|now injection H as <-|now elim (Hg _ _ Hn)].
  - cbn [fst]. intros H. now injection H as <-.
  - destruct (codeIs e1 (lit "ECONNREFUSED"));
      [|destruct (codeIs e1 (lit "ENOTFOUND"));
        [|destruct (codeIs e1 (lit "ETIMEDOUT"))]];
      cbn [fst]; intros H; now injection H as <-.
Qed.

(** X19: a probe whose requests are issued ([new URL] accepts the string
    and [lib.request] the options) and none of whose GET requests ends in
    an ['error'] event returns, when it fails by transport on its last
    attempt, one of the classified messages: [Timeout after 10000ms],
    [Connection refused], [Host not found], [Connection timeout] or
    [Connection error: ] and the detail. *)
Theorem checkUrl_transport_failure_classified (url : jsstring) (w : World) :
  isValidUrl url = true ->
  requestError url = None ->
  (forall n e, net n (getOptions url) <> Failed e) ->
  exists r w' evs,
    checkUrl url w = (Normal (Some r), w')
    /\ trace w' = trace w ++ evs
    /\ (finalStatus evs = None ->
        isAlive r = false /\ statusCode r = 0
        /\ classified (error r) = true).
Proof.
  intros Hv Hq Hg.
  destruct (checkUrl_run isValidUrl requestError net url w)
    as (r & w' & evs & Hrun & Htr & [_ _ Hs Hf]).
  exists r, w', evs. split; [exact Hrun|]. split; [exact Htr|].
  intros Hnone. destruct (Hf Hnone) as (Ha & Hc & _).
  split; [exact Ha|]. split; [exact Hc|].
  rewrite checkUrl_by_attempts in Hrun.
  destruct (fst (makeRequest url w)) as [s|e] eqn:E1.
  - injection Hrun as <- _. rewrite resultOfStatus_isAlive in Ha.
    rewrite resultOfStatus_statusCode in Hc. subst s. discriminate Ha.
  - cbv zeta in Hrun.
    match type of Hrun with
    | context [fst ?c] => destruct (fst c) as [s|e2] eqn:E2
    end.
    + injection Hrun as <- _. rewrite resultOfStatus_isAlive in Ha.
      rewrite resultOfStatus_statusCode in Hc. subst s. discriminate Ha.
    + injection Hrun as <- _. cbn [error].
      exact (makeRequest_throw_classified url _ e2 Hv Hq Hg E2).
Qed.

(** X20: a string that is no URL is never requested: the probe issues no
    request, sleeps once between its two attempts and returns a dead
    result with status 0 and the message of the URL error. *)
Theorem checkUrl_invalid_url (url : jsstring) (w : World) :
  isValidUrl url = false ->
  checkUrl url w
  = (Normal (Some (mkProbeResult false (err_message invalidUrlError) 0)),
     mkWorld (issued w) (trace w ++ [EvSleep 1000])).
Proof.
  intros Hv. rewrite checkUrl_by_attempts.
  assert (Hs : sendable isValidUrl requestError url = false).
  { unfold sendable. now rewrite Hv. }
  rewrite (afterAttempt_nothing _ _ Hs), (makeRequest_invalid _ _ _ _ _ Hv).
  cbn [fst]. cbv zeta.
  rewrite (afterAttempt_nothing _ _ Hs), (makeRequest_invalid _ _ _ _ _ Hv).
  reflexivity.
Qed.

(** X27: a URL whose options [lib.request] refuses is never requested:
    both attempts stop at the error thrown, the probe sleeps once between
    them and returns a dead result with status 0 and the message of that
    error as it is. *)
Theorem checkUrl_options_refused (url : jsstring) (w : World) (e : JsError) :
  isValidUrl url = true ->
  requestError url = Some e ->
  checkUrl url w
  = (Normal (Some (mkProbeResult false (err_message e) 0)),
     mkWorld (issued w) (trace w ++ [EvSleep 1000])).
Proof.
  intros Hv Hq. rewrite checkUrl_by_attempts.
  assert (Hs : sendable isValidUrl requestError url = false).
  { unfold sendable. now rewrite Hv, Hq. }
  rewrite (afterAttempt_nothing _ _ Hs), (makeRequest_refused _ _ _ _ _ _ Hv Hq).
  cbn [fst]. cbv zeta.
  rewrite (afterAttempt_nothing _ _ Hs), (makeRequest_refused _ _ _ _ _ _ Hv Hq).
  reflexivity.
Qed.

End WithPlatform.

Lemma checkUrl_status_is_not_retried_witness :
  sampleValidUrl newsUrl = true
  /\ sampleRequestError newsUrl = None
  /\ net404 (issued emptyWorld) (headOptions newsUrl) = Response 404
  /\ 404 <> 405
  /\ checkUrl sampleValidUrl sampleRequestError net404 newsUrl emptyWorld
     = (Normal (Some (resultOfStatus 404)),
        mkWorld (S (issued emptyWorld))
          (trace emptyWorld
           ++ [EvRequest (headOptions newsUrl); EvSettled (Response 404)])).
Proof.
  split; [reflexivity|]. split; [reflexivity|]. split; [reflexivity|].
  split; [discriminate|].
  apply (checkUrl_status_is_not_retried sampleValidUrl sampleRequestError
           net404 newsUrl emptyWorld 404);
    [reflexivity|reflexivity|reflexivity|discriminate].
Defined.

Lemma checkUrl_transport_failure_classified_witness :
  sampleValidUrl newsUrl = true
  /\ sampleRequestError newsUrl = None
  /\ (forall n e, netTimeout n (getOptions newsUrl) <> Failed e)
  /\ exists r w' evs,
       checkUrl sampleValidUrl sampleRequestError netTimeout newsUrl emptyWorld
       = (Normal (Some r), w')
       /\ trace w' = trace emptyWorld ++ evs
       /\ (finalStatus evs = None ->
           isAlive r = false /\ statusCode r = 0
           /\ classified (error r) = true).
Proof.
  split; [reflexivity|]. split; [reflexivity|]. split; [discriminate|].
  apply (checkUrl_transport_failure_classified sampleValidUrl
           sampleRequestError netTimeout newsUrl emptyWorld);
    [reflexivity|reflexivity|discriminate].
Defined.

Lemma checkUrl_invalid_url_witness :
  sampleValidUrl (lit "not a url") = false
  /\ checkUrl sampleValidUrl sampleRequestError netRefused (lit "not a url")
       emptyWorld
     = (Normal (Some (mkProbeResult false (err_message invalidUrlError) 0)),
        mkWorld (issued emptyWorld) (trace emptyWorld ++ [EvSleep 1000])).
Proof.
  split; [reflexivity|].
  apply (checkUrl_invalid_url sampleValidUrl sampleRequestError netRefused
           (lit "not a url") emptyWorld). reflexivity.
Defined.

Lemma checkUrl_options_refused_witness :
  schemeValidUrl noteUrl = true
  /\ sampleRequestError noteUrl = Some unescapedError
  /\ checkUrl schemeValidUrl sampleRequestError net200 noteUrl emptyWorld
     = (Normal (Some (mkProbeResult false
                        (lit "Request path contains unescaped characters") 0)),
        mkWorld (issued emptyWorld) (trace emptyWorld ++ [EvSleep 1000])).
Proof.
  split; [reflexivity|]. split; [reflexivity|].
  apply (checkUrl_options_refused schemeValidUrl sampleRequestError net200
           noteUrl emptyWorld unescapedError); reflexivity.
Defined.

End ProberMore.
Import ProberMore.

(* ===================================================================== *)
(** ** Further properties of the checker *)
(* ===================================================================== *)

Module CheckerMore.

Lemma countLines_app (a b : list Event) :
  countLines (a ++ b) = countLines a ++ countLines b.
Proof. unfold countLines. now rewrite logsOf_app, filter_app. Qed.

Lemma checkings_app (a b : list Event) :
  checkings (a ++ b) = (checkings a + checkings b)%nat.
Proof. unfold checkings. now rewrite logsOf_app, filter_app, length_app. Qed.

Lemma quiet_app (a b : list Event) : quiet a -> quiet b -> quiet (a ++ b).
Proof.
  intros (A1 & A2 & A3) (B1 & B2 & B3). unfold quiet.
  now rewrite countLines_app, checkings_app, countMethod_app,
    A1, A2, A3, B1, B2, B3.
Qed.

(** X21: when the playlist file is missing or unreadable, the run writes
    its banner, the parsing line and the error message of the source
    ([free.m3u not found!] for a missing file), issues no request, and
    ends with status 1. *)
Theorem runCheck_source_error
    (v : jsstring -> bool) (q : jsstring -> option JsError)
    (net : nat -> Request -> Outcome)
    (fs : jsstring -> FileState) (w : World) (message : jsstring) :
  sourceError fs = Some message ->
  runCheck v q net fs w
  = (1, mkWorld (issued w)
          (trace w ++ map EvLog [LogBanner; LogBannerRule;
                                 LogParsing M3U_FILE; LogCheckError message])).
Proof.
  unfold sourceError. intros H.
  unfold runCheck, runCheckBody, parseM3U. rewrite !bind_log.
  destruct (fs M3U_FILE) as [|e|content]; [| |discriminate];
    injection H as <-; unfold bind, throw, log, emit; cbn [snd issued trace];
    now rewrite <- !app_assoc.
Qed.

Lemma runCheck_source_error_witness :
  sourceError (fun _ => Missing) = Some (lit "free.m3u not found!")
  /\ runCheck sampleValidUrl sampleRequestError netRefused (fun _ => Missing)
       emptyWorld
     = (1, mkWorld (issued emptyWorld)
             (trace emptyWorld
              ++ map EvLog [LogBanner; LogBannerRule; LogParsing M3U_FILE;
                            LogCheckError (lit "free.m3u not found!")])).
Proof.
  split; [reflexivity|].
  apply (runCheck_source_error sampleValidUrl sampleRequestError netRefused
           (fun _ => Missing) emptyWorld (lit "free.m3u not found!")).
  reflexivity.
Defined.

Section WithPlatform.

Variable isValidUrl : jsstring -> bool.
Variable requestError : jsstring -> option JsError.
Variable net : nat -> Request -> Outcome.

Local Abbreviation checkUrl := (Checker.checkUrl isValidUrl requestError net).
Local Abbreviation checkEntries :=
  (Checker.checkEntries isValidUrl requestError net).
Local Abbreviation attemptEvents :=
  (ProbeShapes.attemptEvents isValidUrl requestError net).
Local Abbreviation sendable := (Spec.sendable isValidUrl requestError).
Local Abbreviation sendableEntries :=
  (ProbeShapes.sendableEntries isValidUrl requestError).

Lemma attemptEvents_tally (url : jsstring) (n : nat) :
  logsOf (attemptEvents url n) = []
  /\ countMethod HEAD (attemptEvents url n)
     = (if sendable url then 1%nat else 0%nat).
Proof.
  unfold ProbeShapes.attemptEvents. destruct (sendable url); [|now split].
  destruct (net n (headOptions url)) as [s| |e]; [|now split..].
  destruct (s =? 405); now split.
Qed.

(** What a probe adds to the trace: no line on the console, and one or two
    HEAD requests when its attempts get as far as a request, none when they
    do not. *)
Lemma checkUrl_tally (url : jsstring) (w : World) :
  exists r w' evs,
    checkUrl url w = (Normal (Some r), w') /\ trace w' = trace w ++ evs
    /\ logsOf evs = []
    /\ ((if sendable url then 1 else 0) <= countMethod HEAD evs
        <= (if sendable url then 2 else 0))%nat.
Proof.
  rewrite checkUrl_by_attempts.
  destruct (fst (Checker.makeRequest isValidUrl requestError net url w))
    as [s|e].
  - do 3 eexists. split; [reflexivity|]. split; [reflexivity|].
    destruct (attemptEvents_tally url (issued w)) as [Hl Hh].
    split; [exact Hl|]. rewrite Hh. destruct (sendable url); lia.
  - cbv zeta. do 3 eexists. split; [reflexivity|].
    unfold ProbeShapes.afterAttempt. cbn [issued trace]. rewrite <- !app_assoc.
    split; [reflexivity|].
    destruct (attemptEvents_tally url (issued w)) as [Hl1 Hh1].
    match goal with
    | |- context [ProbeShapes.attemptEvents _ _ _ url ?n] =>
        lazymatch n with
        | issued w => fail
        | _ => destruct (attemptEvents_tally url n) as [Hl2 Hh2]
        end
    end.
    split.
    + now rewrite !logsOf_app, Hl1, Hl2.
    + rewrite !countMethod_app, Hh1, Hh2.
      change (countMethod HEAD [EvSleep 1000]) with 0%nat.
      destruct (sendable url); lia.
Qed.

Lemma sendableEntries_cons (entry : Entry) (rest : list Entry) :
  List.length (sendableEntries (entry :: rest))
  = ((if sendable (url entry) then 1 else 0)
     + List.length (sendableEntries rest))%nat.
Proof.
  unfold ProbeShapes.sendableEntries. cbn [filter].
  now destruct (sendable (url entry)).
Qed.

Lemma bind_run {A B : Type} (c : M A) (k : A -> M B) (w w' : World) (a : A) :
  c w = (Normal a, w') -> bind c k w = k a w'.
Proof. intros H. unfold bind. now rewrite H. Qed.

Lemma bind_assoc {A B C : Type} (c : M A) (k : A -> M B) (h : B -> M C)
    (w : World) :
  bind (bind c k) h w = bind c (fun a => bind (k a) h) w.
Proof. unfold bind. now destruct (c w) as [[a|e] w']. Qed.

Lemma bind_when_sleep {B : Type} (b : bool) (ms : N) (k : unit -> M B)
    (w : World) :
  bind (when b (sleep ms)) k w
  = k tt (mkWorld (issued w) (trace w ++ (if b then [EvSleep ms] else []))).
Proof.
  destruct b; [reflexivity|]. unfold when. rewrite bind_ret.
  destruct w. cbn [issued trace]. now rewrite app_nil_r.
Qed.

Lemma logDeadLink_run (entry : Entry) (error : jsstring) (statusCode : N)
    (w : World) :
  logDeadLink entry error statusCode w
  = (Normal tt,
     mkWorld (issued w) (trace w ++ deadLinkEvents entry error statusCode)).
Proof.
  unfold logDeadLink, deadLinkEvents. rewrite !bind_log.
  destruct (truthy (groupTitle entry)); unfold when.
  - rewrite !bind_log. unfold log, emit. cbn [issued trace].
    now rewrite <- !app_assoc.
  - rewrite bind_ret, !bind_log. unfold log, emit. cbn [issued trace].
    now rewrite <- !app_assoc.
Qed.

Lemma deadLinkEvents_quiet (entry : Entry) (error : jsstring) (statusCode : N) :
  quiet (deadLinkEvents entry error statusCode).
Proof.
  unfold deadLinkEvents, quiet, countLines, checkings, countMethod.
  now destruct (truthy (groupTitle entry)).
Qed.

Lemma logs_none_countLines (evs : list Event) :
  logsOf evs = [] -> countLines evs = [].
Proof. unfold countLines. now intros ->. Qed.

Lemma logs_none_checkings (evs : list Event) :
  logsOf evs = [] -> checkings evs = 0%nat.
Proof. unfold checkings. now intros ->. Qed.

(** The loop over the entries: every entry is probed and ends up alive or
    dead. *)
Lemma checkEntries_tally (rest : list Entry) :
  forall total i deadStreams aliveCount w,
    exists dead' alive' w' evs,
      checkEntries total i rest deadStreams aliveCount w
      = (Normal (deadStreams ++ dead', aliveCount + alive'), w')
      /\ trace w' = trace w ++ evs
      /\ N.of_nat (List.length dead') + alive' = N.of_nat (List.length rest)
      /\ countLines evs = []
      /\ checkings evs = List.length rest
      /\ (List.length (sendableEntries rest) <= countMethod HEAD evs
          <= 2 * List.length (sendableEntries rest))%nat.
Proof.
  induction rest as [|entry rest IH];
    intros total i deadStreams aliveCount w.
  - exists [], 0, w, []. cbn [Checker.checkEntries].
    rewrite !app_nil_r, N.add_0_r. repeat split; auto.
  - cbn [Checker.checkEntries]. cbv zeta. rewrite bind_log.
    rewrite sendableEntries_cons.
    match goal with
    | |- context [bind (Checker.checkUrl _ _ _ _) _ ?w1] =>
        destruct (checkUrl_tally (url entry) w1)
          as (r & w2 & evs1 & E & Ht & Hl & Hh)
    end.
    rewrite (bind_run _ _ _ _ _ E). cbn [trace] in Ht.
    cbv beta iota.
    destruct (isAlive r).
    + rewrite bind_assoc, bind_log. cbv beta.
      rewrite bind_ret, bind_when_sleep. cbn [fst snd].
      match goal with
      | |- context [Checker.checkEntries _ _ _ _ _ _ _ _ ?w3] =>
          destruct (IH total (i + 1) deadStreams (aliveCount + 1) w3)
            as (dead' & alive' & w' & evsR & ER & HtR & Hc & Hq & Hk & Hhd)
      end.
      exists dead', (1 + alive'), w'. eexists.
      split; [rewrite ER; now rewrite N.add_assoc|].
      cbn [trace issued] in HtR. rewrite Ht in HtR.
      rewrite <- !app_assoc in HtR. split; [exact HtR|].
      split; [cbn [List.length]; lia|].
      rewrite !countLines_app, !checkings_app, !countMethod_app, Hq, Hk.
      rewrite (logs_none_countLines _ Hl), (logs_none_checkings _ Hl).
      change (countMethod HEAD [EvLog (LogChecking (i + 1) total
                (if truthy (groupTitle entry)
                 then title entry ++ lit " (" ++ groupTitle entry ++ lit ")"
                 else title entry))]) with 0%nat.
      destruct (i <? total - 1); (split; [reflexivity|]);
        (split; [reflexivity|]);
        cbn [countMethod requestsOf filter List.length app];
        destruct (sendable (url entry)); lia.
    + rewrite bind_assoc, bind_log. cbv beta. rewrite bind_assoc.
      rewrite (bind_run _ _ _ _ _ (logDeadLink_run _ _ _ _)). cbv beta.
      rewrite bind_ret, bind_when_sleep. cbn [fst snd].
      match goal with
      | |- context [Checker.checkEntries _ _ _ _ _ _ ?d ?a ?w3] =>
          destruct (IH total (i + 1) d a w3)
            as (dead' & alive' & w' & evsR & ER & HtR & Hc & Hq & Hk & Hhd)
      end.
      exists (mkDeadStream entry (error r) (statusCode r) :: dead'), alive', w'.
      eexists.
      split; [rewrite ER; now rewrite <- app_assoc|].
      cbn [trace issued] in HtR. rewrite Ht in HtR.
      rewrite <- !app_assoc in HtR. split; [exact HtR|].
      split; [cbn [List.length]; lia|].
      destruct (deadLinkEvents_quiet entry (error r) (statusCode r))
        as (D1 & D2 & D3).
      rewrite !countLines_app, !checkings_app, !countMethod_app,
        Hq, Hk, D1, D2, D3.
      rewrite (logs_none_countLines _ Hl), (logs_none_checkings _ Hl).
      change (countMethod HEAD [EvLog (LogChecking (i + 1) total
                (if truthy (groupTitle entry)
                 then title entry ++ lit " (" ++ groupTitle entry ++ lit ")"
                 else title entry))]) with 0%nat.
      destruct (i <? total - 1); (split; [reflexivity|]);
        (split; [reflexivity|]);
        cbn [countMethod requestsOf filter List.length app];
        destruct (sendable (url entry)); lia.
Qed.

End WithPlatform.

Lemma logSummary_run (deadStreams : list DeadStream) :
  forall index w,
    logSummary index deadStreams w
    = (Normal tt,
       mkWorld (issued w) (trace w ++ summaryEvents index deadStreams)).
Proof.
  induction deadStreams as [|d rest IH]; intros index w;
    cbn [logSummary summaryEvents].
  - destruct w. unfold ret. cbn [issued trace]. now rewrite app_nil_r.
  - rewrite bind_log.
    destruct (truthy (groupTitle (dead_entry d))); unfold when.
    + rewrite !bind_log, IH. cbn [issued trace]. now rewrite <- !app_assoc.
    + rewrite bind_ret, !bind_log, IH. cbn [issued trace].
      now rewrite <- !app_assoc.
Qed.

Lemma summaryEvents_quiet (deadStreams : list DeadStream) :
  forall index, quiet (summaryEvents index deadStreams).
Proof.
  induction deadStreams as [|d rest IH]; intros index;
    cbn [summaryEvents]; [now repeat split|].
  repeat apply quiet_app; try apply IH; try (now repeat split).
  now destruct (truthy (groupTitle (dead_entry d))).
Qed.

(** X22: a run over a playlist with entries probes every entry, reports
    each as live or dead, and its count lines are consistent: the live and
    dead counts add up to the number of entries found, and the success rate
    is computed over that number, which is not zero.  The run issues one or
    two HEAD requests for each entry whose probe gets as far as a request
    and none for the others, whose options [lib.request] refuses.  The run
    ends with status 0. *)
Theorem runCheck_counts_add_up
    (v : jsstring -> bool) (q : jsstring -> option JsError)
    (net : nat -> Request -> Outcome)
    (fs : jsstring -> FileState) (content : jsstring) (w : World) :
  fs M3U_FILE = Content content ->
  parseContent v content <> [] ->
  exists aliveCount deadCount w' evs,
    runCheck v q net fs w = (0, w')
    /\ trace w' = trace w ++ evs
    /\ countLines evs
       = [LogFound (N.of_nat (List.length (parseContent v content)));
          LogLiveCount aliveCount; LogDeadCount deadCount;
          LogSuccessRate aliveCount
            (N.of_nat (List.length (parseContent v content)))]
    /\ aliveCount + deadCount
       = N.of_nat (List.length (parseContent v content))
    /\ N.of_nat (List.length (parseContent v content)) <> 0
    /\ checkings evs = List.length (parseContent v content)
    /\ (List.length (sendableEntries v q (parseContent v content))
        <= countMethod HEAD evs
        <= 2 * List.length (sendableEntries v q (parseContent v content)))%nat.
Proof.
  intros Hfs Hne.
  unfold runCheck, runCheckBody, parseM3U. rewrite !bind_log, Hfs, bind_ret.
  cbv zeta. rewrite bind_log.
  set (entries := parseContent v content) in *.
  assert (Hn : N.of_nat (List.length entries) <> 0).
  { destruct entries; [now elim Hne|]. cbn [List.length]. lia. }
  apply N.eqb_neq in Hn. rewrite Hn. apply N.eqb_neq in Hn.
  match goal with
  | |- context [bind (checkEntries _ _ _ ?t ?i _ ?d ?a) _ ?w3] =>
      destruct (checkEntries_tally v q net entries t i d a w3)
        as (dead' & alive' & w4 & evsE & EE & HtE & Hc & Hq & Hk & Hhd)
  end.
  rewrite (bind_run _ _ _ _ _ EE). cbn [fst snd app]. rewrite !bind_log.
  change (0 + alive') with alive'. cbn [issued trace] in *.
  exists alive', (N.of_nat (List.length dead')).
  destruct (0 <? N.of_nat (List.length dead')).
  - rewrite !bind_log, logSummary_run. cbn [issued trace].
    do 2 eexists. split; [reflexivity|]. rewrite HtE, <- !app_assoc.
    split; [reflexivity|].
    destruct (summaryEvents_quiet dead' 0) as (S1 & S2 & S3).
    rewrite !countLines_app, !checkings_app, !countMethod_app,
      Hq, Hk, S1, S2, S3.
    split; [reflexivity|]. split; [lia|]. split; [exact Hn|].
    split; [cbn; lia|].
    unfold countMethod in *.
    cbn [requestsOf filter List.length app] in *. lia.
  - unfold log, emit. cbn [issued trace].
    do 2 eexists. split; [reflexivity|]. rewrite HtE, <- !app_assoc.
    split; [reflexivity|].
    rewrite !countLines_app, !checkings_app, !countMethod_app, Hq, Hk.
    split; [reflexivity|]. split; [lia|]. split; [exact Hn|].
    split; [cbn; lia|].
    unfold countMethod in *.
    cbn [requestsOf filter List.length app] in *. lia.
Qed.

Lemma runCheck_counts_add_up_witness :
  fsWith notePlaylist M3U_FILE = Content notePlaylist
  /\ parseContent schemeValidUrl notePlaylist <> []
  /\ List.length (parseContent schemeValidUrl notePlaylist) = 2%nat
  /\ List.length (sendableEntries schemeValidUrl sampleRequestError
                    (parseContent schemeValidUrl notePlaylist)) = 1%nat
  /\ exists aliveCount deadCount w' evs,
       runCheck schemeValidUrl sampleRequestError net200 (fsWith notePlaylist)
         emptyWorld
       = (0, w')
       /\ trace w' = trace emptyWorld ++ evs
       /\ countLines evs
          = [LogFound (N.of_nat (List.length
                                   (parseContent schemeValidUrl notePlaylist)));
             LogLiveCount aliveCount; LogDeadCount deadCount;
             LogSuccessRate aliveCount
               (N.of_nat (List.length
                            (parseContent schemeValidUrl notePlaylist)))]
       /\ aliveCount + deadCount
          = N.of_nat (List.length (parseContent schemeValidUrl notePlaylist))
       /\ N.of_nat (List.length (parseContent schemeValidUrl notePlaylist)) <> 0
       /\ checkings evs
          = List.length (parseContent schemeValidUrl notePlaylist)
       /\ (List.length (sendableEntries schemeValidUrl sampleRequestError
                          (parseContent schemeValidUrl notePlaylist))
           <= countMethod HEAD evs
           <= 2 * List.length (sendableEntries schemeValidUrl sampleRequestError
                                 (parseContent schemeValidUrl notePlaylist)))%nat.
Proof.
  split; [reflexivity|]. split; [discriminate|]. split; [reflexivity|].
  split; [reflexivity|].
  apply (runCheck_counts_add_up schemeValidUrl sampleRequestError net200
           (fsWith notePlaylist) notePlaylist emptyWorld);
    [reflexivity|discriminate].
Defined.

End CheckerMore.
Import CheckerMore.

(* ===================================================================== *)
(** ** Line endings and lines kept *)
(* ===================================================================== *)

Module LineEndings.

Lemma eqb_eq (s : jsstring) : forall t, Js.eqb s t = true -> s = t.
Proof.
  induction s as [|c s IH]; intros [|d t]; simpl; try discriminate;
    [reflexivity|].
  intros H. apply andb_true_iff in H. destruct H as [Hc Hs].
  apply N.eqb_eq in Hc. subst d. f_equal. now apply IH.
Qed.

Lemma dropWhile_all (s : jsstring) :
  forallb isWs s = true -> dropWhile isWs s = [].
Proof.
  induction s as [|c s IH]; simpl; [reflexivity|].
  intros H. apply andb_true_iff in H. destruct H as [Hc Hs].
  rewrite Hc. now apply IH.
Qed.

Lemma dropWhile_snoc (s : jsstring) (c : N) :
  dropWhile isWs (s ++ [c])
  = if forallb isWs s then dropWhile isWs [c] else dropWhile isWs s ++ [c].
Proof.
  induction s as [|d s IH]; [reflexivity|]. simpl.
  destruct (isWs d); [exact IH|reflexivity].
Qed.

(** A white space code unit at the end of a line does not survive
    [trim]. *)
Lemma trim_snoc_ws (s : jsstring) (c : N) :
  isWs c = true -> trim (s ++ [c]) = trim s.
Proof.
  intros Hc. unfold trim. rewrite dropWhile_snoc.
  destruct (forallb isWs s) eqn:Hs.
  - simpl. rewrite Hc. now rewrite (dropWhile_all _ Hs).
  - rewrite rev_app_distr. simpl. now rewrite Hc.
Qed.

(** Splitting a text with CRLF line endings leaves the carriage returns at
    the ends of the lines. *)
Lemma splitLines_toCRLF (s : jsstring) :
  splitLines (toCRLF s) = endCR (splitLines s).
Proof.
  induction s as [|c s IH]; [reflexivity|].
  unfold toCRLF in *. cbn [flat_map splitLines].
  destruct (c =? LF) eqn:Hc.
  - cbn [app splitLines]. change (CR =? LF) with false. cbv iota.
    change (LF =? LF) with true. cbv iota. rewrite IH.
    pose proof (splitLines_not_nil s) as Hne.
    destruct (splitLines s) as [|l ls]; [now elim Hne|reflexivity].
  - cbn [app splitLines]. rewrite Hc, IH.
    pose proof (splitLines_not_nil s) as Hne.
    destruct (splitLines s) as [|l ls]; [now elim Hne|].
    destruct ls as [|l2 ls]; reflexivity.
Qed.

Lemma trim_endCR (ls : list jsstring) : map trim (endCR ls) = map trim ls.
Proof.
  induction ls as [|l ls IH]; [reflexivity|].
  destruct ls as [|l2 ls]; [reflexivity|].
  change (endCR (l :: l2 :: ls)) with ((l ++ [CR]) :: endCR (l2 :: ls)).
  cbn [map] in *. rewrite IH. f_equal. now apply trim_snoc_ws.
Qed.

Lemma toCRLF_fromCRLF_from (s : jsstring) :
  forall afterCR,
    crlfFrom afterCR s = true ->
    toCRLF (fromCRLF s)
    = match s with
      | c :: _ => if c =? LF then CR :: s else s
      | [] => s
      end.
Proof.
  induction s as [|c s IH]; intros afterCR H; [reflexivity|].
  cbn [crlfFrom] in H. apply andb_true_iff in H. destruct H as [_ H].
  specialize (IH _ H). destruct s as [|d s].
  - unfold toCRLF. cbn [fromCRLF flat_map].
    destruct (c =? LF) eqn:Hc; [|reflexivity].
    apply N.eqb_eq in Hc. now subst c.
  - cbn [crlfFrom] in H. apply andb_true_iff in H. destruct H as [Hd _].
    change (fromCRLF (c :: d :: s))
      with (if (c =? CR) && (d =? LF) then fromCRLF (d :: s)
            else c :: fromCRLF (d :: s)).
    destruct (c =? CR) eqn:Hcr; cbn [andb orb] in *.
    + apply N.eqb_eq in Hcr. subst c. change (CR =? LF) with false. cbv iota.
      destruct (d =? LF) eqn:Hdl.
      * exact IH.
      * change (toCRLF (CR :: fromCRLF (d :: s)))
          with (CR :: toCRLF (fromCRLF (d :: s))).
        now rewrite IH.
    + rewrite orb_false_r in Hd. apply negb_true_iff in Hd. rewrite Hd in IH.
      change (toCRLF (c :: fromCRLF (d :: s)))
        with ((if c =? LF then [CR; LF] else [c]) ++ toCRLF (fromCRLF (d :: s))).
      rewrite IH. destruct (c =? LF) eqn:Hc; [|reflexivity].
      apply N.eqb_eq in Hc. now subst c.
Qed.

(** A text with CRLF line endings is its LF form with the carriage
    returns put back. *)
Lemma toCRLF_fromCRLF (s : jsstring) :
  crlfText s = true -> toCRLF (fromCRLF s) = s.
Proof.
  intros H. rewrite (toCRLF_fromCRLF_from s false H).
  destruct s as [|c s]; [reflexivity|].
  unfold crlfText in H. cbn [crlfFrom] in H. apply andb_true_iff in H.
  destruct H as [H _]. rewrite orb_false_r in H. apply negb_true_iff in H.
  now rewrite H.
Qed.

Lemma parseContent_toCRLF (v : jsstring -> bool) (content : jsstring) :
  parseContent v (toCRLF content) = parseContent v content.
Proof.
  unfold parseContent, linesOf. now rewrite splitLines_toCRLF, trim_endCR.
Qed.

Lemma cleanM3u_toCRLF (content : jsstring) :
  cleanM3u (toCRLF content) = cleanM3u content.
Proof.
  assert (Hc : forall l, cleanLine l = cleanLine (trim l)).
  { intros l. unfold cleanLine. now rewrite trim_trim. }
  assert (Hm : forall xs, map cleanLine xs = map cleanLine (map trim xs)).
  { intros xs. rewrite map_map. apply map_ext, Hc. }
  unfold cleanM3u.
  rewrite (Hm (splitLines (toCRLF content))), splitLines_toCRLF, trim_endCR.
  now rewrite <- Hm.
Qed.

(** X23: a playlist with CRLF line endings (every line feed after a
    carriage return, with or without a line terminator at the end of the
    file) parses like the same playlist with LF line endings. *)
Theorem parseContent_crlf (v : jsstring -> bool) (content : jsstring) :
  crlfText content = true ->
  parseContent v content = parseContent v (fromCRLF content).
Proof.
  intros H. rewrite <- (toCRLF_fromCRLF content H) at 1.
  apply parseContent_toCRLF.
Qed.

(** X24: [cleanM3u] removes carriage returns: a file with CRLF line
    endings, with or without a line terminator at its end, is cleaned to
    the same content as the file with LF line endings. *)
Theorem cleanM3u_crlf (content : jsstring) :
  crlfText content = true ->
  cleanM3u content = cleanM3u (fromCRLF content).
Proof.
  intros H. rewrite <- (toCRLF_fromCRLF content H) at 1.
  apply cleanM3u_toCRLF.
Qed.

Lemma parseContent_crlf_witness :
  crlfText crlfPlaylist = true
  /\ fromCRLF crlfPlaylist
     = lit "#EXTM3U" ++ [LF] ++ extinfNews ++ [LF] ++ newsUrl ++ [LF]
  /\ parseContent sampleValidUrl crlfPlaylist
     = parseContent sampleValidUrl (fromCRLF crlfPlaylist).
Proof.
  split; [reflexivity|]. split; [reflexivity|].
  apply (parseContent_crlf sampleValidUrl crlfPlaylist). reflexivity.
Defined.

Lemma cleanM3u_crlf_witness :
  crlfText crlfPlaylist = true
  /\ fromCRLF crlfPlaylist
     = lit "#EXTM3U" ++ [LF] ++ extinfNews ++ [LF] ++ newsUrl ++ [LF]
  /\ cleanM3u crlfPlaylist = cleanM3u (fromCRLF crlfPlaylist).
Proof.
  split; [reflexivity|]. split; [reflexivity|].
  apply (cleanM3u_crlf crlfPlaylist). reflexivity.
Defined.

(** The same for a file that ends without a line terminator. *)
Example crlf_without_final_terminator :
  crlfText (lit "#EXTM3U" ++ [CR; LF] ++ extinfNews ++ [CR; LF] ++ newsUrl)
  = true
  /\ parseContent sampleValidUrl
       (lit "#EXTM3U" ++ [CR; LF] ++ extinfNews ++ [CR; LF] ++ newsUrl)
     = [mkEntry newsUrl (lit "The Show") (lit "News")]
  /\ cleanM3u
       (lit "#EXTM3U" ++ [CR; LF] ++ extinfNews ++ [CR; LF] ++ newsUrl)
     = lit "#EXTM3U" ++ [LF] ++ extinfNews ++ [LF] ++ newsUrl ++ [LF].
Proof. vm_compute. repeat split. Qed.

Section WithLocale.

Variable localeCompare : jsstring -> jsstring -> Z.

(** X25: the sorter invents no line: every line of the file written after
    the header is a trimmed, non-empty line of the file read. *)
Theorem sortM3u_lines_from_input (content out l : jsstring) :
  sortM3uByGroupTitle localeCompare content = Normal out ->
  In l (tl (splitLines out)) ->
  In l (map trim (tl (splitLines content))) /\ truthy l = true.
Proof.
  intros H Hl. destruct (sortM3u_lines _ _ _ H) as (_ & _ & Hs & _).
  rewrite Hs in Hl. cbn [tl] in Hl.
  set (pool := map trim (tl (splitLines content))).
  set (Q := fun x : jsstring => existsb (Js.eqb x) pool && truthy x).
  assert (HQ : forallb (forallb Q)
                 (sortStable (compareEntries localeCompare)
                    (groupEntries (splitLines content))) = true).
  { apply (forallb_perm _ _ _ (Permutation_sym (sortStable_perm _ _))).
    assert (Hpool : forallb (forallb (fun x => existsb (Js.eqb x) pool))
                      (groupEntries (splitLines content)) = true).
    { apply groupEntries_lines. rewrite forallb_forall. intros raw Hraw.
      apply existsb_exists. exists (trim raw). split; [|apply eqb_refl].
      unfold pool. now apply in_map. }
    pose proof (groupEntries_complete_entries (splitLines content)) as Hshape.
    rewrite forallb_forall in *. intros e He.
    specialize (Hpool e He). specialize (Hshape e He).
    unfold entryShape in Hshape. apply andb_true_iff in Hshape.
    destruct Hshape as [_ Ht]. rewrite forallb_forall in *.
    intros x Hx. unfold Q. rewrite (Hpool x Hx). cbn [andb].
    specialize (Ht x Hx). unfold tidy in Ht.
    apply andb_true_iff in Ht. destruct Ht as [Ht _].
    apply andb_true_iff in Ht. tauto. }
  apply forallb_concat in HQ. rewrite forallb_forall in HQ.
  specialize (HQ l Hl). unfold Q in HQ. apply andb_true_iff in HQ.
  destruct HQ as [Hp Ht]. split; [|exact Ht].
  apply existsb_exists in Hp. destruct Hp as (x & Hx & Heq).
  apply eqb_eq in Heq. now subst x.
Qed.

(** X26: the sorter loses nothing of a playlist made of a header line and
    complete entries: the file written has the same header and exactly
    those entries, rearranged. *)
Theorem sortM3u_keeps_complete_playlist
    (header : jsstring) (es : list (list jsstring)) :
  startsWith (lit "#EXTM3U") header = true ->
  noneIs LF header = true ->
  forallb entryShape es = true ->
  forallb (forallb (noneIs LF)) es = true ->
  exists out,
    sortM3uByGroupTitle localeCompare (joinLines (header :: List.concat es))
    = Normal out
    /\ hd [] (splitLines out) = header
    /\ Permutation (groupEntries (splitLines out)) es.
Proof.
  intros Hh Hlf Hshape Hes.
  assert (Hsplit : splitLines (joinLines (header :: List.concat es))
                   = header :: List.concat es).
  { apply splitLines_joinLines; [discriminate|]. cbn [forallb].
    rewrite Hlf. now apply forallb_concat. }
  assert (Hrun : exists out,
             sortM3uByGroupTitle localeCompare
               (joinLines (header :: List.concat es)) = Normal out).
  { unfold sortM3uByGroupTitle. cbv zeta. rewrite Hsplit. cbn [hd].
    rewrite Hh. cbn [negb]. now eexists. }
  destruct Hrun as (out & Hout). exists out. split; [exact Hout|].
  destruct (sortM3u_lines _ _ _ Hout) as (_ & _ & Hs & Hg).
  rewrite Hg, Hs, Hsplit. cbn [hd]. split; [reflexivity|].
  rewrite (groupEntries_concat _ _ Hshape). apply sortStable_perm.
Qed.

End WithLocale.

Lemma sortM3u_lines_from_input_witness :
  sortM3uByGroupTitle codeUnitCompare unsortedPlaylist = Normal sortedPlaylist
  /\ In (lit "http://b.example/1") (tl (splitLines sortedPlaylist))
  /\ In (lit "http://b.example/1") (map trim (tl (splitLines unsortedPlaylist)))
  /\ truthy (lit "http://b.example/1") = true.
Proof.
  assert (H1 : sortM3uByGroupTitle codeUnitCompare unsortedPlaylist
               = Normal sortedPlaylist) by (vm_compute; reflexivity).
  assert (H2 : In (lit "http://b.example/1") (tl (splitLines sortedPlaylist))).
  { vm_compute. repeat (first [left; reflexivity|right]). }
  split; [exact H1|]. split; [exact H2|].
  exact (sortM3u_lines_from_input codeUnitCompare unsortedPlaylist
           sortedPlaylist (lit "http://b.example/1") H1 H2).
Defined.

Lemma sortM3u_keeps_complete_playlist_witness :
  startsWith (lit "#EXTM3U") (lit "#EXTM3U") = true
  /\ noneIs LF (lit "#EXTM3U") = true
  /\ forallb entryShape
       [[lit "#EXTINF:-1,B"; lit "http://b.example/1"];
        [lit "#EXTINF:-1,A"; lit "#EXTVLCOPT:x"; lit "http://a.example/2"]]
     = true
  /\ forallb (forallb (noneIs LF))
       [[lit "#EXTINF:-1,B"; lit "http://b.example/1"];
        [lit "#EXTINF:-1,A"; lit "#EXTVLCOPT:x"; lit "http://a.example/2"]]
     = true
  /\ exists out,
       sortM3uByGroupTitle codeUnitCompare
         (joinLines
            (lit "#EXTM3U"
             :: List.concat
                  [[lit "#EXTINF:-1,B"; lit "http://b.example/1"];
                   [lit "#EXTINF:-1,A"; lit "#EXTVLCOPT:x";
                    lit "http://a.example/2"]]))
       = Normal out
       /\ hd [] (splitLines out) = lit "#EXTM3U"
       /\ Permutation (groupEntries (splitLines out))
            [[lit "#EXTINF:-1,B"; lit "http://b.example/1"];
             [lit "#EXTINF:-1,A"; lit "#EXTVLCOPT:x"; lit "http://a.example/2"]].
Proof.
  split; [reflexivity|]. split; [reflexivity|]. split; [reflexivity|].
  split; [reflexivity|].
  apply (sortM3u_keeps_complete_playlist codeUnitCompare (lit "#EXTM3U")
           [[lit "#EXTINF:-1,B"; lit "http://b.example/1"];
            [lit "#EXTINF:-1,A"; lit "#EXTVLCOPT:x"; lit "http://a.example/2"]]);
    reflexivity.
Defined.

End LineEndings.
Import LineEndings.
